(** * Combat AI of galaxy-war: squad coordinator, path finder, enemy hooks

    A shallow embedding of [src/game/AIBehavior.ts] (classes [AICoordinator]
    and [PathFinder]) and of the parts of the [Enemy] class that call into
    them, followed by the properties of the specification that were checked
    against it.  The embedding then widens to the code around them: the
    damage, explosion, throw, tracking and path following methods of
    [Enemy], the collision pass of [src/game/Game.ts], and the arena, its
    collision test and the priority queue of [src/game/Level.ts], each with
    the properties (X1, X2, ...) read off the code.

    Conventions of the embedding:
    - integers of the source (grid indexes, alert and threat levels, tick
      counters, milliseconds) are [Z];
    - world coordinates are exact rationals [Q] wherever the source only
      adds, scales, floors and compares them; a comparison
      [a.distanceTo(b) <= r] is taken on the squares;
    - the trigonometric placement of formations and the explosion damage,
      which takes a square root, are stated over the reals [R];
    - [Date.now()] and [Math.random()] are arguments of the functions that
      call them;
    - a call that may loop takes a [fuel] bound on the number of loop
      iterations and completes with [OutOfFuel] when the bound is reached. *)

From Stdlib Require Import ZArith QArith Qabs Qround Qreals Reals Lra Lia.
From Stdlib Require Lqa.
From stdpp Require Import base option list gmap strings pretty.

#[local] Set Warnings "-clear-no-such-hyp".
Local Open Scope Z_scope.

(** ** Completions of a call *)

Inductive completion (A : Type) : Type :=
| Return (a : A)
| Throw (e : string)
| OutOfFuel.
Arguments Return {A} a.
Arguments Throw {A} e.
Arguments OutOfFuel {A}.

Global Instance completion_ret : MRet completion := λ A a, Return a.
Global Instance completion_bind : MBind completion := λ A B f m,
  match m with
  | Return a => f a
  | Throw e => Throw e
  | OutOfFuel => OutOfFuel
  end.

(** [try { body } catch (error) { handler }] *)
Definition tryCatch {A} (body : completion A) (handler : string → completion A)
  : completion A :=
  match body with
  | Throw e => handler e
  | r => r
  end.

(** [for (const x of xs) { st = body st x }] with early exit on a throw *)
Fixpoint forOf {S A} (body : S → A → completion S) (xs : list A) (st : S)
  : completion S :=
  match xs with
  | [] => Return st
  | x :: xs' =>
      match body st x with
      | Return st' => forOf body xs' st'
      | Throw e => Throw e
      | OutOfFuel => OutOfFuel
      end
  end.

(** [a[i]] followed by a property read: a [TypeError] when [a[i]] is
    [undefined] *)
Definition propertyOf {A} (a : list A) (i : Z) : completion A :=
  match (if bool_decide (0 ≤ i) then a !! Z.to_nat i else None) with
  | Some v => Return v
  | None => Throw "TypeError"
  end.

(** ** THREE.Vector3 *)

Module THREE.

Record Vector3 (T : Type) : Type := mkVector3 { x : T; y : T; z : T }.
Arguments mkVector3 {T} x y z.
Arguments x {T} v.
Arguments y {T} v.
Arguments z {T} v.

Definition sub (a b : Vector3 Q) : Vector3 Q :=
  mkVector3 (x a - x b)%Q (y a - y b)%Q (z a - z b)%Q.

Definition add (a b : Vector3 Q) : Vector3 Q :=
  mkVector3 (x a + x b)%Q (y a + y b)%Q (z a + z b)%Q.

Definition multiplyScalar (a : Vector3 Q) (s : Q) : Vector3 Q :=
  mkVector3 (x a * s)%Q (y a * s)%Q (z a * s)%Q.

Definition lengthSq (a : Vector3 Q) : Q :=
  (x a * x a + y a * y a + z a * z a)%Q.

Definition distanceToSquared (a b : Vector3 Q) : Q := lengthSq (sub a b).

(** [a.distanceTo(b) <= r] and [a.distanceTo(b) < r] for a literal [0 <= r] *)
Definition distanceTo_le (a b : Vector3 Q) (r : Q) : bool :=
  Qle_bool (distanceToSquared a b) (r * r).
Definition distanceTo_lt (a b : Vector3 Q) (r : Q) : bool :=
  negb (Qle_bool (r * r) (distanceToSquared a b)).

End THREE.

Abbreviation Vector3 := (THREE.Vector3 Q).

(** ** The collision oracle

    [level.checkCollision(point, radius, height)]; the method may be absent. *)
Module Level.
Record t := mk { checkCollision : option (Vector3 → Q → Q → bool) }.
End Level.

(** ** PathFinder *)

Module PathFinder.

Abbreviation cell := (Z * Z)%type.
Abbreviation Grid := (list (list bool)).

Definition gridSize : Z := 1.
Definition arenaSize : Z := 50.

(** [Math.floor(this.arenaSize / this.gridSize)] *)
Definition size : Z := arenaSize `div` gridSize.

Definition initializeGrid (level : option Level.t) (grid : option Grid)
  : option Grid :=
  match level with
  | None => grid
  | Some level =>
      let step := 2 in
      Some ((λ x : Z,
              (λ z : Z,
                 if bool_decide (x `mod` step ≠ 0 ∨ z `mod` step ≠ 0) then false
                 else
                   let worldX := ((inject_Z x - inject_Z size / 2) * inject_Z gridSize)%Q in
                   let worldZ := ((inject_Z z - inject_Z size / 2) * inject_Z gridSize)%Q in
                   let worldPos := THREE.mkVector3 worldX 1%Q worldZ in
                   match Level.checkCollision level with
                   | Some check => check worldPos (1 # 2)%Q 1%Q
                   | None => false
                   end)
              <$> seqZ 0 size)
            <$> seqZ 0 size)
  end.

Definition worldToGrid (pos : Vector3) : cell :=
  let x := Qfloor ((THREE.x pos + inject_Z arenaSize / 2) / inject_Z gridSize) in
  let z := Qfloor ((THREE.z pos + inject_Z arenaSize / 2) / inject_Z gridSize) in
  (Z.max 0 (Z.min (size - 1) x), Z.max 0 (Z.min (size - 1) z)).

Definition gridToWorld (point : cell) : Vector3 :=
  let worldX := ((inject_Z point.1 - inject_Z (arenaSize `div` gridSize) / 2) * inject_Z gridSize)%Q in
  let worldZ := ((inject_Z point.2 - inject_Z (arenaSize `div` gridSize) / 2) * inject_Z gridSize)%Q in
  THREE.mkVector3 worldX 1%Q worldZ.

(** [x >= 0 && x < grid.length && z >= 0 && z < grid[0].length && !grid[x][z]],
    with the short-circuit order of the source; [grid[x][z]] of a short row
    is [undefined], whose negation is [true]. *)
Definition isValidCell (grid : option Grid) (x z : Z) : completion bool :=
  match grid with
  | None => Return false
  | Some grid =>
      if negb (bool_decide (0 ≤ x)) then Return false
      else if negb (bool_decide (x < Z.of_nat (length grid))) then Return false
      else if negb (bool_decide (0 ≤ z)) then Return false
      else
        row0 ← propertyOf grid 0;
        if negb (bool_decide (z < Z.of_nat (length row0))) then Return false
        else
          rowx ← propertyOf grid x;
          Return (negb (default false (rowx !! Z.to_nat z)))
  end.

(** The values [gScore.get(k) || Infinity] ranges over. *)
Inductive score := Fin (n : Z) | Infinity.

(** [v || Infinity]: [undefined] and [0] are both falsy. *)
Definition orInfinity (v : option Z) : score :=
  match v with
  | Some n => if bool_decide (n = 0) then Infinity else Fin n
  | None => Infinity
  end.

(** [v || 0] *)
Definition orZero (v : option Z) : Z :=
  match v with
  | Some n => if bool_decide (n = 0) then 0 else n
  | None => 0
  end.

(** [t < s] for a finite [t] *)
Definition ltScore (t : Z) (s : score) : bool :=
  match s with
  | Fin n => bool_decide (t < n)
  | Infinity => true
  end.

(** Sign of [a - b]; [Infinity - Infinity] is [NaN], which [sort] reads as 0. *)
Definition compareScore (a b : score) : comparison :=
  match a, b with
  | Fin m, Fin n => m ?= n
  | Fin _, Infinity => Lt
  | Infinity, Fin _ => Gt
  | Infinity, Infinity => Eq
  end.

(** [Array.prototype.sort] is stable; for a comparator that is a total
    preorder, as here, its result is the stable insertion sort. *)
Fixpoint insertSorted {A} (cmp : A → A → comparison) (a : A) (l : list A) : list A :=
  match l with
  | [] => [a]
  | b :: l' =>
      match cmp a b with
      | Gt => b :: insertSorted cmp a l'
      | _ => a :: l
      end
  end.

Definition sort {A} (cmp : A → A → comparison) (l : list A) : list A :=
  foldr (insertSorted cmp) [] l.

Definition heuristic (a b : cell) : Z := Z.abs (a.1 - b.1) + Z.abs (a.2 - b.2).

(** The maps are keyed by [getKey(point)], the string [`${x},${z}`]; it
    determines the integer pair, so the maps are keyed by the cell. *)
Record SearchState := mkSearchState {
  openSet : list cell;
  cameFrom : gmap cell cell;
  gScore : gmap cell Z;
  fScore : gmap cell Z
}.

Definition neighbors (current : cell) : list cell :=
  [ (current.1 + 1, current.2);
    (current.1 - 1, current.2);
    (current.1, current.2 + 1);
    (current.1, current.2 - 1) ].

(** Body of [for (const neighbor of neighbors)] *)
Definition relax (grid : option Grid) (end_ current : cell)
    (st : SearchState) (neighbor : cell) : completion SearchState :=
  valid ← isValidCell grid neighbor.1 neighbor.2;
  if negb valid then Return st
  else
    let tentativeGScore := orZero (gScore st !! current) + 1 in
    if ltScore tentativeGScore (orInfinity (gScore st !! neighbor)) then
      Return {|
        openSet :=
          if bool_decide (neighbor ∈ openSet st) then openSet st
          else openSet st ++ [neighbor];
        cameFrom := <[neighbor := current]> (cameFrom st);
        gScore := <[neighbor := tentativeGScore]> (gScore st);
        fScore := <[neighbor := tentativeGScore + heuristic neighbor end_]> (fScore st)
      |}
    else Return st.

(** The [while (openSet.length > 0)] loop up to its two exits: [Some m] when
    the end cell is taken from the open set ([m] is [cameFrom] at that
    moment), [None] when the loop ends without reaching it (empty open set,
    or more than 200 open nodes). *)
Fixpoint search (fuel : nat) (grid : option Grid) (end_ : cell)
    (st : SearchState) : completion (option (gmap cell cell)) :=
  match fuel with
  | O => OutOfFuel
  | S fuel' =>
      match sort (λ a b, compareScore (orInfinity (fScore st !! a))
                                      (orInfinity (fScore st !! b)))
                 (openSet st) with
      | [] => Return None
      | current :: rest =>
          if bool_decide (current = end_) then Return (Some (cameFrom st))
          else
            let st := mkSearchState rest (cameFrom st) (gScore st) (fScore st) in
            match forOf (relax grid end_ current) (neighbors current) st with
            | Return st' =>
                if bool_decide (200 < Z.of_nat (length (openSet st'))) then Return None
                else search fuel' grid end_ st'
            | Throw e => Throw e
            | OutOfFuel => OutOfFuel
            end
      end
  end.

(** [while (cameFrom.has(getKey(curr))) { curr = cameFrom.get(..); path.unshift(curr) }] *)
Fixpoint reconstruct (fuel : nat) (cameFrom : gmap cell cell) (curr : cell)
    (path : list cell) : completion (list cell) :=
  match fuel with
  | O => OutOfFuel
  | S fuel' =>
      match cameFrom !! curr with
      | Some prev => reconstruct fuel' cameFrom prev (prev :: path)
      | None => Return path
      end
  end.

(** The maps and the open set before the first iteration. *)
Definition initialState (start end_ : cell) : SearchState := {|
  openSet := [start];
  cameFrom := ∅;
  gScore := {[ start := 0 ]};
  fScore := {[ start := heuristic start end_ ]}
|}.

Definition aStar (fuel : nat) (grid : option Grid) (start end_ : cell)
  : completion (list cell) :=
  found ← search fuel grid end_ (initialState start end_);
  match found with
  | Some cameFrom => reconstruct fuel cameFrom end_ [end_]
  | None => Return [end_]
  end.

Definition findPath (fuel : nat) (grid : option Grid) (start end_ : Vector3)
  : completion (list Vector3) :=
  match grid with
  | None => Return [end_]
  | Some _ =>
      tryCatch
        (let startGrid := worldToGrid start in
         let endGrid := worldToGrid end_ in
         validStart ← isValidCell grid startGrid.1 startGrid.2;
         if negb validStart then Return [end_]
         else
           validEnd ← isValidCell grid endGrid.1 endGrid.2;
           if negb validEnd then Return [end_]
           else
             path ← aStar fuel grid startGrid endGrid;
             Return (map gridToWorld path))
        (λ error, Return [end_])
  end.

End PathFinder.

(** ** PathFinder, the variant of src/game/Level.ts

    Its search is commented out: [findPath] returns a copy of the
    destination whether or not the grid exists. *)

Module LevelPathFinder.

Definition clone (v : Vector3) : Vector3 :=
  THREE.mkVector3 (THREE.x v) (THREE.y v) (THREE.z v).

Definition findPath (grid : option PathFinder.Grid) (start end_ : Vector3)
  : completion (list Vector3) :=
  match grid with
  | None => Return [clone end_]
  | Some _ => Return [clone end_]
  end.

End LevelPathFinder.

(** ** Interfaces of AIBehavior.ts *)

(** ['leader' | 'flanker' | 'support' | 'lone'] *)
Inductive FormationRole := Leader | Flanker | Support | Lone.

(** ['surround' | 'pincer' | 'line' | 'scatter'] *)
Inductive FormationType := Surround | Pincer | Line | Scatter.

(** ['kill' | 'damage' | 'telekinesis' | 'headshot'] *)
Inductive ThreatAction := Kill | Damage | Telekinesis | Headshot.

Global Instance FormationRole_eq_dec : EqDecision FormationRole.
Proof. solve_decision. Defined.
Global Instance FormationType_eq_dec : EqDecision FormationType.
Proof. solve_decision. Defined.

(** [alertLevel] is the number the interface declares, between 0 and 100. *)
Module AIState.
Record t := mk {
  alertLevel : Z;
  lastKnownPlayerPosition : option Vector3;
  currentTarget : option Vector3;
  coverPosition : option Vector3;
  formationRole : option FormationRole;
  alertedBy : option string;
  engagementDistance : Q;
  lastDamageTime : Z;
  evasionCooldown : Z;
  cooperationCooldown : Z
}.
End AIState.

Module FormationGroup.
Record t := mk {
  id : string;
  leader : string;
  members : list string;
  targetPosition : Vector3;
  formationType : FormationType;
  lastUpdate : Z
}.
End FormationGroup.

(** The coordinator receives its agents as [any[]]: all it relies on is the
    methods it calls on them.  A method that mutates the agent returns the
    agent after the call. *)
Module EnemyApi.
Class EnemyLike (E : Type) := {
  getId : E → string;
  isAlive : E → bool;
  isBeingThrown : E → bool;
  getPosition : E → Vector3;
  getAIState : E → AIState.t;
  setFormationRole : FormationRole → string → E → E;
  receiveAlert : string → Vector3 → E → E
}.
End EnemyApi.

(** ** Math *)

Module Math.
Local Open Scope R_scope.

Definition atan2 (y x : R) : R :=
  if Rlt_dec 0 x then atan (y / x)
  else if Rlt_dec x 0 then
    (if Rle_dec 0 y then atan (y / x) + PI else atan (y / x) - PI)
  else if Rlt_dec 0 y then PI / 2
  else if Rlt_dec y 0 then - PI / 2
  else 0.

End Math.

(** ** AICoordinator *)

Module AICoordinator.
Import EnemyApi.

(** The singleton.  [pendingDecays] counts the callbacks handed to
    [setTimeout] by [updatePlayerThreatLevel] that have not run yet. *)
Record t := mk {
  formations : gmap string FormationGroup.t;
  alertNetwork : gmap string (gset string);
  lastFormationUpdate : Z;
  playerThreatLevel : Z;
  pendingDecays : nat
}.

(** [new AICoordinator()] *)
Definition new : t := mk ∅ ∅ 0 0 0.

Definition threatDelta (action : ThreatAction) : Z :=
  match action with
  | Kill => 15
  | Damage => 5
  | Telekinesis => 10
  | Headshot => 20
  end.

Definition updatePlayerThreatLevel (action : ThreatAction) (c : t) : t :=
  let level := playerThreatLevel c + threatDelta action in
  mk (formations c) (alertNetwork c) (lastFormationUpdate c)
     (Z.min 100 level) (S (pendingDecays c)).

(** The callback [() => { this.playerThreatLevel = Math.max(0, level - 5) }] *)
Definition decayCallback (c : t) : t :=
  mk (formations c) (alertNetwork c) (lastFormationUpdate c)
     (Z.max 0 (playerThreatLevel c - 5)) (pendingDecays c).

Definition getPlayerThreatLevel (c : t) : Z := playerThreatLevel c.

Definition cleanup (c : t) : t := mk ∅ ∅ (lastFormationUpdate c) 0 (pendingDecays c).

(** What can happen to the threat scalar between two frames. *)
Inductive ThreatEvent :=
| Call (action : ThreatAction)   (* a call of [updatePlayerThreatLevel] *)
| TimerFires                     (* the event loop runs one pending callback *)
| Cleanup.                       (* a call of [cleanup] *)

Definition threatStep (c : t) (ev : ThreatEvent) : t :=
  match ev with
  | Call action => updatePlayerThreatLevel action c
  | TimerFires =>
      match pendingDecays c with
      | O => c
      | S n =>
          decayCallback (mk (formations c) (alertNetwork c)
                            (lastFormationUpdate c) (playerThreatLevel c) n)
      end
  | Cleanup => cleanup c
  end.

(** The coordinator after each event of a run, in order. *)
Fixpoint threatTrace (c : t) (evs : list ThreatEvent) : list t :=
  match evs with
  | [] => []
  | ev :: evs' => threatStep c ev :: threatTrace (threatStep c ev) evs'
  end.

Section Agents.
Context {E : Type} `{EnemyLike E}.

Definition alertRadius : Q := 15.

Definition alertNearbyEnemies (alerterId : string) (position : Vector3)
    (enemies : list E) : list E :=
  (λ enemy,
     if bool_decide (getId enemy ≠ alerterId) && isAlive enemy then
       if THREE.distanceTo_le (getPosition enemy) position alertRadius
       then receiveAlert alerterId position enemy
       else enemy
     else enemy) <$> enemies.

(** Body of the inner [enemies.forEach(other => ...)] of [clusterEnemies] *)
Definition absorb (enemy : E) (maxDistance : Q)
    (acc : list E * gset string) (other : E) : list E * gset string :=
  let '(cluster, visited) := acc in
  if negb (bool_decide (getId other ∈ visited))
     && THREE.distanceTo_le (getPosition enemy) (getPosition other) maxDistance
  then (cluster ++ [other], visited ∪ {[ getId other ]})
  else acc.

(** Body of the outer [enemies.forEach(enemy => ...)] of [clusterEnemies] *)
Definition clusterStep (enemies : list E) (maxDistance : Q)
    (acc : list (list E) * gset string) (enemy : E)
  : list (list E) * gset string :=
  let '(clusters, visited) := acc in
  if bool_decide (getId enemy ∈ visited) then acc
  else
    let '(cluster, visited) :=
      foldl (absorb enemy maxDistance)
            ([enemy], visited ∪ {[ getId enemy ]}) enemies in
    (clusters ++ [cluster], visited).

Definition clusterEnemies (enemies : list E) (maxDistance : Q) : list (list E) :=
  (foldl (clusterStep enemies maxDistance) ([], ∅) enemies).1.

Definition selectFormationType (groupSize : nat) (playerPos : Vector3)
    (group : list E) (c : t) : FormationType :=
  let threatLevel := playerThreatLevel c in
  if bool_decide (70 < threatLevel) then Scatter
  else if bool_decide (4 ≤ groupSize)%nat then Surround
  else if bool_decide (groupSize = 3%nat) then Pincer
  else Line.

(** [group.reduce(f)] without an initial value *)
Definition reduce (f : E → E → E) (group : list E) : option E :=
  match group with
  | [] => None
  | first :: rest => Some (foldl f first rest)
  end.

Definition pickLeader (prev current : E) : E :=
  if bool_decide (AIState.alertLevel (getAIState current)
                  < AIState.alertLevel (getAIState prev))
  then prev else current.

Definition formationIdOf (index : nat) : string := "formation_" +:+ pretty index.

(** Body of [group.forEach((enemy, i) => ...)]: the member after the call
    of [setFormationRole] it receives. *)
Definition assignRole (leader : E) (formationId : string) (i : nat) (enemy : E) : E :=
  if bool_decide (getId enemy = getId leader) then
    setFormationRole Leader formationId enemy
  else if bool_decide (i < 2)%nat then
    setFormationRole Flanker formationId enemy
  else
    setFormationRole Support formationId enemy.

(** Body of [groups.forEach((group, index) => ...)].  The accumulator holds
    the coordinator and the groups handled so far, with their members as
    the pass leaves them. *)
Definition formGroup (now : Z) (playerPosition : Vector3)
    (acc : t * list (list E)) (entry : nat * list E) : t * list (list E) :=
  let '(c, handled) := acc in
  let '(index, group) := entry in
  if bool_decide (2 ≤ length group)%nat then
    let formationId := formationIdOf index in
    match reduce pickLeader group with
    | None => (c, handled ++ [group])
    | Some leader =>
        let formation :=
          FormationGroup.mk formationId (getId leader) (getId <$> group)
            playerPosition
            (selectFormationType (length group) playerPosition group c)
            now in
        (mk (<[formationId := formation]> (formations c)) (alertNetwork c)
            (lastFormationUpdate c) (playerThreatLevel c) (pendingDecays c),
         handled ++ [imap (assignRole leader formationId) group])
    end
  else (c, handled ++ [group]).

(** [updateFormations]; [now] is the value of [Date.now()] during the call.
    The second component lists the clusters of the pass, each with its
    members as the pass leaves them; it is empty when the call is throttled. *)
Definition updateFormations (now : Z) (enemies : list E)
    (playerPosition : Vector3) (c : t) : t * list (list E) :=
  if bool_decide (now - lastFormationUpdate c < 2000) then (c, [])
  else
    let c := mk ∅ (alertNetwork c) now (playerThreatLevel c) (pendingDecays c) in
    let aliveEnemies := filter (λ e, isAlive e && negb (isBeingThrown e) = true) enemies in
    let groups := clusterEnemies aliveEnemies 12 in
    foldl (formGroup now playerPosition) (c, []) (imap pair groups).

End Agents.

(** *** Formation placement (over the reals) *)

Local Open Scope R_scope.

Fixpoint indexOf (enemyId : string) (members : list string) : Z :=
  match members with
  | [] => (-1)%Z
  | m :: members' =>
      if bool_decide (m = enemyId) then 0%Z
      else
        let i := indexOf enemyId members' in
        if bool_decide (i = -1)%Z then (-1)%Z else (1 + i)%Z
  end.

Definition getSurroundPosition (enemyId : string) (formation : FormationGroup.t)
    (playerPos : THREE.Vector3 R) (distance : R) : THREE.Vector3 R :=
  let memberIndex := indexOf enemyId (FormationGroup.members formation) in
  let totalMembers := length (FormationGroup.members formation) in
  let angleStep := (PI * 2) / INR totalMembers in
  let angle := IZR memberIndex * angleStep in
  THREE.mkVector3
    (THREE.x playerPos + cos angle * distance)
    (THREE.y playerPos)
    (THREE.z playerPos + sin angle * distance).

Definition getPincerPosition (role : string) (playerPos : THREE.Vector3 R)
    (distance : R) : THREE.Vector3 R :=
  let angle := if bool_decide (role = "flanker") then PI / 3 else - PI / 3 in
  THREE.mkVector3
    (THREE.x playerPos + cos angle * distance)
    (THREE.y playerPos)
    (THREE.z playerPos + sin angle * distance).

Definition getLinePosition (role : string) (playerPos : THREE.Vector3 R)
    (baseAngle distance : R) : THREE.Vector3 R :=
  let offset := if bool_decide (role = "flanker") then PI / 6 else 0 in
  let angle := baseAngle + offset in
  THREE.mkVector3
    (THREE.x playerPos + cos angle * distance)
    (THREE.y playerPos)
    (THREE.z playerPos + sin angle * distance).

(** [random2], [random3]: the two values of [Math.random()] drawn here.
    three.js: [normalize] divides by the length (by 1 for the zero vector),
    [applyAxisAngle] about the y axis is the plane rotation of x and z. *)
Definition getScatterPosition (random2 random3 : R)
    (currentPos playerPos : THREE.Vector3 R) (distance : R) : THREE.Vector3 R :=
  let dx := THREE.x currentPos - THREE.x playerPos in
  let dy := THREE.y currentPos - THREE.y playerPos in
  let dz := THREE.z currentPos - THREE.z playerPos in
  let len := sqrt (dx * dx + dy * dy + dz * dz) in
  let len := if Req_dec_T len 0 then 1 else len in
  let randomAngle := (random2 - 1 / 2) * PI / 2 in
  let nx := dx / len in
  let ny := dy / len in
  let nz := dz / len in
  let rx := nx * cos randomAngle + nz * sin randomAngle in
  let rz := nz * cos randomAngle - nx * sin randomAngle in
  let s := distance + random3 * 5 in
  THREE.mkVector3
    (THREE.x playerPos + rx * s)
    (THREE.y playerPos + ny * s)
    (THREE.z playerPos + rz * s).

(** [random1] is the value of [Math.random()] drawn for [distance]. *)
Definition getFormationPosition (random1 random2 random3 : R)
    (enemyId role formationId : string)
    (currentPos playerPos : THREE.Vector3 R) (c : t) : THREE.Vector3 R :=
  match formations c !! formationId with
  | None => currentPos
  | Some formation =>
      let angle := Math.atan2 (THREE.z playerPos - THREE.z currentPos)
                              (THREE.x playerPos - THREE.x currentPos) in
      let distance := 8 + random1 * 4 in
      match FormationGroup.formationType formation with
      | Surround => getSurroundPosition enemyId formation playerPos distance
      | Pincer => getPincerPosition role playerPos distance
      | Line => getLinePosition role playerPos angle distance
      | Scatter => getScatterPosition random2 random3 currentPos playerPos distance
      end
  end.

End AICoordinator.

(** ** Enemy

    The fields of the class that the methods below read or write; meshes,
    projectiles and the other presentation state are left out. *)

Module Enemy.

Inductive EnemyType := normal | scout | heavy | ranged | exploder | shielded | drone.

Global Instance EnemyType_eq_dec : EqDecision EnemyType.
Proof. solve_decision. Defined.

Module Config.
Record t := mk {
  maxHealth : Q;
  speed : Q;
  size : Q;
  color : Z;
  damage : Q;
  attackRange : Q;
  explosionRadius : option Q;
  hasShield : bool;      (* absent reads as falsy *)
  canFly : bool;         (* absent reads as falsy *)
  shootRange : option Q;
  shootCooldown : option Z
}.
End Config.

Definition ENEMY_CONFIGS (type : EnemyType) : Config.t :=
  match type with
  | normal => Config.mk 120 (3 # 100) 1 0x333333 1 2 None false false None None
  | scout => Config.mk 60 (5 # 100) (7 # 10) 0x44aa44 (1 # 2) (3 # 2) None false false None None
  | heavy => Config.mk 300 (15 # 1000) (14 # 10) 0x884444 3 (5 # 2) None false false None None
  | ranged => Config.mk 80 (2 # 100) (9 # 10) 0x4444aa (3 # 2) (3 # 2) None false false (Some 15%Q) (Some 120)
  | exploder => Config.mk 90 (35 # 1000) (11 # 10) 0xaa4444 5 3 (Some 5%Q) false false None None
  | shielded => Config.mk 200 (18 # 1000) (13 # 10) 0x6666aa 2 2 None true false None None
  | drone => Config.mk 40 (4 # 100) (1 # 2) 0xaaaaaa (1 # 2) 1 None false true None None
  end.

Record t := mk {
  id : string;
  position : Vector3;
  health : Q;
  maxHealth : Q;
  type : EnemyType;
  isThrown : bool;
  throwVelocity : Vector3;
  moveTimer : Z;
  stuckCheckTimer : Z;
  lastPosition : Vector3;
  shieldActive : bool;
  flyHeight : Q;
  explosionTriggered : bool;
  aiState : AIState.t;
  formationRole : option FormationRole;
  formationId : option string;
  lastPlayerSightTime : Z
}.

(** [this.config = ENEMY_CONFIGS[type]], set once by the constructor *)
Definition config (e : t) : Config.t := ENEMY_CONFIGS (type e).

(** Field assignments *)
Definition set_position (v : Vector3) (e : t) : t :=
  mk (id e) v (health e) (maxHealth e) (type e) (isThrown e) (throwVelocity e)
     (moveTimer e) (stuckCheckTimer e) (lastPosition e) (shieldActive e)
     (flyHeight e) (explosionTriggered e) (aiState e) (formationRole e)
     (formationId e) (lastPlayerSightTime e).
Definition set_health (v : Q) (e : t) : t :=
  mk (id e) (position e) v (maxHealth e) (type e) (isThrown e) (throwVelocity e)
     (moveTimer e) (stuckCheckTimer e) (lastPosition e) (shieldActive e)
     (flyHeight e) (explosionTriggered e) (aiState e) (formationRole e)
     (formationId e) (lastPlayerSightTime e).
Definition set_isThrown (v : bool) (e : t) : t :=
  mk (id e) (position e) (health e) (maxHealth e) (type e) v (throwVelocity e)
     (moveTimer e) (stuckCheckTimer e) (lastPosition e) (shieldActive e)
     (flyHeight e) (explosionTriggered e) (aiState e) (formationRole e)
     (formationId e) (lastPlayerSightTime e).
Definition set_throwVelocity (v : Vector3) (e : t) : t :=
  mk (id e) (position e) (health e) (maxHealth e) (type e) (isThrown e) v
     (moveTimer e) (stuckCheckTimer e) (lastPosition e) (shieldActive e)
     (flyHeight e) (explosionTriggered e) (aiState e) (formationRole e)
     (formationId e) (lastPlayerSightTime e).
Definition set_moveTimer (v : Z) (e : t) : t :=
  mk (id e) (position e) (health e) (maxHealth e) (type e) (isThrown e)
     (throwVelocity e) v (stuckCheckTimer e) (lastPosition e) (shieldActive e)
     (flyHeight e) (explosionTriggered e) (aiState e) (formationRole e)
     (formationId e) (lastPlayerSightTime e).
Definition set_stuckCheckTimer (v : Z) (e : t) : t :=
  mk (id e) (position e) (health e) (maxHealth e) (type e) (isThrown e)
     (throwVelocity e) (moveTimer e) v (lastPosition e) (shieldActive e)
     (flyHeight e) (explosionTriggered e) (aiState e) (formationRole e)
     (formationId e) (lastPlayerSightTime e).
Definition set_lastPosition (v : Vector3) (e : t) : t :=
  mk (id e) (position e) (health e) (maxHealth e) (type e) (isThrown e)
     (throwVelocity e) (moveTimer e) (stuckCheckTimer e) v (shieldActive e)
     (flyHeight e) (explosionTriggered e) (aiState e) (formationRole e)
     (formationId e) (lastPlayerSightTime e).
Definition set_explosionTriggered (v : bool) (e : t) : t :=
  mk (id e) (position e) (health e) (maxHealth e) (type e) (isThrown e)
     (throwVelocity e) (moveTimer e) (stuckCheckTimer e) (lastPosition e)
     (shieldActive e) (flyHeight e) v (aiState e) (formationRole e)
     (formationId e) (lastPlayerSightTime e).
Definition set_aiState (v : AIState.t) (e : t) : t :=
  mk (id e) (position e) (health e) (maxHealth e) (type e) (isThrown e)
     (throwVelocity e) (moveTimer e) (stuckCheckTimer e) (lastPosition e)
     (shieldActive e) (flyHeight e) (explosionTriggered e) v (formationRole e)
     (formationId e) (lastPlayerSightTime e).
Definition set_formation (role : option FormationRole) (fid : option string) (e : t) : t :=
  mk (id e) (position e) (health e) (maxHealth e) (type e) (isThrown e)
     (throwVelocity e) (moveTimer e) (stuckCheckTimer e) (lastPosition e)
     (shieldActive e) (flyHeight e) (explosionTriggered e) (aiState e) role
     fid (lastPlayerSightTime e).
Definition set_lastPlayerSightTime (v : Z) (e : t) : t :=
  mk (id e) (position e) (health e) (maxHealth e) (type e) (isThrown e)
     (throwVelocity e) (moveTimer e) (stuckCheckTimer e) (lastPosition e)
     (shieldActive e) (flyHeight e) (explosionTriggered e) (aiState e)
     (formationRole e) (formationId e) v.

Definition getId (e : t) : string := id e.

Definition getAIState (e : t) : AIState.t := aiState e.

Definition setFormationRole (role : FormationRole) (formationId : string) (e : t) : t :=
  let s := aiState e in
  set_aiState
    (AIState.mk (AIState.alertLevel s) (AIState.lastKnownPlayerPosition s)
       (AIState.currentTarget s) (AIState.coverPosition s) (Some role)
       (AIState.alertedBy s) (AIState.engagementDistance s)
       (AIState.lastDamageTime s) (AIState.evasionCooldown s)
       (AIState.cooperationCooldown s))
    (set_formation (Some role) (Some formationId) e).

Definition receiveAlert (alerterId : string) (playerPosition : Vector3) (e : t) : t :=
  let s := aiState e in
  set_moveTimer 0
    (set_aiState
       (AIState.mk (Z.min 100 (AIState.alertLevel s + 30)) (Some playerPosition)
          (AIState.currentTarget s) (AIState.coverPosition s)
          (AIState.formationRole s) (Some alerterId)
          (AIState.engagementDistance s) (AIState.lastDamageTime s)
          (AIState.evasionCooldown s) (AIState.cooperationCooldown s))
       e).

Definition getPosition (e : t) : Vector3 := position e.

(** [this.health > 0] *)
Definition isAlive (e : t) : bool := negb (Qle_bool (health e) 0).

Definition isBeingThrown (e : t) : bool := isThrown e.

Global Instance enemyLike : EnemyApi.EnemyLike t :=
  EnemyApi.Build_EnemyLike t getId isAlive isBeingThrown getPosition getAIState
    setFormationRole receiveAlert.

(** [updateAwareness]; [hasLineOfSight] is the value of
    [this.canSeePlayer(playerPosition, level)], [now] that of [Date.now()].
    The second component is the array handed to [alertNearbyEnemies], as the
    coordinator leaves it. *)
Definition updateAwareness (playerPosition : Vector3) (hasLineOfSight : bool)
    (now : Z) (e : t) : t * list t :=
  if hasLineOfSight && THREE.distanceTo_lt (position e) playerPosition 20 then
    let s := aiState e in
    let alertLevel := Z.min 100 (AIState.alertLevel s + 5) in
    let e :=
      set_aiState
        (AIState.mk alertLevel (Some playerPosition)
           (AIState.currentTarget s) (AIState.coverPosition s)
           (AIState.formationRole s) (AIState.alertedBy s)
           (AIState.engagementDistance s) (AIState.lastDamageTime s)
           (AIState.evasionCooldown s) (AIState.cooperationCooldown s))
        (set_lastPlayerSightTime now e) in
    if bool_decide (50 < alertLevel) then
      (e, AICoordinator.alertNearbyEnemies (id e) playerPosition [])
    else (e, [])
  else
    let timeSinceLastSight := now - lastPlayerSightTime e in
    if bool_decide (3000 < timeSinceLastSight) then
      let s := aiState e in
      (set_aiState
         (AIState.mk (Z.max 0 (AIState.alertLevel s - 2))
            (AIState.lastKnownPlayerPosition s)
            (AIState.currentTarget s) (AIState.coverPosition s)
            (AIState.formationRole s) (AIState.alertedBy s)
            (AIState.engagementDistance s) (AIState.lastDamageTime s)
            (AIState.evasionCooldown s) (AIState.cooperationCooldown s))
         e, [])
    else (e, []).

Definition explode (e : t) : t :=
  if explosionTriggered e then e
  else set_health 0 (set_explosionTriggered true e).

Definition Qmax (a b : Q) : Q := if Qle_bool a b then b else a.
Definition Qmin (a b : Q) : Q := if Qle_bool a b then a else b.

(** [takeDamage(amount, fromFront)] on the enemy and the coordinator
    singleton; [now] is the value of [Date.now()]. *)
Definition takeDamage (amount : Q) (fromFront : bool) (now : Z)
    (st : t * AICoordinator.t) : t * AICoordinator.t :=
  let '(e, c) := st in
  let s := aiState e in
  let e :=
    set_aiState
      (AIState.mk (Z.min 100 (AIState.alertLevel s + 25))
         (AIState.lastKnownPlayerPosition s)
         (AIState.currentTarget s) (AIState.coverPosition s)
         (AIState.formationRole s) (AIState.alertedBy s)
         (AIState.engagementDistance s) now
         (AIState.evasionCooldown s) (AIState.cooperationCooldown s))
      e in
  let alerted := AICoordinator.alertNearbyEnemies (id e) (position e) (@nil t) in
  let c := AICoordinator.updatePlayerThreatLevel Damage c in
  let amount :=
    if Config.hasShield (config e) && shieldActive e && fromFront
    then (amount * (2 # 10))%Q else amount in
  let e := set_health (Qmax 0 (health e - amount)) e in
  let e :=
    if bool_decide (type e = exploder)
       && Qle_bool (health e) (maxHealth e * (3 # 10))
       && negb (explosionTriggered e)
    then explode e else e in
  let s := aiState e in
  let e :=
    set_aiState
      (AIState.mk (AIState.alertLevel s) (AIState.lastKnownPlayerPosition s)
         (AIState.currentTarget s) None
         (AIState.formationRole s) (AIState.alertedBy s)
         (AIState.engagementDistance s) (AIState.lastDamageTime s)
         (AIState.evasionCooldown s) (AIState.cooperationCooldown s))
      e in
  (e, c).

Section Physics.
(** The values of [(Math.cos(angle), Math.sin(angle))] along the loop
    [for (angle = 0; angle < Math.PI * 2; angle += Math.PI / 8)], and the two
    values of [Math.random()] of the fallback. *)
Variable ring : list (Q * Q).
Variables random1 random2 : Q.

Definition restingHeight (e : t) : Q :=
  if Config.canFly (config e) then flyHeight e else (1 # 10)%Q.

Definition findSafeLandingPosition (level : option Level.t) (e : t) : t :=
  match level ≫= Level.checkCollision with
  | None => e
  | Some check =>
      let enemyRadius := (Config.size (config e) * (6 # 10))%Q in
      let enemyHeight := (Config.size (config e) * (16 # 10))%Q in
      let candidates :=
        radius ← [1; 2; 3; 4; 5]%Q;
        '(c, s) ← ring;
        [THREE.mkVector3 (THREE.x (position e) + c * radius)%Q
                         (restingHeight e)
                         (THREE.z (position e) + s * radius)%Q] in
      match list_find (λ p, check p enemyRadius enemyHeight = false) candidates with
      | Some (_, testPosition) => set_position testPosition e
      | None =>
          let x := ((random1 - (1 # 2)) * 20)%Q in
          let z := ((random2 - (1 # 2)) * 20)%Q in
          set_position
            (THREE.mkVector3 (Qmax (-24) (Qmin 24 x)) (restingHeight e)
                             (Qmax (-24) (Qmin 24 z)))
            e
      end
  end.

Definition collides (level : option Level.t) (e : t) : bool :=
  match level ≫= Level.checkCollision with
  | None => false
  | Some check =>
      check (position e) (Config.size (config e) * (6 # 10))%Q
            (Config.size (config e) * (16 # 10))%Q
  end.

(** First part of [handleThrowPhysics]: the move and the stuck check.
    [inl] is the early [return] of the stuck branch. *)
Definition throwMove (level : option Level.t) (e : t) : t + t :=
  let e := set_position (THREE.add (position e) (throwVelocity e)) e in
  let v := THREE.multiplyScalar (throwVelocity e) (95 # 100) in
  let e := set_throwVelocity
             (THREE.mkVector3 (THREE.x v) (THREE.y v - (1 # 100))%Q (THREE.z v)) e in
  let e := set_stuckCheckTimer (stuckCheckTimer e + 1) e in
  if bool_decide (60 < stuckCheckTimer e) then
    if THREE.distanceTo_lt (position e) (lastPosition e) (1 # 10)
       && negb (Qle_bool ((5 # 100) * (5 # 100)) (THREE.lengthSq (throwVelocity e)))
    then
      let e := set_isThrown false e in
      let e := set_throwVelocity (THREE.mkVector3 0 0 0)%Q e in
      let p := position e in
      let e := set_position (THREE.mkVector3 (THREE.x p) (restingHeight e) (THREE.z p)) e in
      let e := findSafeLandingPosition level e in
      inl (set_stuckCheckTimer 0 e)
    else inr (set_stuckCheckTimer 0 (set_lastPosition (position e) e))
  else inr e.

Definition groundLevel : Q := 1 # 10.

(** The test [this.position.y <= groundLevel] as [handleThrowPhysics]
    reaches it: after the move and after the collision rollback. *)
Definition afterCollision (level : option Level.t) (oldPosition : Vector3) (e : t) : t :=
  if collides level e
  then findSafeLandingPosition level (set_position oldPosition e)
  else e.

Definition handleThrowPhysics (level : option Level.t) (now : Z)
    (st : t * AICoordinator.t) : t * AICoordinator.t :=
  let '(e, c) := st in
  let oldPosition := position e in
  match throwMove level e with
  | inl e => (e, c)
  | inr e =>
      let e := afterCollision level oldPosition e in
      if Qle_bool (THREE.y (position e)) groundLevel then
        let p := position e in
        let e := set_position (THREE.mkVector3 (THREE.x p) groundLevel (THREE.z p)) e in
        let e := set_isThrown false e in
        let e := set_throwVelocity (THREE.mkVector3 0 0 0)%Q e in
        let e := set_stuckCheckTimer 0 e in
        let e := if collides level e then findSafeLandingPosition level e else e in
        takeDamage 30 true now (e, c)
      else (e, c)
  end.

End Physics.

End Enemy.

(** ** Enemy, the explosion of an exploder

    [getExplosionDamage] takes a square root and a floor: it is stated over
    the reals. *)

Module Explosion.

Definition distanceTo (a b : Vector3) : R :=
  sqrt (Q2R (THREE.distanceToSquared a b)).

Definition getExplosionDamage (playerPosition : Vector3) (e : Enemy.t) : Z :=
  if negb (bool_decide (Enemy.type e = Enemy.exploder))
     || negb (Enemy.explosionTriggered e)
  then 0
  else
    let distance := distanceTo (Enemy.position e) playerPosition in
    match Enemy.Config.explosionRadius (Enemy.config e) with
    | Some radius =>
        if Rlt_dec (Q2R radius) distance then 0
        else
          let damageRatio := (1 - distance / Q2R radius)%R in
          Int_part (50 * damageRatio)
    | None => 0  (* [explosionRadius!]: every exploder has a radius *)
    end.

(** The end of [updateExploderBehavior]; [close] is the value of
    [distance < this.config.explosionRadius!]. *)
Definition explodeWhenClose (close : bool) (e : Enemy.t) : Enemy.t :=
  if (close || Qle_bool (Enemy.health e) 0) && negb (Enemy.explosionTriggered e)
  then Enemy.explode e
  else e.

End Explosion.

(** ** Game.checkCollisions (src/game/Game.ts)

    The branches of the collision pass that call into an enemy and into the
    coordinator. *)

Module Game.

(** [isPlayerBehindEnemy]: the dot product with the forward vector (0, 0, 1)
    is the z component of the normalised vector from the enemy to the
    player; [normalize] divides by a positive length (by 1 for the zero
    vector), which keeps the sign. *)
Definition isPlayerBehindEnemy (enemy : Enemy.t) (playerPosition : Vector3) : bool :=
  negb (Qle_bool 0 (THREE.z playerPosition - THREE.z (Enemy.getPosition enemy))).

(** [// Check lightsaber attack] for one enemy of the loop.  The third
    component tells whether the enemy was spliced out of [this.enemies]. *)
Definition lightsaberAttack (isAttacking : bool) (playerPosition : Vector3)
    (now : Z) (st : Enemy.t * AICoordinator.t) : Enemy.t * AICoordinator.t * bool :=
  let '(enemy, c) := st in
  if isAttacking && Enemy.isAlive enemy then
    if THREE.distanceTo_lt (Enemy.getPosition enemy) playerPosition 3 then
      let isBehind := isPlayerBehindEnemy enemy playerPosition in
      let c := AICoordinator.updatePlayerThreatLevel Damage c in
      let '(enemy, c) := Enemy.takeDamage 35 (negb isBehind) now (enemy, c) in
      if negb (Enemy.isAlive enemy) then
        (enemy, AICoordinator.updatePlayerThreatLevel Kill c, true)
      else (enemy, c, false)
    else (enemy, c, false)
  else (enemy, c, false).

(** [// Check thrown enemy collisions]: the body of the inner loop for a
    thrown [enemy] and another object [otherEnemy] of the array.  The last
    component tells whether [otherEnemy] was spliced out. *)
Definition thrownHit (now : Z) (st : Enemy.t * Enemy.t * AICoordinator.t)
  : Enemy.t * Enemy.t * AICoordinator.t * bool :=
  let '(enemy, otherEnemy, c) := st in
  if Enemy.isAlive otherEnemy then
    if THREE.distanceTo_lt (Enemy.getPosition enemy) (Enemy.getPosition otherEnemy) 2
    then
      let '(otherEnemy, c) := Enemy.takeDamage 75 true now (otherEnemy, c) in
      let '(enemy, c) := Enemy.takeDamage 25 true now (enemy, c) in
      if negb (Enemy.isAlive otherEnemy) then
        (enemy, otherEnemy, AICoordinator.updatePlayerThreatLevel Kill c, true)
      else (enemy, otherEnemy, c, false)
    else (enemy, otherEnemy, c, false)
  else (enemy, otherEnemy, c, false).

(** [// Check explosion damage]: the amount handed to [player.takeDamage],
    0 when the player is not hurt. *)
Definition explosionDamageToPlayer (playerPosition : Vector3) (enemy : Enemy.t) : Z :=
  if Enemy.isAlive enemy && negb (Enemy.isBeingThrown enemy) then
    let explosionDamage := Explosion.getExplosionDamage playerPosition enemy in
    if bool_decide (0 < explosionDamage) then explosionDamage else 0
  else 0.

(** The calls that reach the health and the flags of an enemy during a
    game, each with the value of [Date.now()] at the call. *)
Inductive EnemyCall :=
| TakeDamage (amount : Q) (fromFront : bool)
| ExplodeWhenClose (close : bool)
| ReceiveAlert (alerterId : string) (playerPosition : Vector3)
| SetFormationRole (role : FormationRole) (formationId : string)
| UpdateAwareness (playerPosition : Vector3) (hasLineOfSight : bool)
| HandleThrowPhysics (ring : list (Q * Q)) (random1 random2 : Q)
    (level : option Level.t).

Definition run (st : Enemy.t * AICoordinator.t) (call : Z * EnemyCall)
  : Enemy.t * AICoordinator.t :=
  let '(now, call) := call in
  match call with
  | TakeDamage amount fromFront => Enemy.takeDamage amount fromFront now st
  | ExplodeWhenClose close => (Explosion.explodeWhenClose close st.1, st.2)
  | ReceiveAlert alerterId playerPosition =>
      (Enemy.receiveAlert alerterId playerPosition st.1, st.2)
  | SetFormationRole role formationId =>
      (Enemy.setFormationRole role formationId st.1, st.2)
  | UpdateAwareness playerPosition hasLineOfSight =>
      ((Enemy.updateAwareness playerPosition hasLineOfSight now st.1).1, st.2)
  | HandleThrowPhysics ring random1 random2 level =>
      Enemy.handleThrowPhysics ring random1 random2 level now st
  end.

End Game.

(** ** THREE.Box3 *)

Module Box3.

Record t := mk { min : Vector3; max : Vector3 }.

Definition addScalar (v : Vector3) (s : Q) : Vector3 :=
  THREE.mkVector3 (THREE.x v + s)%Q (THREE.y v + s)%Q (THREE.z v + s)%Q.

Definition setFromCenterAndSize (center size : Vector3) : t :=
  let halfSize := THREE.multiplyScalar size (1 # 2) in
  mk (THREE.sub center halfSize) (THREE.add center halfSize).

Definition expandByScalar (scalar : Q) (b : t) : t :=
  mk (addScalar (min b) (- scalar)) (addScalar (max b) scalar).

Definition intersectsBox (this box : t) : bool :=
  Qle_bool (THREE.x (min this)) (THREE.x (max box))
  && Qle_bool (THREE.x (min box)) (THREE.x (max this))
  && Qle_bool (THREE.y (min this)) (THREE.y (max box))
  && Qle_bool (THREE.y (min box)) (THREE.y (max this))
  && Qle_bool (THREE.z (min this)) (THREE.z (max box))
  && Qle_bool (THREE.z (min box)) (THREE.z (max this)).

End Box3.

(** ** Level (src/game/Level.ts)

    The collidable meshes of the arena are boxes and upright cylinders, none
    of them rotated: [Box3.setFromObject] of such a mesh is the box of the
    size of its geometry around its position. *)

Module Arena.

Record Mesh := mkMesh { size : Vector3; position : Vector3 }.

Definition setFromObject (mesh : Mesh) : Box3.t :=
  Box3.setFromCenterAndSize (position mesh) (size mesh).

Record t := mk { collidableMeshes : list Mesh }.

Definition arenaSize : Q := 50.

Definition checkCollision (level : t) (position : Vector3) (radius height : Q) : bool :=
  let boundary := (arenaSize / 2 - 1)%Q in
  if negb (Qle_bool (Qabs (THREE.x position)) boundary)
     || negb (Qle_bool (Qabs (THREE.z position)) boundary)
  then true
  else
    let collisionBox :=
      Box3.setFromCenterAndSize
        (THREE.mkVector3 (THREE.x position) (THREE.y position + height / 2)%Q
           (THREE.z position))
        (THREE.mkVector3 (radius * 2)%Q height (radius * 2)%Q) in
    existsb (λ mesh,
               let meshBox := Box3.expandByScalar (2 # 10) (setFromObject mesh) in
               Box3.intersectsBox collisionBox meshBox)
            (collidableMeshes level).

(** [createSimpleArena]: the four boundary walls. *)
Definition wallHeight : Q := 5.
Definition wallThickness : Q := 2.

Definition walls : list Mesh :=
  let halfSize := (arenaSize / 2)%Q in
  let wallOffset := (wallThickness / 2)%Q in
  [ mkMesh (THREE.mkVector3 (arenaSize + wallThickness * 2)%Q wallHeight wallThickness)
           (THREE.mkVector3 0%Q (wallHeight / 2)%Q (halfSize + wallOffset)%Q);
    mkMesh (THREE.mkVector3 (arenaSize + wallThickness * 2)%Q wallHeight wallThickness)
           (THREE.mkVector3 0%Q (wallHeight / 2)%Q (- halfSize - wallOffset)%Q);
    mkMesh (THREE.mkVector3 wallThickness wallHeight arenaSize)
           (THREE.mkVector3 (halfSize + wallOffset)%Q (wallHeight / 2)%Q 0%Q);
    mkMesh (THREE.mkVector3 wallThickness wallHeight arenaSize)
           (THREE.mkVector3 (- halfSize - wallOffset)%Q (wallHeight / 2)%Q 0%Q) ].

(** [createPlatforms] *)
Definition createPlatforms (platforms : list (Q * Q * Q)) : list Mesh :=
  (λ '(x, z, size),
     mkMesh (THREE.mkVector3 size (1 # 2)%Q size)
            (THREE.mkVector3 x (1 # 4)%Q z)) <$> platforms.

Definition platforms : list Mesh :=
  createPlatforms
    [ (15, 15, 4); (-15, -15, 4); (15, -15, 3); (-15, 15, 3); (0, 18, 3);
      (0, -18, 3) ]%Q.

(** [createSimpleArena]; [obstacles] are the cylinders of [createObstacles],
    each given by the box around it (its position has irrational
    coordinates). *)
Definition createSimpleArena (obstacles : list Mesh) : t :=
  mk (walls ++ platforms ++ obstacles).

(** The level as the enemies and the path finder receive it. *)
Definition level (a : t) : Level.t := Level.mk (Some (checkCollision a)).

End Arena.

(** ** Enemy, player tracking and path following

    The fields these two methods use besides those of [Enemy.t]. *)

Module Steering.

Record t := mk {
  lastPlayerPositions : list Vector3;
  predictedPlayerPosition : Vector3;
  pathWaypoints : list Vector3;
  currentWaypointIndex : Z;
  lastPathUpdate : Z
}.

(** The field initialisers of the class. *)
Definition initial : t := mk [] (THREE.mkVector3 0 0 0)%Q [] 0 0.

Definition updatePlayerTracking (playerPosition : Vector3) (s : t) : completion t :=
  let history := lastPlayerPositions s ++ [playerPosition] in
  let history :=
    if bool_decide (5 < length history)%nat then tail history else history in
  if bool_decide (2 ≤ length history)%nat then
    recent ← propertyOf history (Z.of_nat (length history) - 1);
    prev ← propertyOf history (Z.of_nat (length history) - 2);
    let velocity := THREE.sub recent prev in
    Return (mk history (THREE.add recent (THREE.multiplyScalar velocity 3))
               (pathWaypoints s) (currentWaypointIndex s) (lastPathUpdate s))
  else
    Return (mk history playerPosition
               (pathWaypoints s) (currentWaypointIndex s) (lastPathUpdate s)).

Definition set_currentTarget (v : option Vector3) (e : Enemy.t) : Enemy.t :=
  let s := Enemy.aiState e in
  Enemy.set_aiState
    (AIState.mk (AIState.alertLevel s) (AIState.lastKnownPlayerPosition s)
       v (AIState.coverPosition s) (AIState.formationRole s)
       (AIState.alertedBy s) (AIState.engagementDistance s)
       (AIState.lastDamageTime s) (AIState.evasionCooldown s)
       (AIState.cooperationCooldown s))
    e.

(** [updatePathfinding]; [grid] is the static grid of [PathFinder],
    [currentTime] the value of [Date.now()].  The first component of the
    result is the point returned. *)
Definition updatePathfinding (fuel : nat) (grid : option PathFinder.Grid)
    (currentTime : Z) (targetPosition : Vector3) (st : Enemy.t * t)
  : completion (Vector3 * (Enemy.t * t)) :=
  let '(e, s) := st in
  refreshed ←
    (if bool_decide (2000 < currentTime - lastPathUpdate s)
        || match AIState.currentTarget (Enemy.aiState e) with
           | None => true
           | Some currentTarget =>
               negb (THREE.distanceTo_le currentTarget targetPosition 3)
           end
     then
       path ← PathFinder.findPath fuel grid (Enemy.position e) targetPosition;
       Return (set_currentTarget (Some targetPosition) e,
               mk (lastPlayerPositions s) (predictedPlayerPosition s)
                  path 0 currentTime)
     else Return (e, s));
  let '(e, s) := refreshed in
  if bool_decide (currentWaypointIndex s < Z.of_nat (length (pathWaypoints s))) then
    currentWaypoint ← propertyOf (pathWaypoints s) (currentWaypointIndex s);
    let s :=
      if THREE.distanceTo_lt (Enemy.position e) currentWaypoint (3 # 2)
      then mk (lastPlayerPositions s) (predictedPlayerPosition s)
              (pathWaypoints s) (currentWaypointIndex s + 1) (lastPathUpdate s)
      else s in
    Return (currentWaypoint, (e, s))
  else Return (targetPosition, (e, s)).

End Steering.

(** ** PriorityQueue (src/game/Level.ts)

    The binary heap of the path finder of that file.  [bubbleUp] loops and
    [bubbleDown] calls itself: both take a bound on the number of rounds. *)

Module PriorityQueue.

Record entry (T : Type) : Type := mkEntry { element : T; priority : Z }.
Arguments mkEntry {T} element priority.
Arguments element {T} e.
Arguments priority {T} e.

(** [this.heap] *)
Abbreviation t T := (list (entry T)).

(** A property read on a value that may be [undefined] *)
Definition defined {A} (v : option A) : completion A :=
  match v with
  | Some a => Return a
  | None => Throw "TypeError"
  end.

Section Queue.
Context {T : Type}.

(** [[this.heap[a], this.heap[b]] = [this.heap[b], this.heap[a]]], for the
    indexes within the array that the class calls it with. *)
Definition swap (a b : nat) (heap : t T) : t T :=
  match heap !! a, heap !! b with
  | Some x, Some y => <[b := x]> (<[a := y]> heap)
  | _, _ => heap
  end.

Definition isEmpty (heap : t T) : bool := bool_decide (length heap = 0%nat).

(** The [while (index > 0)] loop of [bubbleUp]; [element] is
    [this.heap[index]] as read before the loop. *)
Fixpoint bubbleUpLoop (fuel : nat) (element : option (entry T)) (index : nat)
    (heap : t T) : completion (t T) :=
  match fuel with
  | O => OutOfFuel
  | S fuel' =>
      if bool_decide (0 < index)%nat then
        let parentIndex := ((index - 1) / 2)%nat in
        let parent := heap !! parentIndex in
        element' ← defined element;
        parent' ← defined parent;
        if bool_decide (priority parent' ≤ priority element') then Return heap
        else bubbleUpLoop fuel' element parentIndex (swap index parentIndex heap)
      else Return heap
  end.

Definition bubbleUp (fuel : nat) (index : nat) (heap : t T) : completion (t T) :=
  bubbleUpLoop fuel (heap !! index) index heap.

Fixpoint bubbleDown (fuel : nat) (index : nat) (heap : t T) : completion (t T) :=
  match fuel with
  | O => OutOfFuel
  | S fuel' =>
      let left := (2 * index + 1)%nat in
      let right := (2 * index + 2)%nat in
      smallest ←
        (if bool_decide (left < length heap)%nat then
           l ← defined (heap !! left);
           s ← defined (heap !! index);
           Return (if bool_decide (priority l < priority s) then left else index)
         else Return index);
      smallest ←
        (if bool_decide (right < length heap)%nat then
           r ← defined (heap !! right);
           s ← defined (heap !! smallest);
           Return (if bool_decide (priority r < priority s) then right else smallest)
         else Return smallest);
      if bool_decide (smallest ≠ index) then
        bubbleDown fuel' smallest (swap index smallest heap)
      else Return heap
  end.

Definition enqueue (fuel : nat) (element : T) (priority : Z) (heap : t T)
  : completion (t T) :=
  let heap := heap ++ [mkEntry element priority] in
  bubbleUp fuel (length heap - 1) heap.

(** The result is the value returned and the heap left. *)
Definition dequeue (fuel : nat) (heap : t T) : completion (option T * t T) :=
  if isEmpty heap then Return (None, heap)
  else
    let heap := swap 0 (length heap - 1) heap in
    let item := last heap in
    let heap := removelast heap in
    heap ← bubbleDown fuel 0 heap;
    Return (element <$> item, heap).

End Queue.

End PriorityQueue.

(** ** The alert level as an enemy object holds it

    The constructor of [Enemy] builds [aiState] with the fields [behavior],
    [lastKnownPlayerPosition], [currentTarget], [coverPosition],
    [formationRole], [alertedBy], [engagementDistance], [lastDamageTime],
    [evasionCooldown] and [cooperationCooldown]: [alertLevel] is not among
    them and reads [undefined] until a method assigns it.  The numbers the
    expressions on the field can take from there are the integers and
    [NaN]. *)

Module AlertLevel.

Inductive number := NaN | Num (n : Z).

(** The content of the field; [None] is [undefined]. *)
Definition field := option number.

(** [ToNumber(undefined)] is [NaN] *)
Definition toNumber (v : field) : number := default NaN v.

Definition plus (a : number) (k : Z) : number :=
  match a with NaN => NaN | Num n => Num (n + k) end.

(** [Math.min(k, a)] and [Math.max(k, a)] *)
Definition min (k : Z) (a : number) : number :=
  match a with NaN => NaN | Num n => Num (Z.min k n) end.
Definition max (k : Z) (a : number) : number :=
  match a with NaN => NaN | Num n => Num (Z.max k n) end.

(** [a > b] *)
Definition gt (a b : number) : bool :=
  match a, b with
  | Num m, Num n => bool_decide (n < m)
  | _, _ => false
  end.

(** [this.aiState = { behavior: 'idle', ... }] *)
Definition constructed : field := None.

(** The assignments to the field, by the method that makes them. *)
Inductive Assignment :=
| ReceiveAlert       (* Math.min(100, alertLevel + 30) *)
| PlayerSeen         (* Math.min(100, alertLevel + 5), updateAwareness *)
| PlayerLost         (* Math.max(0, alertLevel - 2), updateAwareness *)
| TakeDamage.        (* Math.min(100, alertLevel + 25) *)

Definition assign (v : field) (a : Assignment) : field :=
  match a with
  | ReceiveAlert => Some (min 100 (plus (toNumber v) 30))
  | PlayerSeen => Some (min 100 (plus (toNumber v) 5))
  | PlayerLost => Some (max 0 (plus (toNumber v) (-2)))
  | TakeDamage => Some (min 100 (plus (toNumber v) 25))
  end.

(** [this.aiState.alertLevel > 50], the test before [alertNearbyEnemies] in
    [updateAwareness] *)
Definition spreadsAlert (v : field) : bool := gt (toNumber v) (Num 50).

(** [group.reduce((prev, current) =>
       prev.getAIState().alertLevel > current.getAIState().alertLevel
         ? prev : current)] on the members given by id and field *)
Definition pickLeader (prev current : string * field) : string * field :=
  if gt (toNumber prev.2) (toNumber current.2) then prev else current.

Definition leader (group : list (string * field)) : option (string * field) :=
  match group with
  | [] => None
  | first :: rest => Some (foldl pickLeader first rest)
  end.

End AlertLevel.

(** ** Definitions used by the statements *)

(** A cell is in bounds and not marked obstructed. *)
Definition validCell (grid : PathFinder.Grid) (c : PathFinder.cell) : bool :=
  bool_decide (0 ≤ c.1 < Z.of_nat (length grid))
  && bool_decide (0 ≤ c.2 < Z.of_nat (length (default [] (grid !! 0%nat))))
  && negb (default false (default [] (grid !! Z.to_nat c.1) !! Z.to_nat c.2)).

(** A world point with rational coordinates. *)
Definition worldPoint (x y z : Q) : Vector3 := THREE.mkVector3 x y z.

(** The grid [initializeGrid] builds when nothing collides. *)
Definition openGrid : PathFinder.Grid := replicate 50 (replicate 50 false).

(** A level with a wall covering every point whose x is at least 3, and the
    grid [initializeGrid] builds for it. *)
Definition walledLevel : Level.t :=
  Level.mk (Some (λ point radius height, Qle_bool 3 (THREE.x point))).

Definition walledGrid : PathFinder.Grid :=
  default [] (PathFinder.initializeGrid (Some walledLevel) None).

(** Each cell of a list is one of the four neighbours of the cell before it. *)
Definition stepwise (cells : list PathFinder.cell) : Prop :=
  ∀ (i : nat) a b, cells !! i = Some a → cells !! S i = Some b →
    b ∈ PathFinder.neighbors a.

(** Invariant of the search loop, for a start cell [s]: every cell that is
    open or recorded as a predecessor is the start cell or has a
    predecessor itself, and a recorded predecessor is one step away from
    its cell. *)
Definition rooted (s c : PathFinder.cell) (m : gmap PathFinder.cell PathFinder.cell) : Prop :=
  c = s ∨ is_Some (m !! c).

Definition linked (s : PathFinder.cell) (m : gmap PathFinder.cell PathFinder.cell) : Prop :=
  ∀ k v, m !! k = Some v → rooted s v m ∧ k ∈ PathFinder.neighbors v.

Definition searchInv (s : PathFinder.cell) (st : PathFinder.SearchState) : Prop :=
  (∀ n, n ∈ PathFinder.openSet st → rooted s n (PathFinder.cameFrom st))
  ∧ linked s (PathFinder.cameFrom st).

(** As long as the start cell [s] has no predecessor, its score is still 0
    and every open cell is [s] or a cell reached from [s]. *)
Definition startFresh (s : PathFinder.cell) (st : PathFinder.SearchState) : Prop :=
  PathFinder.cameFrom st !! s = None →
  PathFinder.gScore st !! s = Some 0
  ∧ ∀ n, n ∈ PathFinder.openSet st →
      n = s ∨ PathFinder.cameFrom st !! n = Some s.

(** The waypoints as the specification words them: the centre of each cell
    of the grid path, the start cell left out. *)
Definition cellCenter (c : PathFinder.cell) : Vector3 :=
  THREE.mkVector3 (inject_Z c.1 - 25 + (1 # 2))%Q 1%Q (inject_Z c.2 - 25 + (1 # 2))%Q.

Definition specWaypoints (cells : list PathFinder.cell) : list Vector3 :=
  map cellCenter (tail cells).

(** *** Clusters and formations of a pass *)

Section PassDefinitions.
Import EnemyApi.
Context {E : Type} {enemyApi : EnemyLike E}.

Definition idsOf (l : list E) : list string := getId <$> l.

Definition alertOf (e : E) : Z := AIState.alertLevel (getAIState e).

(** The clusters [updateFormations] works on. *)
Definition passClusters (enemies : list E) : list (list E) :=
  AICoordinator.clusterEnemies
    (filter (λ e, isAlive e && negb (isBeingThrown e) = true) enemies) 12.

(** Invariant of [clusterEnemies]: no id occurs twice in the clusters built
    so far, and every id in them has been visited. *)
Definition clusterInv (acc : list (list E) * gset string) : Prop :=
  NoDup (idsOf (concat acc.1)) ∧ ∀ x, x ∈ idsOf (concat acc.1) → x ∈ acc.2.

(** The record [updateFormations] stores for the cluster at [index]. *)
Definition formationOf (now : Z) (playerPosition : Vector3) (c : AICoordinator.t)
    (index : nat) (group : list E) (leader : E) : FormationGroup.t :=
  FormationGroup.mk (AICoordinator.formationIdOf index) (getId leader)
    (idsOf group) playerPosition
    (AICoordinator.selectFormationType (length group) playerPosition group c)
    now.

(** The role [assignRole] hands to the member at index [i]. *)
Definition roleOf (leader : E) (i : nat) (enemy : E) : FormationRole :=
  if bool_decide (getId enemy = getId leader) then Leader
  else if bool_decide (i < 2)%nat then Flanker
  else Support.

End PassDefinitions.

(** The roles as the specification words them: the leader, then the first
    two members other than the leader as flankers, the rest as support.
    [seen] counts the members other than the leader met so far. *)
Fixpoint specRolesFrom (seen : nat) (leaderId : string) (ids : list string)
  : list FormationRole :=
  match ids with
  | [] => []
  | i :: ids' =>
      if bool_decide (i = leaderId) then Leader :: specRolesFrom seen leaderId ids'
      else (if bool_decide (seen < 2)%nat then Flanker else Support)
           :: specRolesFrom (S seen) leaderId ids'
  end.

Definition specRoles (leaderId : string) (ids : list string) : list FormationRole :=
  specRolesFrom 0 leaderId ids.

(** *** Sample inputs *)

(** A ground enemy of type [normal] at full health (difficulty 1). *)
Definition sampleEnemy (id : string) (position : Vector3) (alertLevel : Z) : Enemy.t :=
  Enemy.mk id position 140 140 Enemy.normal false (worldPoint 0 0 0) 0 0
    (worldPoint 0 0 0) true 0 false
    (AIState.mk alertLevel None None None None None 4 0 0 0)
    None None 0.

(** Three enemies one unit apart, the first one the most alert, and a
    fourth one far away. *)
Definition sampleSquad : list Enemy.t :=
  [ sampleEnemy "enemy_a" (worldPoint 0 0 0) 90;
    sampleEnemy "enemy_b" (worldPoint 1 0 0) 10;
    sampleEnemy "enemy_c" (worldPoint 2 0 0) 10;
    sampleEnemy "enemy_d" (worldPoint 20 0 20) 0 ].

(** An enemy in flight, about to reach the ground. *)
Definition thrownEnemy : Enemy.t :=
  Enemy.mk "enemy_t" (worldPoint 0 (15 # 100) 0) 140 140 Enemy.normal true
    (worldPoint (1 # 10) (- (1 # 10)) 0) 0 0 (worldPoint 0 0 0) true 0 false
    (AIState.mk 0 None None None None None 4 0 0 0)
    None None 0.

(** A coordinator holding one surround formation of five members. *)
Definition surroundOfFive : AICoordinator.t :=
  AICoordinator.mk
    {[ "formation_0" :=
         FormationGroup.mk "formation_0" "enemy_a"
           ["enemy_a"; "enemy_b"; "enemy_c"; "enemy_d"; "enemy_e"]
           (worldPoint 0 0 0) Surround 5000 ]}
    ∅ 5000 0 0.

(** *** Grids *)

(** The mark of a cell, [grid[x][z]] (an absent entry reads as unmarked). *)
Definition obstructed (grid : PathFinder.Grid) (c : PathFinder.cell) : bool :=
  default false (default [] (grid !! Z.to_nat c.1) !! Z.to_nat c.2).


(** Invariant of the first iteration of the search, which expands the start
    cell [s] towards [e]: [s] keeps score 0 and no predecessor, every scored
    cell other than [s] is open, and every open cell is a neighbour of [s]
    reached from [s] with estimate 1 + its distance to [e]. *)
Definition startExpanded (s e : PathFinder.cell) (st : PathFinder.SearchState) : Prop :=
  PathFinder.gScore st !! s = Some 0
  ∧ PathFinder.cameFrom st !! s = None
  ∧ (∀ n, n ≠ s → is_Some (PathFinder.gScore st !! n) → n ∈ PathFinder.openSet st)
  ∧ ∀ n, n ∈ PathFinder.openSet st →
      n ∈ PathFinder.neighbors s
      ∧ PathFinder.cameFrom st !! n = Some s
      ∧ PathFinder.fScore st !! n = Some (1 + PathFinder.heuristic n e).

(** *** Clusters *)

Section ClusterDefinitions.
Import EnemyApi.
Context {E : Type} {enemyApi : EnemyLike E}.

(** A cluster starts with its seed; every other member is one of [enemies]
    and stands within [d] of the seed. *)
Definition seeded (enemies : list E) (d : Q) (cluster : list E) : Prop :=
  ∃ seed rest,
    cluster = seed :: rest
    ∧ seed ∈ enemies
    ∧ ∀ m, m ∈ rest →
        m ∈ enemies
        ∧ THREE.distanceTo_le (getPosition seed) (getPosition m) d = true.

(** Invariant of [clusterEnemies]: the visited set holds exactly the ids of
    the clusters built so far, and every cluster is seeded. *)
Definition clusterCover (enemies : list E) (d : Q)
    (acc : list (list E) * gset string) : Prop :=
  acc.2 = list_to_set (idsOf (concat acc.1))
  ∧ ∀ cluster, cluster ∈ acc.1 → seeded enemies d cluster.

(** An update of an agent that leaves alone what clustering reads. *)
Definition keepsPlace (f : E → E) : Prop :=
  ∀ e, getId (f e) = getId e
       ∧ getPosition (f e) = getPosition e
       ∧ isAlive (f e) = isAlive e
       ∧ isBeingThrown (f e) = isBeingThrown e.

End ClusterDefinitions.

(** *** Health and explosions *)

(** Once the explosion has been triggered the enemy is not alive. *)
Definition explodedDead (e : Enemy.t) : Prop :=
  Enemy.explosionTriggered e = true → Enemy.isAlive e = false.

(** No call takes a negative amount of health. *)
Definition hurts (call : Z * Game.EnemyCall) : Prop :=
  match call.2 with
  | Game.TakeDamage amount _ => (0 <= amount)%Q
  | _ => True
  end.

(** The amount [takeDamage] takes off the health. *)
Definition damageTaken (amount : Q) (fromFront : bool) (e : Enemy.t) : Q :=
  if Enemy.Config.hasShield (Enemy.config e) && Enemy.shieldActive e && fromFront
  then (amount * (2 # 10))%Q else amount.

(** An exploder one point above the health at which it blows up
    (difficulty 1: 110 points, of which 30% are 33). *)
Definition sampleExploder : Enemy.t :=
  Enemy.mk "enemy_x" (worldPoint 0 (1 # 10) 0) 34 110 Enemy.exploder false
    (worldPoint 0 0 0) 0 0 (worldPoint 0 0 0) true 0 false
    (AIState.mk 0 None None None None None 6 0 0 0)
    None None 0.

(** A shielded enemy at full health (difficulty 1). *)
Definition sampleShielded : Enemy.t :=
  Enemy.mk "enemy_s" (worldPoint 0 (1 # 10) 0) 220 220 Enemy.shielded false
    (worldPoint 0 0 0) 0 0 (worldPoint 0 0 0) true 0 false
    (AIState.mk 0 None None None None None 4 0 0 0)
    None None 0.

(** Two states of an enemy that differ at most in the fields of its motion:
    position, throw velocity, thrown flag, stuck timer and last position. *)
Definition sameBody (e e' : Enemy.t) : Prop :=
  Enemy.id e' = Enemy.id e
  ∧ Enemy.type e' = Enemy.type e
  ∧ Enemy.health e' = Enemy.health e
  ∧ Enemy.maxHealth e' = Enemy.maxHealth e
  ∧ Enemy.shieldActive e' = Enemy.shieldActive e
  ∧ Enemy.flyHeight e' = Enemy.flyHeight e
  ∧ Enemy.explosionTriggered e' = Enemy.explosionTriggered e
  ∧ Enemy.aiState e' = Enemy.aiState e
  ∧ Enemy.moveTimer e' = Enemy.moveTimer e.

(** The positions [findSafeLandingPosition] tries, in the order of the scan:
    ring after ring, from radius 1 to radius 5. *)
Definition landingCandidates (ring : list (Q * Q)) (e : Enemy.t) : list Vector3 :=
  radius ← [1; 2; 3; 4; 5]%Q;
  '(c, s) ← ring;
  [THREE.mkVector3 (THREE.x (Enemy.position e) + c * radius)%Q
                   (Enemy.restingHeight e)
                   (THREE.z (Enemy.position e) + s * radius)%Q].

(** The box of an enemy handed to [checkCollision]. *)
Definition enemyRadius (e : Enemy.t) : Q := (Enemy.Config.size (Enemy.config e) * (6 # 10))%Q.
Definition enemyHeight (e : Enemy.t) : Q := (Enemy.Config.size (Enemy.config e) * (16 # 10))%Q.

(** A level where everything collides. *)
Definition solidLevel : Level.t := Level.mk (Some (λ point radius height, true)).

(** *** Formation placement *)

(** The value of [this.formationRole] that [Enemy.update] hands to
    [getFormationPosition]. *)
Definition roleName (role : FormationRole) : string :=
  match role with
  | Leader => "leader"
  | Flanker => "flanker"
  | Support => "support"
  | Lone => "lone"
  end.

(** A coordinator holding one formation of the given type and members. *)
Definition oneFormation (type : FormationType) (members : list string)
  : AICoordinator.t :=
  AICoordinator.mk
    {[ "formation_0" :=
         FormationGroup.mk "formation_0" (default "" (head members)) members
           (worldPoint 0 0 0) type 5000 ]}
    ∅ 5000 0 0.

(** Squared distance of two points of the real space. *)
Definition distSq (a b : THREE.Vector3 R) : R :=
  ((THREE.x a - THREE.x b) * (THREE.x a - THREE.x b)
   + (THREE.y a - THREE.y b) * (THREE.y a - THREE.y b)
   + (THREE.z a - THREE.z b) * (THREE.z a - THREE.z b))%R.

(** *** The arena *)

(** A point passes the bounds test of [checkCollision]. *)
Definition inArena (p : Vector3) : Prop :=
  (-24 <= THREE.x p <= 24)%Q ∧ (-24 <= THREE.z p <= 24)%Q.

(** A mesh that ends, with the margin of 0.2, below the height 1 at which
    [initializeGrid] samples the level. *)
Definition lowMesh (mesh : Arena.Mesh) : Prop :=
  (THREE.y (Arena.position mesh) + THREE.y (Arena.size mesh) * (1 # 2) + (2 # 10) < 1)%Q.

(** *** Heaps *)

Section HeapDefinitions.
Context {T : Type}.

(** The priority stored at an index. *)
Definition priorityAt (heap : PriorityQueue.t T) (i : nat) : option Z :=
  PriorityQueue.priority <$> heap !! i.

(** The entry at [i] is not below the entry at its parent index. *)
Definition parentBelow (heap : PriorityQueue.t T) (i : nat) : Prop :=
  ∀ p q, priorityAt heap i = Some p →
         priorityAt heap ((i - 1) / 2)%nat = Some q → q ≤ p.

(** The heap order: no entry is below its parent. *)
Definition heapOrdered (heap : PriorityQueue.t T) : Prop :=
  ∀ i, (0 < i)%nat → parentBelow heap i.

(** The entries at the children of [i] are not below the entry at the
    parent of [i]. *)
Definition grandparentBelow (heap : PriorityQueue.t T) (i : nat) : Prop :=
  (0 < i)%nat →
  ∀ c p q, (0 < c)%nat → ((c - 1) / 2)%nat = i →
           priorityAt heap c = Some p →
           priorityAt heap ((i - 1) / 2)%nat = Some q → q ≤ p.

(** The heap order but for the entry at [i], which may be below its parent. *)
Definition orderedButUp (heap : PriorityQueue.t T) (i : nat) : Prop :=
  (∀ j, (0 < j)%nat → j ≠ i → parentBelow heap j) ∧ grandparentBelow heap i.

(** The heap order but for the entry at [i], which may be above its
    children. *)
Definition orderedButDown (heap : PriorityQueue.t T) (i : nat) : Prop :=
  (∀ j, (0 < j)%nat → ((j - 1) / 2)%nat ≠ i → parentBelow heap j)
  ∧ grandparentBelow heap i.

End HeapDefinitions.

(** A heap of three cells with their scores. *)
Definition sampleHeap : PriorityQueue.t PathFinder.cell :=
  [ PriorityQueue.mkEntry (25, 25) 1;
    PriorityQueue.mkEntry (26, 25) 3;
    PriorityQueue.mkEntry (25, 26) 2 ].

(** ** The path finder *)

Section PathFinderFacts.
Import PathFinder.

Lemma propertyOf_lookup {A} (a : list A) (i : Z) (v : A) :
  0 ≤ i → a !! Z.to_nat i = Some v → propertyOf a i = Return v.
Proof.
  intros Hi Hv. unfold propertyOf.
  rewrite bool_decide_eq_true_2 by done. by rewrite Hv.
Qed.

(** The bound checks of [isValidCell] guard every index it reads. *)
Lemma isValidCell_validCell (grid : Grid) (x z : Z) :
  isValidCell (Some grid) x z = Return (validCell grid (x, z)).
Proof.
  unfold isValidCell, validCell; simpl.
  destruct (bool_decide_reflect (0 ≤ x)) as [Hx0|Hx0]; simpl;
    [|rewrite bool_decide_eq_false_2 by lia; done].
  destruct (bool_decide_reflect (x < Z.of_nat (length grid))) as [Hx1|Hx1]; simpl;
    [|rewrite bool_decide_eq_false_2 by lia; done].
  rewrite (bool_decide_eq_true_2 (0 ≤ x < _)) by lia; simpl.
  destruct (bool_decide_reflect (0 ≤ z)) as [Hz0|Hz0]; simpl;
    [|rewrite bool_decide_eq_false_2 by lia; done].
  destruct (lookup_lt_is_Some_2 grid 0%nat) as [row0 Hrow0]; [lia|].
  destruct (lookup_lt_is_Some_2 grid (Z.to_nat x)) as [rowx Hrowx]; [lia|].
  rewrite (propertyOf_lookup grid 0 row0) by done.
  rewrite Hrow0, Hrowx; simpl.
  destruct (bool_decide_reflect (z < Z.of_nat (length row0))) as [Hz1|Hz1]; simpl.
  - rewrite bool_decide_eq_true_2 by lia.
    by rewrite (propertyOf_lookup grid x rowx).
  - rewrite bool_decide_eq_false_2 by lia. done.
Qed.

Lemma isValidCell_cell (grid : Grid) (c : cell) :
  isValidCell (Some grid) c.1 c.2 = Return (validCell grid c).
Proof. destruct c as [x z]. apply isValidCell_validCell. Qed.

Lemma isValidCell_returns (grid : option Grid) (x z : Z) :
  ∃ b, isValidCell grid x z = Return b.
Proof.
  destruct grid as [g|]; [|by exists false].
  eexists. apply isValidCell_validCell.
Qed.

Lemma relax_returns grid end_ current st neighbor :
  ∃ st', relax grid end_ current st neighbor = Return st'.
Proof.
  unfold relax. destruct (isValidCell_returns grid neighbor.1 neighbor.2) as [b ->].
  simpl. destruct b; simpl; [|by eexists].
  destruct (ltScore _ _); by eexists.
Qed.

Lemma forOf_returns {S A} (body : S → A → completion S) xs st :
  (∀ st x, ∃ st', body st x = Return st') →
  ∃ st', forOf body xs st = Return st'.
Proof.
  intros Hbody. revert st. induction xs as [|x xs IH]; intros st; simpl.
  - by eexists.
  - destruct (Hbody st x) as [st' ->]. apply IH.
Qed.

(** An invariant of the loop body carries over the whole [for] loop. *)
Lemma forOf_invariant {S A} (I : S → Prop) (body : S → A → completion S) xs st st' :
  (∀ st x st', x ∈ xs → I st → body st x = Return st' → I st') →
  I st → forOf body xs st = Return st' → I st'.
Proof.
  revert st. induction xs as [|x xs IH]; intros st Hbody HI; simpl.
  - by intros [= <-].
  - destruct (body st x) as [st1| |] eqn:Hb; try done.
    apply IH.
    + intros ? ? ? ?. apply Hbody. by right.
    + eapply Hbody; [by left|done|done].
Qed.

Lemma search_no_throw fuel grid end_ st e :
  search fuel grid end_ st ≠ Throw e.
Proof.
  revert st. induction fuel as [|fuel IH]; intros st; cbn [search]; [done|].
  destruct (sort _ _) as [|current rest]; [done|].
  case_bool_decide; [done|].
  destruct (forOf_returns (relax grid end_ current) (neighbors current)
              (mkSearchState rest (cameFrom st) (gScore st) (fScore st)))
    as [st' ->]; [intros; apply relax_returns|].
  case_bool_decide; [done|]. apply IH.
Qed.

Lemma reconstruct_no_throw fuel m curr path e :
  reconstruct fuel m curr path ≠ Throw e.
Proof.
  revert curr path. induction fuel as [|fuel IH]; intros curr path; simpl; [done|].
  destruct (m !! curr); [apply IH|done].
Qed.

Lemma aStar_no_throw fuel grid start end_ e :
  aStar fuel grid start end_ ≠ Throw e.
Proof.
  unfold aStar.
  destruct (search fuel grid end_ (initialState start end_)) as [[m|]| |] eqn:Hs;
    simpl; try done.
  - apply reconstruct_no_throw.
  - by apply search_no_throw in Hs.
Qed.

(** [findPath] on an initialised grid, without the [try]. *)
Lemma findPath_initialised fuel (g : Grid) start end_ :
  findPath fuel (Some g) start end_ =
    if validCell g (worldToGrid start) && validCell g (worldToGrid end_)
    then path ← aStar fuel (Some g) (worldToGrid start) (worldToGrid end_);
         Return (map gridToWorld path)
    else Return [end_].
Proof.
  unfold findPath.
  rewrite !isValidCell_cell. cbn [tryCatch mbind completion_bind negb].
  destruct (validCell g (worldToGrid start)); simpl; [|done].
  destruct (validCell g (worldToGrid end_)); simpl; [|done].
  destruct (aStar fuel (Some g) _ _) as [p|e|] eqn:Ha; simpl; try done.
  by apply aStar_no_throw in Ha.
Qed.

(** The cap: when an iteration leaves more than 200 open cells, the search
    is abandoned. *)
Lemma search_cap (fuel : nat) (grid : option Grid) (end_ current : cell)
    (rest : list cell) (st st' : SearchState) :
  sort (λ a b, compareScore (orInfinity (fScore st !! a))
                            (orInfinity (fScore st !! b)))
       (openSet st) = current :: rest →
  current ≠ end_ →
  forOf (relax grid end_ current) (neighbors current)
    (mkSearchState rest (cameFrom st) (gScore st) (fScore st)) = Return st' →
  200 < Z.of_nat (length (openSet st')) →
  search (S fuel) grid end_ st = Return None.
Proof.
  intros Hsort Hne Hfor Hcap. cbn [search]. rewrite Hsort.
  rewrite bool_decide_eq_false_2 by done. rewrite Hfor.
  by rewrite bool_decide_eq_true_2.
Qed.

(** An abandoned search makes [findPath] return one waypoint, the end cell. *)
Lemma findPath_abandoned (fuel : nat) (g : Grid) (start end_ : Vector3) :
  validCell g (worldToGrid start) = true →
  validCell g (worldToGrid end_) = true →
  search fuel (Some g) (worldToGrid end_)
    (initialState (worldToGrid start) (worldToGrid end_)) = Return None →
  findPath fuel (Some g) start end_ = Return [gridToWorld (worldToGrid end_)].
Proof.
  intros Hs He Hsearch. rewrite findPath_initialised, Hs, He; simpl.
  unfold aStar. by rewrite Hsearch.
Qed.

(** C1.  With no grid, [findPath] returns exactly [[end]]; with a grid on
    which the start cell or the end cell is not valid (out of bounds or
    obstructed) it returns [[end]] as well; and no call of [findPath]
    completes with an exception.  The variant of Level.ts returns [[end]]
    on every input. *)
Theorem findPath_fallback (fuel : nat) (start end_ : Vector3) :
  findPath fuel None start end_ = Return [end_]
  ∧ (∀ g : Grid,
       validCell g (worldToGrid start) = false
       ∨ validCell g (worldToGrid end_) = false →
       findPath fuel (Some g) start end_ = Return [end_])
  ∧ (∀ (grid : option Grid) (e : string),
       findPath fuel grid start end_ ≠ Throw e)
  ∧ (∀ grid : option Grid,
       LevelPathFinder.findPath grid start end_ = Return [end_]).
Proof.
  split; [done|]. split; [|split; [|by intros [g|]; destruct end_]].
  - intros g Hinv. rewrite findPath_initialised.
    destruct Hinv as [-> | ->]; [done|].
    by rewrite andb_false_r.
  - intros [g|] e; [|done].
    rewrite findPath_initialised.
    destruct (_ && _); [|done].
    destruct (aStar fuel (Some g) _ _) as [p|e'|] eqn:Ha; simpl; try done.
    by apply aStar_no_throw in Ha.
Qed.

End PathFinderFacts.

Section Fallback.
Import PathFinder.

Lemma initializeGrid_open :
  initializeGrid (Some (Level.mk None)) None = Some openGrid.
Proof. vm_compute. reflexivity. Qed.

Lemma initializeGrid_no_level (grid : option Grid) :
  initializeGrid None grid = grid.
Proof. done. Qed.

Lemma findPath_fallback_witness :
  findPath 5 (Some walledGrid) (worldPoint 0 0 0) (worldPoint 3 0 1)
  = Return [worldPoint 3 0 1].
Proof.
  apply (findPath_fallback 5 (worldPoint 0 0 0) (worldPoint 3 0 1)).
  right. vm_compute. reflexivity.
Defined.

End Fallback.

Section Waypoints.
Import PathFinder.

Lemma insertSorted_perm {A} (cmp : A → A → comparison) (a : A) (l : list A) :
  insertSorted cmp a l ≡ₚ a :: l.
Proof.
  induction l as [|b l IH]; simpl; [done|].
  destruct (cmp a b); try done.
  rewrite IH. apply Permutation_swap.
Qed.

Lemma sort_perm {A} (cmp : A → A → comparison) (l : list A) : sort cmp l ≡ₚ l.
Proof.
  induction l as [|a l IH]; simpl; [done|].
  unfold sort in *. simpl. by rewrite insertSorted_perm, IH.
Qed.

Variable grid : option Grid.
Variables s e : cell.

Local Abbreviation rooted := (rooted s).
Local Abbreviation linked := (linked s).
Local Abbreviation searchInv := (searchInv s).

Lemma rooted_insert c k v m : rooted c m → rooted c (<[k := v]> m).
Proof.
  intros [->|Hc]; [by left|]. right.
  destruct (decide (k = c)) as [->|Hne].
  - rewrite lookup_insert_eq. by eexists.
  - by rewrite lookup_insert_ne.
Qed.

Lemma relax_inv current st neighbor st' :
  neighbor ∈ neighbors current →
  searchInv st ∧ rooted current (cameFrom st) →
  relax grid e current st neighbor = Return st' →
  searchInv st' ∧ rooted current (cameFrom st').
Proof.
  intros Hnb [[Hopen Hlink] Hcur]. unfold relax.
  destruct (isValidCell_returns grid neighbor.1 neighbor.2) as [b ->]; simpl.
  destruct b; simpl; [|by intros [= <-]].
  destruct (ltScore _ _); [|by intros [= <-]].
  intros [= <-]; simpl. split; [split|].
  - intros n Hn. case_bool_decide.
    + by apply rooted_insert, Hopen.
    + apply elem_of_app in Hn as [Hn|Hn]; [by apply rooted_insert, Hopen|].
      apply list_elem_of_singleton in Hn as ->. right. simpl.
      rewrite lookup_insert_eq. by eexists.
  - intros k v Hkv. simpl in Hkv. destruct (decide (neighbor = k)) as [->|Hne].
    + rewrite lookup_insert_eq in Hkv. injection Hkv as <-.
      split; [by apply rooted_insert|done].
    + rewrite lookup_insert_ne in Hkv by done.
      destruct (Hlink k v Hkv) as [Hv Hk]. split; [by apply rooted_insert|done].
  - by apply rooted_insert.
Qed.

Lemma search_inv fuel st m :
  searchInv st → search fuel grid e st = Return (Some m) →
  linked m ∧ rooted e m.
Proof.
  revert st. induction fuel as [|fuel IH]; intros st [Hopen Hlink]; cbn [search]; [done|].
  destruct (sort _ (openSet st)) as [|current rest] eqn:Hsort; [done|].
  assert (Hperm : current :: rest ≡ₚ openSet st)
    by (rewrite <- Hsort; apply sort_perm).
  assert (Hcur : rooted current (cameFrom st)).
  { apply Hopen. rewrite <- Hperm. by left. }
  case_bool_decide as Hend.
  - intros [= <-]. by subst.
  - destruct (forOf _ _ _) as [st'| |] eqn:Hfor; try done.
    case_bool_decide; [done|]. apply IH.
    eapply (forOf_invariant (λ st, searchInv st ∧ rooted current (cameFrom st)))
      in Hfor as [Hinv _]; [done| |].
    + intros st1 x st2 Hx HI Hrel. by eapply relax_inv.
    + split; [split|]; simpl; [|done|done].
      intros n Hn. apply Hopen. rewrite <- Hperm. by right.
Qed.

Lemma stepwise_cons (prev curr : cell) (path : list cell) :
  curr ∈ neighbors prev → stepwise (curr :: path) → stepwise (prev :: curr :: path).
Proof.
  intros Hnb Hpath [|i] a b Ha Hb; simpl in *.
  - by injection Ha as <-; injection Hb as <-.
  - by apply (Hpath i).
Qed.

Lemma reconstruct_chain (m : gmap cell cell) :
  linked m →
  ∀ fuel curr path cells,
    rooted curr m → stepwise (curr :: path) →
    reconstruct fuel m curr (curr :: path) = Return cells →
    head cells = Some s ∧ stepwise cells ∧ ∃ pre, cells = pre ++ curr :: path.
Proof.
  intros Hlink fuel. induction fuel as [|fuel IH]; intros curr path cells Hcur Hstep;
    simpl; [done|].
  destruct (m !! curr) as [prev|] eqn:Hprev.
  - intros Hrec. destruct (Hlink curr prev Hprev) as [Hroot Hnb].
    apply IH in Hrec as (Hhead & Hsteps & pre & ->);
      [|done|by apply stepwise_cons].
    split; [done|]. split; [done|].
    exists (pre ++ [prev]). by rewrite <- app_assoc.
  - intros [= <-]. destruct Hcur as [->|[? Hsome]]; [|congruence].
    split; [done|]. split; [done|]. by exists [].
Qed.

Lemma stepwise_singleton (c : cell) : stepwise [c].
Proof. intros [|i] a b Ha Hb; simpl in *; [done|done]. Qed.

Lemma initialState_inv : searchInv (initialState s e).
Proof.
  split; simpl.
  - intros n Hn. apply list_elem_of_singleton in Hn as ->. by left.
  - intros k v Hkv. by rewrite lookup_empty in Hkv.
Qed.

Lemma aStar_found (fuel : nat) (m : gmap cell cell) (cells : list cell) :
  search fuel grid e (initialState s e) = Return (Some m) →
  aStar fuel grid s e = Return cells →
  head cells = Some s ∧ last cells = Some e ∧ stepwise cells.
Proof.
  intros Hsearch. unfold aStar. rewrite Hsearch; simpl. intros Hrec.
  destruct (search_inv _ _ _ initialState_inv Hsearch) as [Hlink Hroot].
  apply (reconstruct_chain m Hlink) in Hrec as (Hhead & Hstep & pre & ->);
    [|done|apply stepwise_singleton].
  split; [done|]. split; [|done]. by rewrite last_snoc.
Qed.

End Waypoints.

Section WaypointsClaim.
Import PathFinder.

Lemma gridToWorld_coordinates (c : cell) :
  (THREE.x (gridToWorld c) == inject_Z c.1 - 25)%Q
  ∧ THREE.y (gridToWorld c) = 1%Q
  ∧ (THREE.z (gridToWorld c) == inject_Z c.2 - 25)%Q.
Proof.
  unfold gridToWorld; simpl.
  change (inject_Z (arenaSize `div` gridSize)) with 50%Q.
  change (inject_Z gridSize) with 1%Q.
  split; [field|]. split; [done|field].
Qed.

(** C4, as the code has it.  When the search reaches the end cell and
    [findPath] returns, the waypoints are the cells of the path walked back
    from the end cell, each converted by [gridToWorld]: the first one is the
    start cell, which is kept, the last one is the end cell, every cell is one
    step away from the cell before it, and cell (x, z) is converted to the
    point (x - 25, 1, z - 25) that [initializeGrid] samples for it. *)
Theorem findPath_waypoints (fuel : nat) (g : Grid) (start end_ : Vector3)
    (m : gmap cell cell) (ws : list Vector3) :
  validCell g (worldToGrid start) = true →
  validCell g (worldToGrid end_) = true →
  search fuel (Some g) (worldToGrid end_)
    (initialState (worldToGrid start) (worldToGrid end_)) = Return (Some m) →
  findPath fuel (Some g) start end_ = Return ws →
  ∃ cells : list cell,
    ws = map gridToWorld cells
    ∧ head cells = Some (worldToGrid start)
    ∧ last cells = Some (worldToGrid end_)
    ∧ stepwise cells
    ∧ ∀ c : cell,
        (THREE.x (gridToWorld c) == inject_Z c.1 - 25)%Q
        ∧ THREE.y (gridToWorld c) = 1%Q
        ∧ (THREE.z (gridToWorld c) == inject_Z c.2 - 25)%Q.
Proof.
  intros Hs He Hsearch. rewrite findPath_initialised, Hs, He; simpl.
  destruct (aStar fuel (Some g) _ _) as [cells| |] eqn:Ha; simpl; try done.
  intros [= <-]. exists cells.
  destruct (aStar_found _ _ _ _ _ _ Hsearch Ha) as (Hhead & Hlast & Hstep).
  repeat split; try done; apply gridToWorld_coordinates.
Qed.

Lemma findPath_waypoints_witness :
  ∃ cells : list cell,
    [gridToWorld (25, 25); gridToWorld (26, 25)] = map gridToWorld cells
    ∧ head cells = Some (worldToGrid (worldPoint 0 0 0))
    ∧ last cells = Some (worldToGrid (worldPoint 1 0 0))
    ∧ stepwise cells
    ∧ ∀ c : cell,
        (THREE.x (gridToWorld c) == inject_Z c.1 - 25)%Q
        ∧ THREE.y (gridToWorld c) = 1%Q
        ∧ (THREE.z (gridToWorld c) == inject_Z c.2 - 25)%Q.
Proof.
  eapply (findPath_waypoints 3 openGrid (worldPoint 0 0 0) (worldPoint 1 0 0));
    vm_compute; reflexivity.
Defined.

(** C4, as the specification words it, fails one cell to the east of the
    start: the search succeeds with the cell path (25, 25), (26, 25), and
    [findPath] returns two waypoints, the first of which is the start cell,
    where the specification has the single centre of the end cell.  The
    point returned for the end cell, (1, 1, 0), lies in that cell, half a
    unit off its centre (3/2, 1, 1/2) on both axes. *)
Lemma findPath_returns_start_cell :
  aStar 3 (Some openGrid) (25, 25) (26, 25) = Return [(25, 25); (26, 25)]
  ∧ findPath 3 (Some openGrid) (worldPoint 0 0 0) (worldPoint 1 0 0)
    = Return [gridToWorld (25, 25); gridToWorld (26, 25)]
  ∧ [gridToWorld (25, 25); gridToWorld (26, 25)]
    ≠ specWaypoints [(25, 25); (26, 25)]
  ∧ worldToGrid (gridToWorld (26, 25)) = (26, 25)
  ∧ worldToGrid (cellCenter (26, 25)) = (26, 25)
  ∧ Qeq (THREE.x (gridToWorld (26, 25))) 1
  ∧ Qeq (THREE.x (cellCenter (26, 25))) (3 # 2)
  ∧ Qeq (THREE.z (gridToWorld (26, 25))) 0
  ∧ Qeq (THREE.z (cellCenter (26, 25))) (1 # 2).
Proof.
  split; [vm_compute; reflexivity|]. split; [vm_compute; reflexivity|].
  split; [unfold specWaypoints; simpl; intros [=]|].
  repeat split; reflexivity.
Qed.

End WaypointsClaim.

(** ** Paths of more than one step *)

Section FoundPath.
Import PathFinder.
Variable g : Grid.
Variables s e : cell.
Hypothesis valid_start : validCell g s = true.

Lemma neighbors_sym (a b : cell) : a ∈ neighbors b → b ∈ neighbors a.
Proof.
  destruct a as [ax az], b as [bx bz]. unfold neighbors; simpl.
  rewrite !elem_of_cons, !elem_of_nil.
  intros [[= -> ->]|[[= -> ->]|[[= -> ->]|[[= -> ->]|[]]]]].
  - right; left. f_equal; lia.
  - left. f_equal; lia.
  - do 3 right; left. f_equal; lia.
  - do 2 right; left. f_equal; lia.
Qed.

Lemma neighbors_ne (a b : cell) : a ∈ neighbors b → a ≠ b.
Proof.
  destruct a as [ax az], b as [bx bz]. unfold neighbors; simpl.
  rewrite !elem_of_cons, !elem_of_nil.
  intros [[= -> ->]|[[= -> ->]|[[= -> ->]|[[= -> ->]|[]]]]] [=]; lia.
Qed.

Lemma neighbors_heuristic (a b : cell) : a ∈ neighbors b → heuristic b a = 1.
Proof.
  destruct a as [ax az], b as [bx bz]. unfold neighbors, heuristic; simpl.
  rewrite !elem_of_cons, !elem_of_nil.
  intros [[= -> ->]|[[= -> ->]|[[= -> ->]|[[= -> ->]|[]]]]]; lia.
Qed.

(** Relaxing the start cell while its score is still 0 records a
    predecessor for it. *)
Lemma relax_start (current : cell) (st : SearchState) :
  gScore st !! s = Some 0 →
  ∃ st', relax (Some g) e current st s = Return st'
         ∧ cameFrom st' !! s = Some current.
Proof.
  intros Hzero. unfold relax. rewrite isValidCell_cell, valid_start; simpl.
  rewrite Hzero; simpl. eexists. split; [done|]. simpl.
  by rewrite lookup_insert_eq.
Qed.

Lemma relax_cameFrom_mono (current x c : cell) (st st' : SearchState) :
  relax (Some g) e current st x = Return st' →
  is_Some (cameFrom st !! c) → is_Some (cameFrom st' !! c).
Proof.
  unfold relax. destruct (isValidCell_returns (Some g) x.1 x.2) as [b ->]; simpl.
  destruct b; simpl; [|by intros [= <-]].
  destruct (ltScore _ _); [|by intros [= <-]].
  intros [= <-] Hc; simpl.
  destruct (decide (x = c)) as [->|Hne].
  - rewrite lookup_insert_eq. by eexists.
  - by rewrite lookup_insert_ne.
Qed.

Lemma relax_other (current x : cell) (st st' : SearchState) :
  x ≠ s → relax (Some g) e current st x = Return st' →
  gScore st' !! s = gScore st !! s ∧ cameFrom st' !! s = cameFrom st !! s.
Proof.
  intros Hne. unfold relax.
  destruct (isValidCell_returns (Some g) x.1 x.2) as [b ->]; simpl.
  destruct b; simpl; [|by intros [= <-]].
  destruct (ltScore _ _); [|by intros [= <-]].
  intros [= <-]; simpl. by rewrite !lookup_insert_ne.
Qed.

(** Expanding a cell next to the start gives the start a predecessor. *)
Lemma forOf_sets_start (current : cell) (xs : list cell) (st st' : SearchState) :
  is_Some (cameFrom st !! s) ∨ (s ∈ xs ∧ gScore st !! s = Some 0) →
  forOf (relax (Some g) e current) xs st = Return st' →
  is_Some (cameFrom st' !! s).
Proof.
  revert st. induction xs as [|x xs IH]; intros st Hst; simpl.
  - intros [= <-]. destruct Hst as [?|[Hin _]]; [done|].
    by apply elem_of_nil in Hin.
  - destruct (relax (Some g) e current st x) as [st1| |] eqn:Hrelax; try done.
    apply IH. destruct Hst as [Hsome|[Hin Hzero]].
    + left. by eapply relax_cameFrom_mono.
    + destruct (decide (x = s)) as [->|Hne].
      * destruct (relax_start current st Hzero) as (st2 & Hst2 & Hcf).
        rewrite Hrelax in Hst2. injection Hst2 as <-. left. by eexists.
      * destruct (relax_other current x st st1 Hne Hrelax) as [Hg Hcf].
        destruct (cameFrom st1 !! s) eqn:Hs1; [left; by eexists|].
        right. split; [|congruence].
        apply elem_of_cons in Hin as [?|?]; [congruence|done].
Qed.

(** Expanding the start itself keeps it without predecessor, and every
    cell it opens is reached from it. *)
Lemma relax_from_start (x : cell) (st st' : SearchState) :
  x ≠ s →
  gScore st !! s = Some 0
    ∧ (∀ n, n ∈ openSet st → n = s ∨ cameFrom st !! n = Some s) →
  relax (Some g) e s st x = Return st' →
  gScore st' !! s = Some 0
    ∧ (∀ n, n ∈ openSet st' → n = s ∨ cameFrom st' !! n = Some s).
Proof.
  intros Hne [Hzero Hopen]. unfold relax.
  destruct (isValidCell_returns (Some g) x.1 x.2) as [b ->]; simpl.
  destruct b; simpl; [|by intros [= <-]].
  destruct (ltScore _ _); [|by intros [= <-]].
  intros [= <-]; simpl. split; [by rewrite lookup_insert_ne|].
  intros n Hn.
  destruct (decide (x = n)) as [->|Hxn]; [right; by rewrite lookup_insert_eq|].
  rewrite lookup_insert_ne by done. apply Hopen.
  case_bool_decide; [done|].
  apply elem_of_app in Hn as [?|Hn]; [done|].
  apply list_elem_of_singleton in Hn. congruence.
Qed.

Lemma search_start_fresh (fuel : nat) (st : SearchState) (m : gmap cell cell) :
  searchInv s st → startFresh s st →
  search fuel (Some g) e st = Return (Some m) →
  m !! s = None → e = s ∨ m !! e = Some s.
Proof.
  revert st. induction fuel as [|fuel IH]; intros st Hinv Hfresh; cbn [search]; [done|].
  destruct (sort _ (openSet st)) as [|current rest] eqn:Hsort; [done|].
  assert (Hperm : current :: rest ≡ₚ openSet st)
    by (rewrite <- Hsort; apply sort_perm).
  assert (Hcur : current ∈ openSet st) by (rewrite <- Hperm; by left).
  assert (Hrest : ∀ n, n ∈ rest → n ∈ openSet st)
    by (intros n Hn; rewrite <- Hperm; by right).
  case_bool_decide as Hend.
  - intros [= <-] Hnone. subst current.
    destruct (Hfresh Hnone) as [_ Hopen]. by apply Hopen.
  - destruct (forOf _ _ _) as [st'| |] eqn:Hfor; try done.
    case_bool_decide; [done|]. apply IH.
    + destruct Hinv as [Hopen Hlink].
      eapply (forOf_invariant
                (λ st, searchInv s st ∧ rooted s current (cameFrom st)))
        in Hfor as [Hinv' _]; [done| |].
      * intros st1 x st2 Hx HI Hrel. by eapply relax_inv.
      * split; [split|]; simpl; [|done|by apply Hopen].
        intros n Hn. by apply Hopen, Hrest.
    + destruct (cameFrom st !! s) as [p|] eqn:Hstart.
      { intros Hnone. eapply forOf_sets_start in Hfor as [? Hsome].
        - congruence.
        - left. simpl. rewrite Hstart. by eexists. }
      destruct (Hfresh Hstart) as [Hzero Hopen].
      destruct (Hopen current Hcur) as [->|Hfrom].
      * intros _.
        eapply (forOf_invariant
                  (λ st, gScore st !! s = Some 0
                         ∧ ∀ n, n ∈ openSet st → n = s ∨ cameFrom st !! n = Some s))
          in Hfor; [done| |].
        -- intros st1 x st2 Hx HI Hrel.
           eapply relax_from_start; [|done|done]. by apply neighbors_ne.
        -- simpl. split; [done|]. intros n Hn. by apply Hopen, Hrest.
      * intros Hnone. eapply forOf_sets_start in Hfor as [? Hsome].
        -- congruence.
        -- right. simpl. split; [|done].
           apply neighbors_sym. destruct Hinv as [_ Hlink].
           by destruct (Hlink current s Hfrom).
Qed.

Lemma initialState_fresh : startFresh s (initialState s e).
Proof.
  intros _. simpl. split; [by rewrite lookup_singleton_eq|].
  intros n Hn. apply list_elem_of_singleton in Hn. by left.
Qed.

(** When every recorded predecessor has a predecessor, the walk back runs
    for ever. *)
Lemma reconstruct_never_returns (m : gmap cell cell) :
  (∀ k v, m !! k = Some v → is_Some (m !! v)) →
  ∀ fuel curr path, is_Some (m !! curr) → reconstruct fuel m curr path = OutOfFuel.
Proof.
  intros Hclosed fuel. induction fuel as [|fuel IH]; intros curr path [prev Hprev];
    simpl; [done|].
  rewrite Hprev. apply IH. by eapply Hclosed.
Qed.

(** On every grid, a search that finds an end cell two or more steps away
    from a valid start cell is followed by a walk back that never ends. *)
Lemma aStar_found_far_never_returns (fuel : nat) (m : gmap cell cell) :
  2 ≤ heuristic s e →
  search fuel (Some g) e (initialState s e) = Return (Some m) →
  aStar fuel (Some g) s e = OutOfFuel.
Proof.
  intros Hfar Hsearch. unfold aStar. rewrite Hsearch; simpl.
  destruct (search_inv (Some g) s e fuel _ m (initialState_inv s e) Hsearch)
    as [Hlink Hroot].
  assert (Hstart : is_Some (m !! s)).
  { destruct (m !! s) as [p|] eqn:Hnone; [by eexists|].
    destruct (search_start_fresh fuel _ m (initialState_inv s e)
                initialState_fresh Hsearch Hnone) as [->|Hfrom].
    - unfold heuristic in Hfar. lia.
    - destruct (Hlink e s Hfrom) as [_ Hnb].
      apply neighbors_heuristic in Hnb. lia. }
  apply reconstruct_never_returns.
  - intros k v Hkv. destruct (Hlink k v Hkv) as [[->|?] _]; done.
  - destruct Hroot as [->|?]; done.
Qed.

(** Hence, for cells two or more steps apart, [findPath] either runs for
    ever or returns the single waypoint of an abandoned search. *)
Lemma findPath_far_end (fuel : nat) (start end_ : Vector3) :
  worldToGrid start = s → worldToGrid end_ = e →
  validCell g e = true → 2 ≤ heuristic s e →
  findPath fuel (Some g) start end_ = OutOfFuel
  ∨ findPath fuel (Some g) start end_ = Return [gridToWorld e].
Proof.
  intros Hws Hwe He Hfar. rewrite findPath_initialised, Hws, Hwe, valid_start, He.
  simpl.
  destruct (search fuel (Some g) e (initialState s e)) as [[m|]| |] eqn:Hsearch.
  - left. by rewrite (aStar_found_far_never_returns fuel m).
  - right. unfold aStar. by rewrite Hsearch.
  - by apply search_no_throw in Hsearch.
  - left. unfold aStar. by rewrite Hsearch.
Qed.

End FoundPath.

Section Divergence.
Import PathFinder.

Lemma search_two_steps_east (fuel : nat) :
  ∃ m, search (S (S (S fuel))) (Some openGrid) (27, 25)
         (initialState (25, 25) (27, 25)) = Return (Some m).
Proof. eexists. vm_compute. reflexivity. Qed.

Lemma search_diagonal (fuel : nat) :
  ∃ m, search (S (S (S (S fuel)))) (Some openGrid) (26, 26)
         (initialState (25, 25) (26, 26)) = Return (Some m).
Proof. eexists. vm_compute. reflexivity. Qed.

(** C7.  On the open 50 x 50 grid, from the world point (0, 0, 0) to the
    world point (2, 0, 0), two cells to the east, no number of loop
    iterations lets [findPath] return: the search reaches the end cell in
    three iterations, with fewer than 200 open cells, and the walk back over
    [cameFrom] then never reaches a cell without predecessor. *)
Theorem findPath_two_cells_east_never_returns (fuel : nat) :
  findPath fuel (Some openGrid)
    (worldPoint 0 0 0) (worldPoint 2 0 0) = OutOfFuel.
Proof.
  rewrite findPath_initialised.
  change (worldToGrid (worldPoint 0 0 0)) with ((25, 25) : cell).
  change (worldToGrid (worldPoint 2 0 0)) with ((27, 25) : cell).
  change (validCell openGrid (25, 25) && validCell openGrid (27, 25)) with true.
  cbn match.
  destruct fuel as [|[|[|fuel]]]; [reflexivity| vm_compute; reflexivity ..|].
  destruct (search_two_steps_east fuel) as [m Hsearch].
  rewrite (aStar_found_far_never_returns openGrid (25, 25) (27, 25)
             eq_refl _ m); [done| |done].
  unfold heuristic; simpl; lia.
Qed.

(** C2.  On the open grid, from the world point (0, 0, 0) to the world point
    (1, 0, 1), whose cells are at Manhattan distance 2, [findPath] returns
    no path at all, whatever the number of loop iterations. *)
Theorem findPath_open_grid_distance_two_never_returns :
  validCell openGrid (worldToGrid (worldPoint 0 0 0)) = true
  ∧ validCell openGrid (worldToGrid (worldPoint 1 0 1)) = true
  ∧ heuristic (worldToGrid (worldPoint 0 0 0))
              (worldToGrid (worldPoint 1 0 1)) = 2
  ∧ ∀ fuel, findPath fuel (Some openGrid)
              (worldPoint 0 0 0) (worldPoint 1 0 1) = OutOfFuel.
Proof.
  split; [reflexivity|]. split; [reflexivity|]. split; [reflexivity|].
  intros fuel. rewrite findPath_initialised.
  change (worldToGrid (worldPoint 0 0 0)) with ((25, 25) : cell).
  change (worldToGrid (worldPoint 1 0 1)) with ((26, 26) : cell).
  change (validCell openGrid (25, 25) && validCell openGrid (26, 26)) with true.
  cbn match.
  destruct fuel as [|[|[|[|fuel]]]]; [reflexivity| vm_compute; reflexivity ..|].
  destruct (search_diagonal fuel) as [m Hsearch].
  rewrite (aStar_found_far_never_returns openGrid (25, 25) (26, 26)
             eq_refl _ m); [done| |done].
  unfold heuristic; simpl; lia.
Qed.

End Divergence.

(** ** The threat scalar *)

Section Threat.
Import AICoordinator.

Lemma threatStep_bounds (c : t) (ev : ThreatEvent) :
  0 ≤ playerThreatLevel c ≤ 100 →
  0 ≤ playerThreatLevel (threatStep c ev) ≤ 100.
Proof.
  intros Hc. destruct ev as [action| |]; simpl.
  - destruct action; simpl; lia.
  - destruct (pendingDecays c); simpl; lia.
  - lia.
Qed.

Lemma threatTrace_bounds (evs : list ThreatEvent) (c : t) :
  0 ≤ playerThreatLevel c ≤ 100 →
  Forall (λ c', 0 ≤ playerThreatLevel c' ≤ 100) (threatTrace c evs).
Proof.
  revert c. induction evs as [|ev evs IH]; intros c Hc; simpl; [constructor|].
  pose proof (threatStep_bounds c ev Hc). constructor; [done|by apply IH].
Qed.

Lemma kill_iter (n : nat) :
  playerThreatLevel (Nat.iter n (updatePlayerThreatLevel Kill) new)
  = Z.min 100 (15 * Z.of_nat n).
Proof.
  induction n as [|n IH]; [done|].
  rewrite Nat.iter_succ. unfold updatePlayerThreatLevel at 1; simpl.
  rewrite IH. lia.
Qed.

(** C6.  From a fresh (or cleaned-up) coordinator, after every event of
    every run of calls of [updatePlayerThreatLevel], pending decay callbacks
    and clean-ups, the threat level lies between 0 and 100; a call adds 15
    for a kill, 5 for damage, 10 for telekinesis and 20 for a headshot
    before the cap at 100, and a decay takes 5 off down to 0; and [n] kills
    in a row with no decay in between leave the level at [min 100 (15 n)],
    which is 100 from the seventh kill on. *)
Theorem playerThreatLevel_clamped (evs : list ThreatEvent) (n : nat) (c : t) :
  Forall (λ c', 0 ≤ playerThreatLevel c' ≤ 100) (threatTrace new evs)
  ∧ playerThreatLevel (updatePlayerThreatLevel Kill c)
    = Z.min 100 (playerThreatLevel c + 15)
  ∧ playerThreatLevel (updatePlayerThreatLevel Damage c)
    = Z.min 100 (playerThreatLevel c + 5)
  ∧ playerThreatLevel (updatePlayerThreatLevel Telekinesis c)
    = Z.min 100 (playerThreatLevel c + 10)
  ∧ playerThreatLevel (updatePlayerThreatLevel Headshot c)
    = Z.min 100 (playerThreatLevel c + 20)
  ∧ playerThreatLevel (decayCallback c) = Z.max 0 (playerThreatLevel c - 5)
  ∧ playerThreatLevel (Nat.iter n (updatePlayerThreatLevel Kill) new)
    = Z.min 100 (15 * Z.of_nat n)
  ∧ playerThreatLevel (Nat.iter n (updatePlayerThreatLevel Kill) new) ≤ 100.
Proof.
  split; [by apply threatTrace_bounds|].
  do 5 (split; [done|]).
  rewrite kill_iter. split; [done|lia].
Qed.

End Threat.

(** ** Clusters *)

Section Clusters.
Import EnemyApi AICoordinator.
Context {E : Type} {enemyApi : EnemyLike E}.

Lemma absorb_fold (enemy : E) (d : Q) (others cluster : list E) (visited : gset string) :
  ∃ added : list E,
    foldl (absorb enemy d) (cluster, visited) others
      = (cluster ++ added, visited ∪ list_to_set (idsOf added))
    ∧ NoDup (idsOf added)
    ∧ ∀ x, x ∈ idsOf added → x ∉ visited.
Proof.
  revert cluster visited.
  induction others as [|other others IH]; intros cluster visited; simpl.
  - exists []. rewrite app_nil_r. split; [f_equal; set_solver|].
    split; [constructor|]. intros x Hx. by apply elem_of_nil in Hx.
  - destruct (negb (bool_decide (getId other ∈ visited)) && _) eqn:Htake.
    + apply andb_true_iff in Htake as [Hnew _].
      apply negb_true_iff, bool_decide_eq_false in Hnew.
      destruct (IH (cluster ++ [other]) (visited ∪ {[getId other]}))
        as (added & -> & Hnodup & Hfresh).
      exists (other :: added). rewrite <- app_assoc. simpl.
      split; [f_equal; set_solver|]. split.
      * apply NoDup_cons. split; [|done].
        intros Hin. apply Hfresh in Hin. set_solver.
      * intros x Hx. apply elem_of_cons in Hx as [->|Hx]; [done|].
        apply Hfresh in Hx. set_solver.
    + apply IH.
Qed.

Lemma clusterStep_inv (enemies : list E) (d : Q)
    (acc : list (list E) * gset string) (enemy : E) :
  clusterInv acc → clusterInv (clusterStep enemies d acc enemy).
Proof.
  destruct acc as [clusters visited]. intros [Hnodup Hvisited].
  unfold clusterStep. case_bool_decide as Hseen; [done|].
  destruct (absorb_fold enemy d enemies [enemy] (visited ∪ {[getId enemy]}))
    as (added & -> & Hadded & Hfresh).
  unfold clusterInv, idsOf in *; simpl in *.
  rewrite concat_app, fmap_app; simpl. rewrite app_nil_r. split.
  - apply NoDup_app. split; [done|]. split.
    + intros x Hx Hx'. apply Hvisited in Hx.
      apply elem_of_cons in Hx' as [->|Hx']; [done|].
      apply Hfresh in Hx'. set_solver.
    + apply NoDup_cons. split; [|done].
      intros Hin. apply Hfresh in Hin. set_solver.
  - intros x Hx. apply elem_of_app in Hx as [Hx|Hx].
    + apply Hvisited in Hx. set_solver.
    + apply elem_of_cons in Hx as [->|Hx]; [set_solver|].
      apply elem_of_union_r, elem_of_list_to_set. done.
Qed.

Lemma clusterEnemies_NoDup (enemies : list E) (d : Q) :
  NoDup (idsOf (concat (clusterEnemies enemies d))).
Proof.
  unfold clusterEnemies.
  assert (Hfold : ∀ seeds acc, clusterInv acc →
            clusterInv (foldl (clusterStep enemies d) acc seeds)).
  { induction seeds as [|seed seeds IH]; intros acc Hacc; simpl; [done|].
    by apply IH, clusterStep_inv. }
  apply (Hfold enemies ([], ∅)). split; simpl; [constructor|].
  intros x Hx. by apply elem_of_nil in Hx.
Qed.

Lemma NoDup_concat_lookup (ls : list (list E)) :
  NoDup (idsOf (concat ls)) →
  (∀ i l, ls !! i = Some l → NoDup (idsOf l))
  ∧ (∀ i j a b x, i ≠ j → ls !! i = Some a → ls !! j = Some b →
       x ∈ idsOf a → x ∈ idsOf b → False).
Proof.
  unfold idsOf. induction ls as [|l ls IH]; simpl.
  - intros _. split; intros; by simplify_eq.
  - rewrite fmap_app. intros (Hl & Hdisj & Hls)%NoDup_app.
    destruct (IH Hls) as [IH1 IH2]. split.
    + intros [|i] l' Hl'; simpl in Hl'; [by simplify_eq|by eapply IH1].
    + assert (Hin : ∀ j b x, ls !! j = Some b → x ∈ getId <$> b →
                x ∈ getId <$> concat ls).
      { intros j b x Hb (y & -> & Hy)%list_elem_of_fmap.
        apply list_elem_of_fmap_2, list_elem_of_In, in_concat.
        exists b. split; [|by apply list_elem_of_In].
        apply list_elem_of_In, list_elem_of_lookup. eauto. }
      intros [|i] [|j] a b x Hij Ha Hb Hxa Hxb; simpl in *; simplify_eq.
      * eapply Hdisj; [done|]. by eapply Hin.
      * eapply Hdisj; [done|]. by eapply Hin.
      * eapply (IH2 i j); [congruence|done..].
Qed.

End Clusters.

(** ** Formations *)

Section Formations.
Import EnemyApi AICoordinator.
Context {E : Type} {enemyApi : EnemyLike E}.

Lemma formationIdOf_inj (i j : nat) : formationIdOf i = formationIdOf j → i = j.
Proof.
  unfold formationIdOf. intros Heq.
  apply (inj (String.app "formation_")) in Heq. by apply (inj pretty) in Heq.
Qed.

Lemma assignRole_roleOf (leader : E) (formationId : string) (i : nat) (enemy : E) :
  assignRole leader formationId i enemy
  = setFormationRole (roleOf leader i enemy) formationId enemy.
Proof.
  unfold assignRole, roleOf. by repeat case_bool_decide.
Qed.

(** The leader [reduce] picks is a member, and no member is more alert. *)
Lemma pickLeader_fold (rest : list E) (first : E) :
  foldl pickLeader first rest ∈ first :: rest
  ∧ ∀ m, m ∈ first :: rest → alertOf m ≤ alertOf (foldl pickLeader first rest).
Proof.
  revert first. induction rest as [|current rest IH]; intros first; simpl.
  - split; [by left|]. intros m ->%list_elem_of_singleton. done.
  - destruct (IH (pickLeader first current)) as [Hin Hmax]. split.
    + apply elem_of_cons in Hin as [Heq|Hin]; [|by do 2 right].
      rewrite Heq. unfold pickLeader. case_bool_decide; [by left|by right; left].
    + intros m Hm.
      assert (Hstep : alertOf m ≤ alertOf (pickLeader first current)
                      ∨ m ∈ rest).
      { apply elem_of_cons in Hm as [->|Hm].
        - left. unfold pickLeader, alertOf. case_bool_decide; lia.
        - apply elem_of_cons in Hm as [->|Hm]; [|by right].
          left. unfold pickLeader, alertOf. case_bool_decide; lia. }
      destruct Hstep as [Hle|Hm'].
      * etrans; [exact Hle|]. apply Hmax. by left.
      * apply Hmax. by right.
Qed.

Lemma reduce_pickLeader (group : list E) (leader : E) :
  reduce pickLeader group = Some leader →
  leader ∈ group ∧ ∀ m, m ∈ group → alertOf m ≤ alertOf leader.
Proof.
  destruct group as [|first rest]; simpl; [done|].
  intros [= <-]. apply pickLeader_fold.
Qed.

Lemma reduce_is_Some (group : list E) :
  (2 ≤ length group)%nat → is_Some (reduce pickLeader group).
Proof. destruct group; simpl; [lia|by eexists]. Qed.

Lemma selectFormationType_threat (n : nat) (p : Vector3) (g : list E) (c c' : t) :
  playerThreatLevel c = playerThreatLevel c' →
  selectFormationType n p g c = selectFormationType n p g c'.
Proof. unfold selectFormationType. by intros ->. Qed.

(** What the pass leaves of the cluster at [index]. *)
Lemma formGroup_eq (now : Z) (p : Vector3) (c : t) (handled : list (list E))
    (index : nat) (group : list E) :
  formGroup now p (c, handled) (index, group)
  = match reduce pickLeader group with
    | Some leader =>
        if bool_decide (2 ≤ length group)%nat then
          (mk (<[formationIdOf index := formationOf now p c index group leader]>
                 (formations c))
              (alertNetwork c) (lastFormationUpdate c) (playerThreatLevel c)
              (pendingDecays c),
           handled ++ [imap (assignRole leader (formationIdOf index)) group])
        else (c, handled ++ [group])
    | None => (c, handled ++ [group])
    end.
Proof.
  unfold formGroup. case_bool_decide; destruct (reduce pickLeader group); done.
Qed.

(** The fold of [formGroup] over the clusters of a pass. *)
Lemma formGroups_spec (now : Z) (p : Vector3) (c0 : t) (groups : list (list E)) :
  let r := foldl (formGroup now p) (c0, []) (imap pair groups) in
  playerThreatLevel r.1 = playerThreatLevel c0
  ∧ length r.2 = length groups
  ∧ (∀ key f, formations r.1 !! key = Some f →
       formations c0 !! key = Some f
       ∨ ∃ i group leader,
           groups !! i = Some group ∧ (2 ≤ length group)%nat
           ∧ reduce pickLeader group = Some leader
           ∧ key = formationIdOf i
           ∧ f = formationOf now p c0 i group leader)
  ∧ (∀ i group, groups !! i = Some group → (2 ≤ length group)%nat →
       ∃ leader,
         reduce pickLeader group = Some leader
         ∧ formations r.1 !! formationIdOf i
           = Some (formationOf now p c0 i group leader)
         ∧ r.2 !! i = Some (imap (assignRole leader (formationIdOf i)) group))
  ∧ (∀ i group, groups !! i = Some group → (length group < 2)%nat →
       r.2 !! i = Some group).
Proof.
  induction groups as [|g groups IH] using rev_ind; simpl.
  - repeat split; try done; intros; simplify_eq; by left.
  - rewrite imap_app, foldl_app; simpl. rewrite Nat.add_0_r.
    destruct (foldl (formGroup now p) (c0, []) (imap pair groups))
      as [c handled] eqn:Hfold.
    simpl in IH. destruct IH as (Hthreat & Hlen & Hback & Hforth & Hsmall).
    rewrite formGroup_eq.
    assert (Hold : ∀ i group, (groups ++ [g]) !! i = Some group →
              (i < length groups)%nat ∧ groups !! i = Some group
              ∨ i = length groups ∧ group = g).
    { intros i group Hi. apply lookup_snoc_Some in Hi. naive_solver lia. }
    destruct (reduce pickLeader g) as [leader|] eqn:Hleader;
      [case_bool_decide as Hsize|]; simpl.
    + assert (Hform : formationOf now p c (length groups) g leader
                      = formationOf now p c0 (length groups) g leader).
      { unfold formationOf. f_equal. by apply selectFormationType_threat. }
      rewrite Hform. split; [done|]. split; [rewrite !length_app; simpl; lia|].
      split; [|split].
      * intros key f Hkey.
        destruct (decide (formationIdOf (length groups) = key)) as [<-|Hne].
        -- rewrite lookup_insert_eq in Hkey. injection Hkey as <-. right.
           exists (length groups), g, leader.
           rewrite lookup_app_r, Nat.sub_diag by lia. done.
        -- rewrite lookup_insert_ne in Hkey by done.
           destruct (Hback key f Hkey) as [?|(i & group & l & Hi & ?)]; [by left|].
           right. exists i, group, l.
           rewrite lookup_app_l by (by eapply lookup_lt_Some). done.
      * intros i group Hi Hsz. destruct (Hold i group Hi) as [[Hlt Hi']|[-> ->]].
        -- destruct (Hforth i group Hi' Hsz) as (l & Hl & Hf & Hr).
           exists l. split; [done|]. split.
           ++ rewrite lookup_insert_ne; [done|].
              intros Heq%formationIdOf_inj. lia.
           ++ rewrite lookup_app_l by lia. done.
        -- exists leader. split; [done|]. split; [by rewrite lookup_insert_eq|].
           rewrite lookup_app_r, Hlen, Nat.sub_diag by lia. done.
      * intros i group Hi Hsz. destruct (Hold i group Hi) as [[Hlt Hi']|[-> ->]];
          [|lia].
        rewrite lookup_app_l by lia. by apply Hsmall.
    + split; [done|]. split; [rewrite !length_app; simpl; lia|].
      split; [|split].
      * intros key f Hkey.
        destruct (Hback key f Hkey) as [?|(i & group & l & Hi & ?)]; [by left|].
        right. exists i, group, l.
        rewrite lookup_app_l by (by eapply lookup_lt_Some). done.
      * intros i group Hi Hsz. destruct (Hold i group Hi) as [[Hlt Hi']|[-> ->]];
          [|lia].
        destruct (Hforth i group Hi' Hsz) as (l & Hl & Hf & Hr).
        exists l. rewrite lookup_app_l by lia. done.
      * intros i group Hi Hsz. destruct (Hold i group Hi) as [[Hlt Hi']|[-> ->]].
        -- rewrite lookup_app_l by lia. by apply Hsmall.
        -- rewrite lookup_app_r, Hlen, Nat.sub_diag by lia. done.
    + destruct g; simpl in Hleader; [|done].
      split; [done|]. split; [rewrite !length_app; simpl; lia|].
      split; [|split].
      * intros key f Hkey.
        destruct (Hback key f Hkey) as [?|(i & group & l & Hi & ?)]; [by left|].
        right. exists i, group, l.
        rewrite lookup_app_l by (by eapply lookup_lt_Some). done.
      * intros i group Hi Hsz. destruct (Hold i group Hi) as [[Hlt Hi']|[-> ->]];
          [|simpl in Hsz; lia].
        destruct (Hforth i group Hi' Hsz) as (l & Hl & Hf & Hr).
        exists l. rewrite lookup_app_l by lia. done.
      * intros i group Hi Hsz. destruct (Hold i group Hi) as [[Hlt Hi']|[-> ->]].
        -- rewrite lookup_app_l by lia. by apply Hsmall.
        -- rewrite lookup_app_r, Hlen, Nat.sub_diag by lia. done.
Qed.

End Formations.

(** ** Formations of a pass *)

Section FormationClaims.
Import EnemyApi AICoordinator.
Context {E : Type} {enemyApi : EnemyLike E}.

Lemma updateFormations_runs (now : Z) (enemies : list E) (p : Vector3) (c : t) :
  2000 ≤ now - lastFormationUpdate c →
  updateFormations now enemies p c
  = foldl (formGroup now p)
      (mk ∅ (alertNetwork c) now (playerThreatLevel c) (pendingDecays c), [])
      (imap pair (passClusters enemies)).
Proof.
  intros Hrun. unfold updateFormations.
  by rewrite bool_decide_eq_false_2 by lia.
Qed.

Lemma updateFormations_throttled (now : Z) (enemies : list E) (p : Vector3) (c : t) :
  now - lastFormationUpdate c < 2000 →
  updateFormations now enemies p c = (c, []).
Proof.
  intros Hrun. unfold updateFormations.
  by rewrite bool_decide_eq_true_2 by lia.
Qed.

(** Every formation of a pass comes from a cluster of at least two. *)
Lemma formation_origin (now : Z) (enemies : list E) (p : Vector3) (c : t)
    (key : string) (f : FormationGroup.t) :
  2000 ≤ now - lastFormationUpdate c →
  formations (updateFormations now enemies p c).1 !! key = Some f →
  ∃ i group, passClusters enemies !! i = Some group
             ∧ (2 ≤ length group)%nat
             ∧ key = formationIdOf i
             ∧ FormationGroup.members f = idsOf group.
Proof.
  intros Hrun. rewrite updateFormations_runs by done.
  intros Hkey.
  destruct (formGroups_spec now p
              (mk ∅ (alertNetwork c) now (playerThreatLevel c) (pendingDecays c))
              (passClusters enemies)) as (_ & _ & Hback & _).
  destruct (Hback key f Hkey) as [Hempty|(i & group & leader & Hi & Hsz & _ & -> & ->)].
  - simpl in Hempty. by rewrite lookup_empty in Hempty.
  - by exists i, group.
Qed.

(** C5.  After a pass of [updateFormations] that is not throttled, over
    agents with pairwise distinct ids: the member list of every formation
    has no duplicate and at least two ids; two formations share no id; and a
    cluster of one agent gets no formation, nor does its agent appear in
    any.  A throttled call creates no formation at all. *)
Theorem formations_disjoint (now : Z) (enemies : list E) (p : Vector3) (c : t) :
  NoDup (idsOf enemies) →
  2000 ≤ now - lastFormationUpdate c →
  let c' := (updateFormations now enemies p c).1 in
  (∀ k f, formations c' !! k = Some f →
     NoDup (FormationGroup.members f)
     ∧ (2 ≤ length (FormationGroup.members f))%nat)
  ∧ (∀ k1 k2 f1 f2 x, k1 ≠ k2 →
       formations c' !! k1 = Some f1 → formations c' !! k2 = Some f2 →
       x ∈ FormationGroup.members f1 → x ∈ FormationGroup.members f2 → False)
  ∧ (∀ i cluster a, passClusters enemies !! i = Some cluster →
       length cluster = 1%nat → a ∈ cluster →
       formations c' !! formationIdOf i = None
       ∧ ∀ k f, formations c' !! k = Some f →
           getId a ∉ FormationGroup.members f)
  ∧ (∀ later, later - now < 2000 →
       updateFormations later enemies p c' = (c', [])).
Proof.
  intros _ Hrun c'.
  destruct (NoDup_concat_lookup (passClusters enemies)) as [Hnodup Hdisj].
  { apply clusterEnemies_NoDup. }
  assert (Horigin := formation_origin now enemies p c).
  split; [|split; [|split]].
  - intros k f (i & group & Hi & Hsz & _ & ->)%Horigin; [|done].
    split; [by eapply Hnodup|]. unfold idsOf. by rewrite length_fmap.
  - intros k1 k2 f1 f2 x Hne
      (i1 & g1 & Hi1 & _ & -> & ->)%Horigin (i2 & g2 & Hi2 & _ & -> & ->)%Horigin;
      try done.
    apply (Hdisj i1 i2 g1 g2 x); [congruence|done..].
  - intros i cluster a Hi Hone Ha.
    assert (Hnone : ∀ k f, formations c' !! k = Some f → k ≠ formationIdOf i).
    { intros k f (i' & g' & Hi' & Hsz & -> & _)%Horigin Heq%formationIdOf_inj;
        [|done].
      subst i'. rewrite Hi in Hi'. injection Hi' as <-. lia. }
    split.
    + destruct (formations c' !! formationIdOf i) as [f|] eqn:Hf; [|done].
      by destruct (Hnone _ _ Hf).
    + intros k f Hf Hin. pose proof (Hnone k f Hf) as Hk.
      apply Horigin in Hf as (i' & g' & Hi' & _ & -> & Hmem); [|done].
      rewrite Hmem in Hin.
      apply (Hdisj i i' cluster g' (getId a)); [congruence|done..| |done].
      by apply list_elem_of_fmap_2.
  - intros later Hlater. apply updateFormations_throttled.
    subst c'. rewrite updateFormations_runs by done.
    assert (Hlast : ∀ groups acc,
              lastFormationUpdate (foldl (formGroup now p) acc groups).1
              = lastFormationUpdate acc.1).
    { induction groups as [|[i g] groups IH]; intros [c1 h1]; cbn [foldl]; [done|].
      rewrite IH, formGroup_eq.
      destruct (reduce pickLeader g); [case_bool_decide|]; done. }
    rewrite Hlast. simpl. lia.
Qed.

(** C8, as the code has it.  For a cluster of at least two handled by a
    pass: its formation names as leader a member than which no member is
    more alert; the member whose id is the leader's gets the leader role;
    any other member gets the flanker role when its index in the cluster
    (the leader counted) is 0 or 1, and the support role otherwise. *)
Theorem formation_roles (now : Z) (enemies : list E) (p : Vector3) (c : t)
    (i : nat) (group : list E) :
  2000 ≤ now - lastFormationUpdate c →
  passClusters enemies !! i = Some group →
  (2 ≤ length group)%nat →
  let r := updateFormations now enemies p c in
  ∃ (leader : E) (f : FormationGroup.t) (after : list E),
    formations r.1 !! formationIdOf i = Some f
    ∧ FormationGroup.leader f = getId leader
    ∧ FormationGroup.members f = idsOf group
    ∧ leader ∈ group
    ∧ (∀ m, m ∈ group → alertOf m ≤ alertOf leader)
    ∧ r.2 !! i = Some after
    ∧ length after = length group
    ∧ ∀ j m, group !! j = Some m →
        ∃ role,
          after !! j = Some (setFormationRole role (formationIdOf i) m)
          ∧ (role = Leader ↔ getId m = getId leader)
          ∧ (role = Flanker ↔ getId m ≠ getId leader ∧ (j < 2)%nat)
          ∧ (role = Support ↔ getId m ≠ getId leader ∧ (2 ≤ j)%nat).
Proof.
  intros Hrun Hi Hsz r. subst r. rewrite updateFormations_runs by done.
  destruct (formGroups_spec now p
              (mk ∅ (alertNetwork c) now (playerThreatLevel c) (pendingDecays c))
              (passClusters enemies)) as (_ & _ & _ & Hforth & _).
  destruct (Hforth i group Hi Hsz) as (leader & Hleader & Hf & Hafter).
  destruct (reduce_pickLeader group leader Hleader) as [Hin Hmax].
  eexists leader, _, _. split; [exact Hf|]. split; [done|]. split; [done|].
  split; [done|]. split; [done|]. split; [exact Hafter|].
  split; [by rewrite length_imap|].
  intros j m Hm. exists (roleOf leader j m).
  rewrite list_lookup_imap, Hm; simpl. rewrite assignRole_roleOf.
  split; [done|]. unfold roleOf.
  repeat case_bool_decide; repeat split; try done; try lia; intros []; try done; lia.
Qed.

End FormationClaims.

Section SampleSquad.
Import EnemyApi AICoordinator.

Lemma sampleSquad_ids : NoDup (idsOf sampleSquad).
Proof. apply (bool_decide_unpack _). vm_compute. exact I. Defined.

Lemma sampleSquad_clusters :
  passClusters sampleSquad = [take 3 sampleSquad; drop 3 sampleSquad].
Proof. vm_compute. reflexivity. Defined.

Lemma formations_disjoint_witness :
  formations (updateFormations 5000 sampleSquad (worldPoint 0 0 0) new).1
    !! formationIdOf 1 = None.
Proof.
  assert (Hrun : 2000 ≤ 5000 - lastFormationUpdate new) by (simpl; lia).
  assert (Hcluster : passClusters sampleSquad !! 1%nat = Some (drop 3 sampleSquad))
    by (rewrite sampleSquad_clusters; reflexivity).
  assert (Hone : length (drop 3 sampleSquad) = 1%nat) by reflexivity.
  assert (Hmember : sampleEnemy "enemy_d" (worldPoint 20 0 20) 0 ∈ drop 3 sampleSquad)
    by (simpl; left).
  destruct (formations_disjoint 5000 sampleSquad (worldPoint 0 0 0) new
              sampleSquad_ids Hrun) as (_ & _ & Hsingle & _).
  exact (proj1 (Hsingle 1%nat _ _ Hcluster Hone Hmember)).
Defined.

Lemma formation_roles_witness :
  ∃ (leader : Enemy.t) (f : FormationGroup.t),
    formations (updateFormations 5000 sampleSquad (worldPoint 0 0 0) new).1
      !! formationIdOf 0 = Some f
    ∧ FormationGroup.leader f = getId leader
    ∧ ∀ m, m ∈ take 3 sampleSquad → alertOf m ≤ alertOf leader.
Proof.
  assert (Hrun : 2000 ≤ 5000 - lastFormationUpdate new) by (simpl; lia).
  assert (Hcluster : passClusters sampleSquad !! 0%nat = Some (take 3 sampleSquad))
    by (rewrite sampleSquad_clusters; reflexivity).
  assert (Hsize : (2 ≤ length (take 3 sampleSquad))%nat) by (simpl; lia).
  destruct (formation_roles 5000 sampleSquad (worldPoint 0 0 0) new 0
              (take 3 sampleSquad) Hrun Hcluster Hsize)
    as (leader & f & after & Hf & Hleader & _ & _ & Hmax & _).
  by exists leader, f.
Defined.

(** C8, as the specification words it, fails on three agents in one
    cluster whose most alert member comes first: the code makes the second
    member a flanker and the third one support, where the specification has
    the first two members other than the leader as flankers. *)
Lemma flankers_follow_cluster_index :
  let r := updateFormations 5000 sampleSquad (worldPoint 0 0 0) new in
  FormationGroup.leader <$> (formations r.1 !! formationIdOf 0) = Some "enemy_a"
  ∧ map (map Enemy.formationRole) r.2
    = [[Some Leader; Some Flanker; Some Support]; [None]]
  ∧ map Some (specRoles "enemy_a" ["enemy_a"; "enemy_b"; "enemy_c"])
    = [Some Leader; Some Flanker; Some Flanker]
  ∧ map Some (specRoles "enemy_a" ["enemy_a"; "enemy_b"; "enemy_c"])
    ≠ [Some Leader; Some Flanker; Some Support].
Proof.
  split; [vm_compute; reflexivity|]. split; [vm_compute; reflexivity|].
  split; [reflexivity|]. intros [=].
Qed.

End SampleSquad.

(** ** Alerts and damage *)

Section EnemyHooks.
Import AICoordinator.

(** C3.  [updateAwareness] hands the coordinator an empty array, so no
    agent ever has [receiveAlert] invoked by it.  With agent a at alert 50
    seeing the player two units away, the update raises a to 55; agent b,
    alive and one unit from the player, is left as it was, although
    [alertNearbyEnemies] would have alerted it had it been passed on. *)
Theorem updateAwareness_alerts_nobody :
  (∀ playerPosition hasLineOfSight now e,
     (Enemy.updateAwareness playerPosition hasLineOfSight now e).2 = [])
  ∧ let a := sampleEnemy "enemy_a" (worldPoint 0 0 0) 50 in
    let b := sampleEnemy "enemy_b" (worldPoint 1 0 0) 0 in
    let player := worldPoint 2 0 0 in
    let r := Enemy.updateAwareness player true 1000 a in
    AIState.alertLevel (Enemy.aiState r.1) = 55
    ∧ r.2 = []
    ∧ Enemy.isAlive b = true
    ∧ THREE.distanceTo_le (Enemy.position b) player alertRadius = true
    ∧ alertNearbyEnemies "enemy_a" player [r.1; b]
      = [r.1; Enemy.receiveAlert "enemy_a" player b].
Proof.
  split.
  - intros playerPosition hasLineOfSight now e. unfold Enemy.updateAwareness.
    repeat (case_match; try done).
  - repeat split; vm_compute; reflexivity.
Qed.

Lemma takeDamage_threat (amount : Q) (fromFront : bool) (now : Z)
    (e : Enemy.t) (c : t) :
  playerThreatLevel (Enemy.takeDamage amount fromFront now (e, c)).2
  = Z.min 100 (playerThreatLevel c + 5).
Proof. done. Qed.

(** C10.  Every call of [takeDamage] raises the threat level by 5, capped
    at 100, whatever the amount and the side; and when a thrown enemy
    reaches the ground, [handleThrowPhysics] calls [takeDamage(30)] on it,
    which raises the threat level in the same way. *)
Theorem takeDamage_raises_threat :
  (∀ amount fromFront now e c,
     playerThreatLevel (Enemy.takeDamage amount fromFront now (e, c)).2
     = Z.min 100 (playerThreatLevel c + 5))
  ∧ (∀ ring random1 random2 level now e c e1,
       Enemy.throwMove ring random1 random2 level e = inr e1 →
       Qle_bool
         (THREE.y (Enemy.position
            (Enemy.afterCollision ring random1 random2 level (Enemy.position e) e1)))
         Enemy.groundLevel = true →
       (∃ e2, Enemy.handleThrowPhysics ring random1 random2 level now (e, c)
              = Enemy.takeDamage 30 true now (e2, c))
       ∧ playerThreatLevel
           (Enemy.handleThrowPhysics ring random1 random2 level now (e, c)).2
         = Z.min 100 (playerThreatLevel c + 5)).
Proof.
  split; [intros; apply takeDamage_threat|].
  intros ring random1 random2 level now e c e1 Hmove Hland.
  unfold Enemy.handleThrowPhysics. rewrite Hmove, Hland.
  split; [by eexists|]. apply takeDamage_threat.
Qed.

Lemma takeDamage_raises_threat_witness :
  playerThreatLevel
    (Enemy.handleThrowPhysics [] 0 0 None 1000 (thrownEnemy, new)).2 = 5.
Proof.
  destruct takeDamage_raises_threat as [_ Hland].
  destruct (Hland [] 0%Q 0%Q None 1000 thrownEnemy new
              (Enemy.set_stuckCheckTimer 1
                 (Enemy.set_throwVelocity
                    (THREE.mkVector3 ((1 # 10) * (95 # 100))
                       (- (1 # 10) * (95 # 100) - (1 # 100)) (0 * (95 # 100)))%Q
                    (Enemy.set_position
                       (THREE.add (Enemy.position thrownEnemy)
                          (Enemy.throwVelocity thrownEnemy))
                       thrownEnemy))))
    as [_ Hthreat]; [reflexivity|reflexivity|].
  exact Hthreat.
Defined.

End EnemyHooks.

(** ** Surround placement *)

Section Surround.
Import AICoordinator.
Local Open Scope R_scope.

Lemma indexOf_lookup (members : list string) (i : nat) (enemyId : string) :
  NoDup members → members !! i = Some enemyId →
  indexOf enemyId members = Z.of_nat i.
Proof.
  revert i. induction members as [|m members IH]; intros i Hnodup Hi; [done|].
  apply NoDup_cons in Hnodup as [Hm Hnodup]. simpl.
  destruct i as [|i]; simpl in Hi.
  - injection Hi as ->. by rewrite bool_decide_eq_true_2.
  - rewrite bool_decide_eq_false_2.
    + rewrite (IH i) by done. rewrite bool_decide_eq_false_2 by lia. lia.
    + intros ->. apply Hm. apply list_elem_of_lookup. eauto.
Qed.

(** C9.  In a surround formation of [n] members, the member at index [i]
    is placed at angle [i * (2 PI / n)] on a circle around the player
    position given to the call, whose radius [8 + 4 * random] lies between 8
    and 12; with five members the angle of index [i] is [i] times 72
    degrees. *)
Theorem surround_placement (random1 random2 random3 : R)
    (enemyId role formationId : string) (currentPos playerPos : THREE.Vector3 R)
    (c : t) (formation : FormationGroup.t) (i : nat) :
  formations c !! formationId = Some formation →
  FormationGroup.formationType formation = Surround →
  NoDup (FormationGroup.members formation) →
  FormationGroup.members formation !! i = Some enemyId →
  0 <= random1 < 1 →
  let n := length (FormationGroup.members formation) in
  let angle := INR i * (2 * PI / INR n) in
  let radius := 8 + random1 * 4 in
  let placed :=
    getFormationPosition random1 random2 random3 enemyId role formationId
      currentPos playerPos c in
  placed = THREE.mkVector3 (THREE.x playerPos + cos angle * radius)
                           (THREE.y playerPos)
                           (THREE.z playerPos + sin angle * radius)
  ∧ 8 <= radius < 12
  ∧ (THREE.x placed - THREE.x playerPos) * (THREE.x placed - THREE.x playerPos)
    + (THREE.z placed - THREE.z playerPos) * (THREE.z placed - THREE.z playerPos)
    = radius * radius
  ∧ (n = 5%nat → angle = INR i * (72 * (PI / 180))).
Proof.
  intros Hf Htype Hnodup Hi Hrandom n angle radius placed.
  assert (Hplaced : placed =
            THREE.mkVector3 (THREE.x playerPos + cos angle * radius)
                            (THREE.y playerPos)
                            (THREE.z playerPos + sin angle * radius)).
  { subst placed. unfold getFormationPosition. rewrite Hf, Htype.
    unfold getSurroundPosition. rewrite (indexOf_lookup _ i) by done.
    rewrite <- INR_IZR_INZ. fold n.
    replace (PI * 2 / INR n) with (2 * PI / INR n) by (unfold Rdiv; ring).
    done. }
  split; [done|]. split; [subst radius; lra|]. split.
  - rewrite Hplaced; simpl.
    replace (THREE.x playerPos + cos angle * radius - THREE.x playerPos)
      with (cos angle * radius) by ring.
    replace (THREE.z playerPos + sin angle * radius - THREE.z playerPos)
      with (sin angle * radius) by ring.
    replace (cos angle * radius * (cos angle * radius)
             + sin angle * radius * (sin angle * radius))
      with (radius * radius * ((sin angle)² + (cos angle)²))
      by (unfold Rsqr; ring).
    rewrite sin2_cos2. ring.
  - intros Hn. subst angle. rewrite Hn. simpl. field.
Qed.

Lemma surround_placement_witness :
  getFormationPosition (1 / 2) 0 0 "enemy_c" "support" "formation_0"
    (THREE.mkVector3 0 0 0) (THREE.mkVector3 0 0 0) surroundOfFive
  = THREE.mkVector3 (0 + cos (INR 2 * (2 * PI / INR 5)) * (8 + 1 / 2 * 4)) 0
                    (0 + sin (INR 2 * (2 * PI / INR 5)) * (8 + 1 / 2 * 4)).
Proof.
  assert (Hf : formations surroundOfFive !! "formation_0"
               = Some (FormationGroup.mk "formation_0" "enemy_a"
                         ["enemy_a"; "enemy_b"; "enemy_c"; "enemy_d"; "enemy_e"]
                         (worldPoint 0 0 0) Surround 5000))
    by (vm_compute; reflexivity).
  assert (Hnodup : NoDup ["enemy_a"; "enemy_b"; "enemy_c"; "enemy_d"; "enemy_e"])
    by (apply (bool_decide_unpack _); vm_compute; exact I).
  assert (Hrandom : 0 <= 1 / 2 < 1) by lra.
  exact (proj1 (surround_placement (1 / 2) 0 0 "enemy_c" "support" "formation_0"
                  (THREE.mkVector3 0 0 0) (THREE.mkVector3 0 0 0) surroundOfFive _ 2
                  Hf eq_refl Hnodup eq_refl Hrandom)).
Defined.

End Surround.

(** ** Grid coordinates *)

Section GridCoordinates.
Import PathFinder.




Lemma default_Some {A} (d v : A) : default d (Some v) = v.
Proof. done. Qed.

Lemma lookup_fmap_seqZ {A} (f : Z → A) (n i : Z) :
  0 ≤ i < n → (f <$> seqZ 0 n) !! Z.to_nat i = Some (f i).
Proof.
  intros Hi. rewrite list_lookup_fmap, lookup_seqZ_lt by lia. simpl.
  do 2 f_equal. lia.
Qed.

Lemma initializeGrid_rows (level : Level.t) (g0 : option Grid) :
  ∃ g, initializeGrid (Some level) g0 = Some g
       ∧ length g = 50%nat
       ∧ (∀ row, row ∈ g → length row = 50%nat)
       ∧ ∀ x z, 0 ≤ x < 50 → 0 ≤ z < 50 →
           obstructed g (x, z)
           = Z.even x && Z.even z
             && match Level.checkCollision level with
                | Some check => check (gridToWorld (x, z)) (1 # 2)%Q 1%Q
                | None => false
                end.
Proof.
  eexists. split; [reflexivity|]. split; [|split].
  - by rewrite length_fmap, length_seqZ.
  - intros row (x & -> & _)%list_elem_of_fmap.
    by rewrite length_fmap, length_seqZ.
  - intros x z Hx Hz. unfold obstructed; cbn [fst snd].
    rewrite (lookup_fmap_seqZ _ size x), default_Some by done.
    rewrite (lookup_fmap_seqZ _ size z), default_Some by done.
    change (gridToWorld (x, z)) with
      (THREE.mkVector3 ((inject_Z x - inject_Z size / 2) * inject_Z gridSize)%Q 1%Q
         ((inject_Z z - inject_Z size / 2) * inject_Z gridSize)%Q).
    rewrite <- !Z.negb_odd, !Zodd_mod.
    case_bool_decide as Hskip.
    + destruct Hskip as [Hne|Hne].
      * destruct (Z.eqb_spec (x `mod` 2) 1); [done|].
        pose proof (Z.mod_pos_bound x 2). lia.
      * destruct (Z.eqb_spec (z `mod` 2) 1); [by rewrite andb_false_r|].
        pose proof (Z.mod_pos_bound z 2). lia.
    + destruct (Z.eqb_spec (x `mod` 2) 1) as [Hx1|_];
        [exfalso; apply Hskip; left; lia|].
      destruct (Z.eqb_spec (z `mod` 2) 1) as [Hz1|_];
        [exfalso; apply Hskip; right; lia|].
      done.
Qed.




(** X3.  For any level, [initializeGrid] replaces the grid by 50 rows of 50
    cells; a cell is marked exactly when both its indexes are even and the
    level's [checkCollision] answers true at the cell's grid point with
    radius 1/2 and height 1.  A cell with an odd index is never marked,
    whatever stands there, and a level without [checkCollision] marks
    nothing. *)
Theorem initializeGrid_samples (level : Level.t) (g0 : option Grid) :
  ∃ g, initializeGrid (Some level) g0 = Some g
       ∧ length g = 50%nat
       ∧ (∀ row, row ∈ g → length row = 50%nat)
       ∧ (∀ x z, 0 ≤ x < 50 → 0 ≤ z < 50 →
            obstructed g (x, z)
            = Z.even x && Z.even z
              && match Level.checkCollision level with
                 | Some check => check (gridToWorld (x, z)) (1 # 2)%Q 1%Q
                 | None => false
                 end)
       ∧ (∀ x z, 0 ≤ x < 50 → 0 ≤ z < 50 → Z.odd x || Z.odd z = true →
            obstructed g (x, z) = false)
       ∧ (Level.checkCollision level = None →
          ∀ x z, 0 ≤ x < 50 → 0 ≤ z < 50 → obstructed g (x, z) = false).
Proof.
  destruct (initializeGrid_rows level g0) as (g & Hg & Hlen & Hrows & Hcell).
  exists g. repeat (split; [done|]). split.
  - intros x z Hx Hz Hodd. rewrite Hcell by done.
    rewrite <- !Z.negb_odd. apply orb_true_iff in Hodd as [->| ->]; [done|].
    by rewrite andb_false_r.
  - intros Hnone x z Hx Hz. rewrite Hcell, Hnone by done.
    by rewrite andb_false_r.
Qed.

Lemma initializeGrid_samples_witness :
  obstructed walledGrid (28, 26) = true ∧ obstructed walledGrid (29, 26) = false.
Proof.
  destruct (initializeGrid_samples walledLevel None)
    as (g & Hg & _ & _ & Hcell & Hodd & _).
  unfold walledGrid. rewrite Hg. simpl. split.
  - rewrite Hcell by lia. reflexivity.
  - apply Hodd; [lia|lia|reflexivity].
Defined.

End GridCoordinates.

(** ** Paths of at most one step *)

Section ShortPath.
Import PathFinder.
Variable g : Grid.
Variables s e : cell.

Lemma sort_head_min {A} (cmp : A → A → comparison) (x : A) (l : list A) :
  cmp x x = Eq →
  (∀ y, y ∈ l → y = x ∨ (cmp x y = Lt ∧ cmp y x = Gt)) →
  x ∈ l → ∃ rest, sort cmp l = x :: rest.
Proof.
  intros Hxx. induction l as [|a l IH]; intros Hl Hx; [by apply elem_of_nil in Hx|].
  change (sort cmp (a :: l)) with (insertSorted cmp a (sort cmp l)).
  assert (Hl' : ∀ y, y ∈ l → y = x ∨ (cmp x y = Lt ∧ cmp y x = Gt))
    by (intros y Hy; apply Hl; by right).
  apply elem_of_cons in Hx as [->|Hx].
  - destruct (sort cmp l) as [|b r] eqn:Hsort; simpl; [by eexists|].
    assert (Hb : b ∈ l) by (rewrite <- (sort_perm cmp l), Hsort; by left).
    destruct (Hl' b Hb) as [->|[-> _]]; [rewrite Hxx|]; by eexists.
  - destruct (IH Hl' Hx) as [rest ->]. simpl.
    destruct (Hl a) as [->|[_ ->]]; [by left|rewrite Hxx|]; by eexists.
Qed.

Lemma heuristic_le_1 (a b : cell) : heuristic a b ≤ 1 → b = a ∨ b ∈ neighbors a.
Proof.
  destruct a as [ax az], b as [bx bz]. unfold heuristic, neighbors; simpl.
  intros Hle. rewrite !elem_of_cons.
  assert (bx = ax ∧ bz = az ∨ bx = ax + 1 ∧ bz = az ∨ bx = ax - 1 ∧ bz = az
          ∨ bx = ax ∧ bz = az + 1 ∨ bx = ax ∧ bz = az - 1) as Hcases by lia.
  destruct Hcases as [[-> ->]|[[-> ->]|[[-> ->]|[[-> ->]|[-> ->]]]]]; auto 10.
Qed.

Lemma neighbors_apart (n : cell) :
  e ∈ neighbors s → n ∈ neighbors s → n ≠ e → heuristic n e = 2.
Proof.
  destruct s as [sx sz], e as [ex ez], n as [nx nz].
  unfold heuristic, neighbors; simpl. rewrite !elem_of_cons, !elem_of_nil.
  intros [[= -> ->]|[[= -> ->]|[[= -> ->]|[[= -> ->]|[]]]]]
         [[= -> ->]|[[= -> ->]|[[= -> ->]|[[= -> ->]|[]]]]] Hne;
    try lia; by destruct Hne.
Qed.

(** Relaxing a neighbour of the start cell while the start is expanded. *)
Lemma relax_startExpanded (x : cell) (st st' : SearchState) :
  x ∈ neighbors s → startExpanded s e st →
  relax (Some g) e s st x = Return st' →
  startExpanded s e st'
  ∧ (validCell g x = true → x ∈ openSet st')
  ∧ (∀ n, n ∈ openSet st → n ∈ openSet st')
  ∧ (length (openSet st') ≤ S (length (openSet st)))%nat.
Proof.
  intros Hx (Hzero & Hnone & Hscored & Hopen). unfold relax.
  rewrite isValidCell_cell; simpl.
  assert (Hxs : x ≠ s) by by apply neighbors_ne.
  destruct (validCell g x); simpl;
    [|intros [= <-]; repeat split; try done; [by apply Hopen..|lia]].
  rewrite Hzero. change (orZero (Some 0) + 1) with 1.
  destruct (ltScore 1 (orInfinity (gScore st !! x))) eqn:Hlt.
  - intros [= <-]; simpl. split; [|split; [|split]].
    + unfold startExpanded; simpl.
      split; [by rewrite lookup_insert_ne|]. split; [by rewrite lookup_insert_ne|].
      split.
      * intros n Hn Hsome. destruct (decide (x = n)) as [->|Hne].
        -- case_bool_decide; [done|]. apply elem_of_app. right. by left.
        -- rewrite lookup_insert_ne in Hsome by done.
           case_bool_decide; [by apply Hscored|].
           apply elem_of_app. left. by apply Hscored.
      * intros n Hn.
        assert (Hcases : n = x ∨ (n ≠ x ∧ n ∈ openSet st)).
        { destruct (decide (n = x)) as [?|Hne]; [by left|]. right. split; [done|].
          case_bool_decide; [done|].
          apply elem_of_app in Hn as [?|Hn]; [done|].
          apply list_elem_of_singleton in Hn. done. }
        destruct Hcases as [->|[Hne Hn']].
        -- rewrite !lookup_insert_eq. done.
        -- rewrite !lookup_insert_ne by done. by apply Hopen.
    + intros _. case_bool_decide; [done|]. apply elem_of_app. right. by left.
    + intros n Hn. case_bool_decide; [done|]. apply elem_of_app. by left.
    + case_bool_decide; [lia|]. rewrite length_app; simpl. lia.
  - intros [= <-]. split; [done|]. split; [|split; [done|lia]].
    intros _. apply Hscored; [done|].
    destruct (gScore st !! x) as [v|]; [by eexists|done].
Qed.

Lemma expand_start (xs : list cell) (st st' : SearchState) :
  (∀ x, x ∈ xs → x ∈ neighbors s) → startExpanded s e st →
  forOf (relax (Some g) e s) xs st = Return st' →
  startExpanded s e st'
  ∧ (∀ x, x ∈ xs → validCell g x = true → x ∈ openSet st')
  ∧ (∀ n, n ∈ openSet st → n ∈ openSet st')
  ∧ (length (openSet st') ≤ length (openSet st) + length xs)%nat.
Proof.
  revert st. induction xs as [|x xs IH]; intros st Hxs Hst; simpl.
  - intros [= <-]. split; [done|]. split; [|split; [done|lia]].
    intros x Hx. by apply elem_of_nil in Hx.
  - destruct (relax (Some g) e s st x) as [st1| |] eqn:Hrelax; try done.
    intros Hfor.
    destruct (relax_startExpanded x st st1) as (Hst1 & Hxin & Hkeep1 & Hlen1);
      [apply Hxs; by left|done|done|].
    destruct (IH st1) as (Hst' & Hin & Hkeep & Hlen);
      [intros y Hy; apply Hxs; by right|done|done|].
    split; [done|]. split; [|split; [by auto|lia]].
    intros y Hy Hvalid. apply elem_of_cons in Hy as [->|Hy]; [|by apply Hin].
    by apply Hkeep, Hxin.
Qed.

Lemma initialState_startExpanded :
  startExpanded s e (mkSearchState [] ∅ {[ s := 0 ]} {[ s := heuristic s e ]}).
Proof.
  split; [by simpl; rewrite lookup_singleton_eq|]. split; [done|]. split.
  - intros n Hn [v Hv]. simpl in Hv. by rewrite lookup_singleton_ne in Hv.
  - intros n Hn. by apply elem_of_nil in Hn.
Qed.

(** The search finds a neighbour of the start in its second iteration. *)
Lemma search_adjacent (fuel : nat) :
  validCell g e = true → e ∈ neighbors s →
  ∃ m, search (S (S fuel)) (Some g) e (initialState s e) = Return (Some m)
       ∧ m !! e = Some s ∧ m !! s = None.
Proof.
  intros He Hnb. assert (Hne : s ≠ e) by (intros ->; by eapply neighbors_ne).
  cbn [search]. unfold initialState at 1; simpl sort. cbv beta iota.
  rewrite (bool_decide_eq_false_2 (s = e)) by done.
  change (cameFrom (initialState s e)) with (∅ : gmap cell cell).
  change (gScore (initialState s e)) with ({[ s := 0 ]} : gmap cell Z).
  change (fScore (initialState s e)) with ({[ s := heuristic s e ]} : gmap cell Z).
  destruct (forOf_returns (relax (Some g) e s) (neighbors s)
              (mkSearchState [] ∅ {[ s := 0 ]} {[ s := heuristic s e ]}))
    as [st1 Hfor]; [intros; apply relax_returns|].
  rewrite Hfor.
  destruct (expand_start _ _ _ (λ x Hx, Hx) initialState_startExpanded Hfor)
    as ((Hzero & Hnone & Hscored & Hopen) & Hin & _ & Hlen).
  simpl in Hlen. rewrite bool_decide_eq_false_2 by lia.
  assert (Heopen : e ∈ openSet st1) by by apply Hin.
  destruct (sort_head_min
              (λ a b, compareScore (orInfinity (fScore st1 !! a))
                                   (orInfinity (fScore st1 !! b)))
              e (openSet st1)) as [rest Hsort]; [| |done|].
  - destruct (orInfinity (fScore st1 !! e)); simpl; [apply Z.compare_refl|done].
  - intros y Hy. destruct (decide (y = e)) as [|Hye]; [by left|]. right.
    destruct (Hopen e Heopen) as (_ & _ & ->).
    destruct (Hopen y Hy) as (Hynb & _ & ->).
    rewrite (neighbors_apart y) by done.
    replace (heuristic e e) with 0 by (unfold heuristic; lia). done.
  - rewrite Hsort. rewrite bool_decide_eq_true_2 by done.
    eexists. split; [done|]. split; [|done]. by destruct (Hopen e Heopen) as (_ & -> & _).
Qed.

Lemma aStar_short (fuel : nat) :
  validCell g e = true → heuristic s e ≤ 1 →
  aStar (S (S fuel)) (Some g) s e = Return (if decide (e = s) then [s] else [s; e]).
Proof.
  intros He [->|Hnb]%heuristic_le_1.
  - rewrite decide_True by done. unfold aStar.
    cbn [search]. unfold initialState at 1; simpl sort. cbv beta iota.
    by rewrite (bool_decide_eq_true_2 (s = s)) by done.
  - rewrite decide_False by (by apply neighbors_ne).
    destruct (search_adjacent fuel He Hnb) as (m & Hsearch & Hme & Hms).
    unfold aStar. rewrite Hsearch; simpl. by rewrite Hme, Hms.
Qed.

End ShortPath.

Section ShortPathClaims.
Import PathFinder.

(** X4.  On every grid, when the cells of start and end are valid and the
    same or next to each other, two loop iterations are enough for
    [findPath] to return: the grid point of the cell alone when the two
    cells are the same, the grid points of the start cell and of the end
    cell otherwise. *)
Theorem findPath_adjacent (fuel : nat) (g : Grid) (start end_ : Vector3) :
  validCell g (worldToGrid start) = true →
  validCell g (worldToGrid end_) = true →
  heuristic (worldToGrid start) (worldToGrid end_) ≤ 1 →
  findPath (S (S fuel)) (Some g) start end_
  = Return (if decide (worldToGrid end_ = worldToGrid start)
            then [gridToWorld (worldToGrid start)]
            else [gridToWorld (worldToGrid start); gridToWorld (worldToGrid end_)]).
Proof.
  intros Hs He Hnear. rewrite findPath_initialised, Hs, He; simpl.
  rewrite aStar_short by done. simpl. by case_decide.
Qed.

Lemma findPath_adjacent_witness :
  findPath 2 (Some walledGrid) (worldPoint 0 0 0) (worldPoint 0 0 (-1))
  = Return [gridToWorld (25, 25); gridToWorld (25, 24)].
Proof.
  apply (findPath_adjacent 0 walledGrid (worldPoint 0 0 0) (worldPoint 0 0 (-1)));
    [reflexivity|reflexivity|]. vm_compute. intros [=].
Defined.

(** X5.  On every grid, when the cells of start and end are valid and two
    or more steps apart, [findPath] never returns a path that leads from
    the start to the end: whatever the number of loop iterations, it is
    still running or has returned the single grid point of the end cell. *)
Theorem findPath_never_finds_far_end (fuel : nat) (g : Grid) (start end_ : Vector3) :
  validCell g (worldToGrid start) = true →
  validCell g (worldToGrid end_) = true →
  2 ≤ heuristic (worldToGrid start) (worldToGrid end_) →
  findPath fuel (Some g) start end_ = OutOfFuel
  ∨ findPath fuel (Some g) start end_ = Return [gridToWorld (worldToGrid end_)].
Proof.
  intros Hs He Hfar.
  by apply (findPath_far_end g (worldToGrid start) (worldToGrid end_) Hs).
Qed.

Lemma findPath_never_finds_far_end_witness :
  findPath 9 (Some walledGrid) (worldPoint 0 0 0) (worldPoint (-3) 0 2) = OutOfFuel
  ∨ findPath 9 (Some walledGrid) (worldPoint 0 0 0) (worldPoint (-3) 0 2)
    = Return [gridToWorld (worldToGrid (worldPoint (-3) 0 2))].
Proof.
  apply (findPath_never_finds_far_end 9 walledGrid (worldPoint 0 0 0)
           (worldPoint (-3) 0 2)); [reflexivity|reflexivity|].
  vm_compute. intros [=].
Defined.

End ShortPathClaims.

(** ** Clusters cover the squad *)

Section ClusterCover.
Import EnemyApi AICoordinator.
Context {E : Type} {enemyApi : EnemyLike E}.

Lemma absorb_members (enemy : E) (d : Q) (others cluster : list E)
    (visited : gset string) :
  ∃ added : list E,
    foldl (absorb enemy d) (cluster, visited) others
      = (cluster ++ added, visited ∪ list_to_set (idsOf added))
    ∧ ∀ m, m ∈ added →
        m ∈ others
        ∧ THREE.distanceTo_le (getPosition enemy) (getPosition m) d = true.
Proof.
  revert cluster visited.
  induction others as [|other others IH]; intros cluster visited; simpl.
  - exists []. rewrite app_nil_r. split; [f_equal; set_solver|].
    intros m Hm. by apply elem_of_nil in Hm.
  - destruct (negb (bool_decide (getId other ∈ visited)) && _) eqn:Htake.
    + apply andb_true_iff in Htake as [_ Hnear].
      destruct (IH (cluster ++ [other]) (visited ∪ {[getId other]}))
        as (added & -> & Hadded).
      exists (other :: added). rewrite <- app_assoc. simpl.
      split; [f_equal; set_solver|].
      intros m [->|Hm]%elem_of_cons; [split; [by left|done]|].
      destruct (Hadded m Hm). split; [by right|done].
    + destruct (IH cluster visited) as (added & -> & Hadded).
      exists added. split; [done|]. intros m Hm.
      destruct (Hadded m Hm). split; [by right|done].
Qed.

Lemma clusterStep_cover (enemies : list E) (d : Q)
    (acc : list (list E) * gset string) (enemy : E) :
  enemy ∈ enemies → clusterCover enemies d acc →
  clusterCover enemies d (clusterStep enemies d acc enemy)
  ∧ getId enemy ∈ (clusterStep enemies d acc enemy).2
  ∧ acc.2 ⊆ (clusterStep enemies d acc enemy).2.
Proof.
  destruct acc as [clusters visited]. intros Hin [Hvisited Hseeded].
  simpl in Hvisited. unfold clusterStep. case_bool_decide as Hseen; [done|].
  destruct (absorb_members enemy d enemies [enemy] (visited ∪ {[getId enemy]}))
    as (added & -> & Hadded).
  split; [split|split]; simpl.
  - unfold idsOf. rewrite concat_app, fmap_app; simpl. rewrite app_nil_r.
    rewrite list_to_set_app_L, Hvisited; simpl. unfold idsOf. set_solver.
  - intros cluster [Hc|Hc]%elem_of_app; [by apply Hseeded|].
    apply list_elem_of_singleton in Hc as ->.
    exists enemy, added. done.
  - set_solver.
  - set_solver.
Qed.

Lemma clusterFold_cover (enemies : list E) (d : Q) (seeds : list E)
    (acc : list (list E) * gset string) :
  (∀ e, e ∈ seeds → e ∈ enemies) → clusterCover enemies d acc →
  clusterCover enemies d (foldl (clusterStep enemies d) acc seeds)
  ∧ acc.2 ⊆ (foldl (clusterStep enemies d) acc seeds).2
  ∧ ∀ e, e ∈ seeds → getId e ∈ (foldl (clusterStep enemies d) acc seeds).2.
Proof.
  revert acc. induction seeds as [|seed seeds IH]; intros acc Hseeds Hacc; simpl.
  - split; [done|]. split; [done|]. intros e He. by apply elem_of_nil in He.
  - destruct (clusterStep_cover enemies d acc seed) as (Hstep & Hseed & Hsub);
      [apply Hseeds; by left|done|].
    destruct (IH (clusterStep enemies d acc seed)) as (Hfold & Hsub' & Hrest);
      [intros e He; apply Hseeds; by right|done|].
    split; [done|]. split; [set_solver|].
    intros e [->|He]%elem_of_cons; [set_solver|by apply Hrest].
Qed.

Lemma clusterEnemies_cover (enemies : list E) (d : Q) :
  (∀ cluster, cluster ∈ clusterEnemies enemies d → seeded enemies d cluster)
  ∧ ∀ e, e ∈ enemies → getId e ∈ idsOf (concat (clusterEnemies enemies d)).
Proof.
  unfold clusterEnemies.
  destruct (clusterFold_cover enemies d enemies ([], ∅)) as ([Hv Hs] & _ & Hall);
    [done|split; [done|]; intros c Hc; by apply elem_of_nil in Hc|].
  split; [done|]. intros e He. apply Hall in He. rewrite Hv in He.
  by apply elem_of_list_to_set in He.
Qed.

(** Clustering reads ids and positions only. *)
Lemma absorb_fmap (f : E → E) (enemy : E) (d : Q) (others cluster : list E)
    (visited : gset string) :
  keepsPlace f →
  foldl (absorb (f enemy) d) (f <$> cluster, visited) (f <$> others)
  = (f <$> (foldl (absorb enemy d) (cluster, visited) others).1,
     (foldl (absorb enemy d) (cluster, visited) others).2).
Proof.
  intros Hf. revert cluster visited.
  induction others as [|other others IH]; intros cluster visited; simpl; [done|].
  destruct (Hf other) as (-> & -> & _). destruct (Hf enemy) as (_ & -> & _).
  destruct (negb (bool_decide (getId other ∈ visited)) && _); [|apply IH].
  rewrite <- IH. by rewrite fmap_app.
Qed.

Lemma clusterStep_fmap (f : E → E) (enemies : list E) (d : Q)
    (clusters : list (list E)) (visited : gset string) (enemy : E) :
  keepsPlace f →
  clusterStep (f <$> enemies) d (fmap (M:=list) f <$> clusters, visited) (f enemy)
  = (fmap (M:=list) f <$> (clusterStep enemies d (clusters, visited) enemy).1,
     (clusterStep enemies d (clusters, visited) enemy).2).
Proof.
  intros Hf. unfold clusterStep; simpl.
  destruct (Hf enemy) as (-> & _). case_bool_decide; [done|].
  pose proof (absorb_fmap f enemy d enemies [enemy]
                (visited ∪ {[getId enemy]}) Hf) as Hab.
  simpl in Hab. rewrite Hab.
  destruct (foldl (absorb enemy d) _ enemies) as [cluster visited']; simpl.
  by rewrite fmap_app.
Qed.

Lemma clusterEnemies_fmap (f : E → E) (enemies : list E) (d : Q) :
  keepsPlace f →
  clusterEnemies (f <$> enemies) d = fmap (M:=list) f <$> clusterEnemies enemies d.
Proof.
  intros Hf. unfold clusterEnemies.
  assert (Hfold : ∀ seeds clusters visited,
            foldl (clusterStep (f <$> enemies) d)
                  (fmap (M:=list) f <$> clusters, visited) (f <$> seeds)
            = (fmap (M:=list) f <$> (foldl (clusterStep enemies d) (clusters, visited) seeds).1,
               (foldl (clusterStep enemies d) (clusters, visited) seeds).2)).
  { induction seeds as [|seed seeds IH]; intros clusters visited; [done|].
    rewrite fmap_cons. cbn [foldl]. rewrite clusterStep_fmap by done.
    destruct (clusterStep enemies d (clusters, visited) seed) as [cs vs]; simpl.
    apply IH. }
  specialize (Hfold enemies [] ∅). simpl in Hfold. by rewrite Hfold.
Qed.

Lemma passClusters_fmap (f : E → E) (enemies : list E) :
  keepsPlace f →
  passClusters (f <$> enemies) = fmap (M:=list) f <$> passClusters enemies.
Proof.
  intros Hf. unfold passClusters. rewrite <- clusterEnemies_fmap by done.
  f_equal. induction enemies as [|e enemies IH]; [done|].
  destruct (Hf e) as (_ & _ & Halive & Hthrown).
  rewrite fmap_cons, !filter_cons, Halive, Hthrown.
  case_decide; by rewrite ?fmap_cons, IH.
Qed.

(** X6.  [clusterEnemies] leaves nobody out and puts nobody in twice: every
    cluster starts with its seed, an agent of the input, followed only by
    agents of the input that stand within the distance bound of the seed;
    the id of every agent of the input occurs in a cluster; and over all
    clusters no id occurs twice.  There are never more clusters than
    agents. *)
Theorem clusterEnemies_covers (enemies : list E) (d : Q) :
  (∀ cluster, cluster ∈ clusterEnemies enemies d →
     ∃ seed rest,
       cluster = seed :: rest
       ∧ seed ∈ enemies
       ∧ ∀ m, m ∈ rest →
           m ∈ enemies
           ∧ THREE.distanceTo_le (getPosition seed) (getPosition m) d = true)
  ∧ (∀ e, e ∈ enemies → getId e ∈ idsOf (concat (clusterEnemies enemies d)))
  ∧ NoDup (idsOf (concat (clusterEnemies enemies d)))
  ∧ (length (clusterEnemies enemies d) ≤ length enemies)%nat.
Proof.
  destruct (clusterEnemies_cover enemies d) as [Hseeded Hall].
  pose proof (clusterEnemies_NoDup enemies d) as Hnodup.
  split; [done|]. split; [done|]. split; [done|].
  (* one distinct seed id per cluster *)
  transitivity (length (idsOf (concat (clusterEnemies enemies d)))).
  - unfold idsOf. rewrite length_fmap.
    assert (Hne : ∀ cs : list (list E),
              (∀ c, c ∈ cs → c ≠ []) → (length cs ≤ length (concat cs))%nat).
    { induction cs as [|c cs IH]; intros Hcs; simpl; [lia|].
      rewrite length_app.
      assert (c ≠ []) by (apply Hcs; by left).
      assert (length cs ≤ length (concat cs))%nat
        by (apply IH; intros c' Hc'; apply Hcs; by right).
      destruct c; [done|simpl; lia]. }
    apply Hne. intros c Hc. by destruct (Hseeded c Hc) as (seed & rest & -> & _).
  - assert (Hsub : idsOf (concat (clusterEnemies enemies d)) ⊆ idsOf enemies).
    { intros x (m & -> & Hm)%list_elem_of_fmap.
      apply list_elem_of_In, in_concat in Hm as (c & Hc & Hm).
      apply list_elem_of_In in Hc, Hm.
      destruct (Hseeded c Hc) as (seed & rest & -> & Hseed & Hrest).
      apply list_elem_of_fmap_2.
      apply elem_of_cons in Hm as [->|Hm]; [done|by apply Hrest]. }
    rewrite <- (length_fmap getId enemies).
    by apply submseteq_length, NoDup_submseteq.
Qed.

(** X7.  When the agents of the input have distinct ids, the clusters taken
    together are a rearrangement of the input: [clusterEnemies] is a
    partition of the squad. *)
Theorem clusterEnemies_partition (enemies : list E) (d : Q) :
  NoDup (idsOf enemies) →
  concat (clusterEnemies enemies d) ≡ₚ enemies.
Proof.
  intros Hids.
  destruct (clusterEnemies_cover enemies d) as [Hseeded Hall].
  pose proof (clusterEnemies_NoDup enemies d) as Hnodup.
  assert (Hsub : ∀ m, m ∈ concat (clusterEnemies enemies d) → m ∈ enemies).
  { intros m Hm. apply list_elem_of_In, in_concat in Hm as (c & Hc & Hm).
    apply list_elem_of_In in Hc, Hm.
    destruct (Hseeded c Hc) as (seed & rest & -> & Hseed & Hrest).
    apply elem_of_cons in Hm as [->|Hm]; [done|by apply Hrest]. }
  assert (Hinj : ∀ a b, a ∈ enemies → b ∈ enemies → getId a = getId b → a = b).
  { intros a b [i Ha]%list_elem_of_lookup [j Hb]%list_elem_of_lookup Hab.
    assert (Hij : i = j); [|subst; congruence].
    eapply (NoDup_lookup _ i j (getId a) Hids); unfold idsOf;
      rewrite list_lookup_fmap; [by rewrite Ha|by rewrite Hb, Hab]. }
  apply NoDup_Permutation.
  - unfold idsOf in Hnodup. by apply NoDup_fmap_1 in Hnodup.
  - unfold idsOf in Hids. by apply NoDup_fmap_1 in Hids.
  - intros e. split; [apply Hsub|]. intros He.
    pose proof (Hall e He) as (m & Hid & Hm)%list_elem_of_fmap.
    by rewrite (Hinj e m He (Hsub m Hm) Hid).
Qed.

End ClusterCover.

Section ClusterCoverSamples.
Import AICoordinator.

Lemma clusterEnemies_partition_witness :
  concat (clusterEnemies sampleSquad 12) ≡ₚ sampleSquad.
Proof. apply (clusterEnemies_partition sampleSquad 12), sampleSquad_ids. Defined.

End ClusterCoverSamples.

(** ** The records of a pass *)

Section FormationRecords.
Import EnemyApi AICoordinator.
Context {E : Type} {enemyApi : EnemyLike E}.

Lemma formGroups_fields (now : Z) (p : Vector3) (entries : list (nat * list E))
    (c0 : t) (handled : list (list E)) :
  let r := foldl (formGroup now p) (c0, handled) entries in
  alertNetwork r.1 = alertNetwork c0
  ∧ lastFormationUpdate r.1 = lastFormationUpdate c0
  ∧ pendingDecays r.1 = pendingDecays c0.
Proof.
  revert c0 handled.
  induction entries as [|[index group] entries IH]; intros c0 handled; [done|].
  cbn [foldl]. rewrite formGroup_eq.
  destruct (reduce pickLeader group) as [leader|]; [|apply IH].
  case_bool_decide; [|apply IH].
  match goal with
  | |- context [foldl _ (?c1, ?h1) entries] => destruct (IH c1 h1) as (-> & -> & ->)
  end.
  done.
Qed.

(** X8.  A pass of [updateFormations] that is not throttled stamps the
    coordinator with the time of the call and leaves the alert network, the
    threat level and the pending timers alone.  Every formation it stores
    is filed under its own id [formation_<i>], [i] the index of a cluster
    of the pass; its leader is one of its members; its target is the
    player position and its time stamp the time of the call; its type is
    scatter when the threat level is above 70, and otherwise follows the
    number of members: surround from 4 on, pincer for 3, line for 2. *)
Theorem updateFormations_records (now : Z) (enemies : list E) (p : Vector3) (c : t) :
  2000 ≤ now - lastFormationUpdate c →
  let c' := (updateFormations now enemies p c).1 in
  lastFormationUpdate c' = now
  ∧ alertNetwork c' = alertNetwork c
  ∧ playerThreatLevel c' = playerThreatLevel c
  ∧ pendingDecays c' = pendingDecays c
  ∧ ∀ key f, formations c' !! key = Some f →
      FormationGroup.id f = key
      ∧ (∃ i, key = formationIdOf i ∧ (i < length (passClusters enemies))%nat)
      ∧ FormationGroup.leader f ∈ FormationGroup.members f
      ∧ (2 ≤ length (FormationGroup.members f))%nat
      ∧ FormationGroup.targetPosition f = p
      ∧ FormationGroup.lastUpdate f = now
      ∧ FormationGroup.formationType f
        = (if bool_decide (70 < playerThreatLevel c) then Scatter
           else if bool_decide (4 ≤ length (FormationGroup.members f))%nat
                then Surround
           else if bool_decide (length (FormationGroup.members f) = 3%nat)
                then Pincer
           else Line).
Proof.
  intros Hdue. rewrite updateFormations_runs by done.
  set (c0 := mk ∅ (alertNetwork c) now (playerThreatLevel c) (pendingDecays c)).
  destruct (formGroups_fields now p (imap pair (passClusters enemies)) c0 [])
    as (Hnet & Hlast & Hpending).
  destruct (formGroups_spec now p c0 (passClusters enemies))
    as (Hthreat & _ & Horigin & _).
  cbv zeta. split; [by rewrite Hlast|]. split; [by rewrite Hnet|].
  split; [by rewrite Hthreat|]. split; [by rewrite Hpending|].
  intros key f Hf.
  destruct (Horigin key f Hf) as [Hold|(i & group & leader & Hi & Hlen & Hred & -> & ->)];
    [done|].
  apply reduce_pickLeader in Hred as [Hleader _].
  unfold formationOf, selectFormationType, idsOf; simpl.
  rewrite length_fmap.
  split; [done|]. split; [exists i; split; [done|by eapply lookup_lt_Some]|].
  split; [by apply list_elem_of_fmap_2|]. done.
Qed.

End FormationRecords.

Section FormationRecordsSamples.
Import AICoordinator.

Lemma updateFormations_records_witness :
  lastFormationUpdate (updateFormations 5000 sampleSquad (worldPoint 0 0 0) new).1
  = 5000.
Proof.
  apply (updateFormations_records 5000 sampleSquad (worldPoint 0 0 0) new).
  simpl. lia.
Defined.

End FormationRecordsSamples.

(** ** Alerts sent by the coordinator *)

Section Alerts.
Import AICoordinator.

Lemma receiveAlert_keepsPlace (alerterId : string) (position : Vector3) :
  keepsPlace (Enemy.receiveAlert alerterId position).
Proof. by intros e. Qed.

Lemma setFormationRole_keepsPlace (role : FormationRole) (formationId : string) :
  keepsPlace (Enemy.setFormationRole role formationId).
Proof. by intros e. Qed.

(** X9.  What [alertNearbyEnemies] does to a squad of enemies: the squad
    keeps its length and order, and every agent its id, position and
    health.  An agent other than the alerter that is alive and within 15
    units of the alert position receives the alert: it records the alerter
    and the position, restarts its move timer and gains 30 alert points, up
    to 100.  The alerter itself, a dead agent and an agent further away are
    left exactly as they were: an alert is not passed on. *)
Theorem alertNearbyEnemies_effect (alerterId : string) (position : Vector3)
    (enemies : list Enemy.t) :
  let after := alertNearbyEnemies alerterId position enemies in
  length after = length enemies
  ∧ ∀ i e, enemies !! i = Some e →
      ∃ e', after !! i = Some e'
        ∧ Enemy.id e' = Enemy.id e
        ∧ Enemy.position e' = Enemy.position e
        ∧ Enemy.health e' = Enemy.health e
        ∧ (Enemy.id e ≠ alerterId → Enemy.isAlive e = true →
           THREE.distanceTo_le (Enemy.position e) position 15 = true →
           e' = Enemy.receiveAlert alerterId position e
           ∧ AIState.alertedBy (Enemy.aiState e') = Some alerterId
           ∧ AIState.lastKnownPlayerPosition (Enemy.aiState e') = Some position
           ∧ Enemy.moveTimer e' = 0
           ∧ AIState.alertLevel (Enemy.aiState e')
             = Z.min 100 (AIState.alertLevel (Enemy.aiState e) + 30))
        ∧ (Enemy.id e = alerterId ∨ Enemy.isAlive e = false
           ∨ THREE.distanceTo_le (Enemy.position e) position 15 = false →
           e' = e).
Proof.
  cbv zeta. unfold alertNearbyEnemies. split; [by rewrite length_fmap|].
  intros i e He. rewrite list_lookup_fmap, He; simpl.
  eexists. split; [done|].
  unfold Enemy.getId, Enemy.getPosition. change alertRadius with 15%Q.
  case_bool_decide as Hid; simpl;
    [destruct (Enemy.isAlive e) eqn:Halive; simpl;
     [destruct (THREE.distanceTo_le (Enemy.position e) position 15) eqn:Hnear|]|];
    (do 3 (split; [done|]));
    (split; [intros ? ? ?; try done|intros [?|[?|?]]; try done; congruence]).
Qed.

(** X10.  Alerts and role assignments do not move anybody between
    clusters: the clusters [updateFormations] works on for an alerted squad
    are the clusters of the squad before the alert, with the same agents at
    the same places, each as the alert left it.  The same holds for any
    update of the agents that keeps ids, positions, the alive test and the
    thrown flag, such as [setFormationRole]. *)
Theorem alerts_keep_clusters (alerterId : string) (position : Vector3)
    (role : FormationRole) (formationId : string) (enemies : list Enemy.t) :
  passClusters (alertNearbyEnemies alerterId position enemies)
  = alertNearbyEnemies alerterId position <$> passClusters enemies
  ∧ idsOf <$> passClusters (alertNearbyEnemies alerterId position enemies)
    = idsOf <$> passClusters enemies
  ∧ passClusters (Enemy.setFormationRole role formationId <$> enemies)
    = fmap (M:=list) (Enemy.setFormationRole role formationId)
        <$> passClusters enemies.
Proof.
  assert (Hkeeps : keepsPlace (λ enemy : Enemy.t,
            if bool_decide (EnemyApi.getId enemy ≠ alerterId)
               && EnemyApi.isAlive enemy
            then if THREE.distanceTo_le (EnemyApi.getPosition enemy) position
                      alertRadius
                 then EnemyApi.receiveAlert alerterId position enemy
                 else enemy
            else enemy)).
  { intros e. destruct (_ && _); [|done]. by destruct (THREE.distanceTo_le _ _ _). }
  assert (Hclusters : passClusters (alertNearbyEnemies alerterId position enemies)
            = alertNearbyEnemies alerterId position <$> passClusters enemies)
    by apply (passClusters_fmap _ enemies Hkeeps).
  split; [done|]. split.
  - rewrite Hclusters, <- list_fmap_compose. apply list_fmap_ext.
    intros _ cluster _. simpl. unfold idsOf, alertNearbyEnemies.
    rewrite <- list_fmap_compose. apply list_fmap_ext.
    intros _ e _. simpl. apply Hkeeps.
  - apply passClusters_fmap, setFormationRole_keepsPlace.
Qed.

End Alerts.

(** ** Health *)

Section Health.

Lemma Qmax_0_nonneg (q : Q) : (0 <= Enemy.Qmax 0 q)%Q.
Proof.
  unfold Enemy.Qmax. destruct (Qle_bool 0 q) eqn:Hq; [by apply Qle_bool_iff|].
  apply Qle_refl.
Qed.

Lemma Qmax_0_le (q h : Q) : (0 <= h)%Q → (q <= h)%Q → (Enemy.Qmax 0 q <= h)%Q.
Proof. intros Hh Hq. unfold Enemy.Qmax. by destruct (Qle_bool 0 q). Qed.

Lemma damageTaken_nonneg (amount : Q) (fromFront : bool) (e : Enemy.t) :
  (0 <= amount)%Q → (0 <= damageTaken amount fromFront e)%Q.
Proof.
  intros Ha. unfold damageTaken. destruct (_ && _); [|done].
  apply Qmult_le_0_compat; [done|]. unfold Qle; simpl; lia.
Qed.

(** [takeDamage] unfolded on the fields it writes. *)
Lemma takeDamage_fields (amount : Q) (fromFront : bool) (now : Z)
    (e : Enemy.t) (c : AICoordinator.t) :
  let h := Enemy.Qmax 0 (Enemy.health e - damageTaken amount fromFront e) in
  let blows := bool_decide (Enemy.type e = Enemy.exploder)
               && Qle_bool h (Enemy.maxHealth e * (3 # 10))
               && negb (Enemy.explosionTriggered e) in
  let e' := (Enemy.takeDamage amount fromFront now (e, c)).1 in
  Enemy.health e' = (if blows then 0%Q else h)
  ∧ Enemy.explosionTriggered e' = blows || Enemy.explosionTriggered e
  ∧ Enemy.id e' = Enemy.id e
  ∧ Enemy.type e' = Enemy.type e
  ∧ Enemy.maxHealth e' = Enemy.maxHealth e
  ∧ Enemy.position e' = Enemy.position e
  ∧ Enemy.isThrown e' = Enemy.isThrown e
  ∧ Enemy.throwVelocity e' = Enemy.throwVelocity e
  ∧ Enemy.shieldActive e' = Enemy.shieldActive e
  ∧ AIState.coverPosition (Enemy.aiState e') = None
  ∧ AIState.lastDamageTime (Enemy.aiState e') = now
  ∧ Enemy.stuckCheckTimer e' = Enemy.stuckCheckTimer e.
Proof.
  cbv zeta. unfold Enemy.takeDamage, damageTaken, Enemy.config; simpl.
  destruct (Enemy.Config.hasShield (Enemy.ENEMY_CONFIGS (Enemy.type e))
            && Enemy.shieldActive e && fromFront); simpl;
    (destruct (bool_decide (Enemy.type e = Enemy.exploder)
               && Qle_bool _ (Enemy.maxHealth e * (3 # 10))
               && negb (Enemy.explosionTriggered e)) eqn:Hblow; simpl;
     [apply andb_true_iff in Hblow as [_ Hfresh];
      apply negb_true_iff in Hfresh; unfold Enemy.explode; simpl;
      rewrite Hfresh; simpl; done
     |done]).
Qed.

End Health.

Section HealthClaims.

(** X11.  What a hit does to the health of an enemy, for an amount that is
    not negative and an enemy whose health is not negative: the health
    stays between 0 and what it was; only a shielded enemy hit from the
    front with its shield up is protected, and it loses one fifth of the
    amount; an enemy that is still alive afterwards has lost exactly the
    amount taken; an exploder that has not blown up yet never stays at or
    below 30% of its full health (a number that is not negative): it blows
    up at once, which leaves it dead; an enemy of another type never blows up.  The hit clears the
    cover position and records the time, and it changes neither the
    position nor the thrown flag. *)
Theorem takeDamage_health (amount : Q) (fromFront : bool) (now : Z)
    (e : Enemy.t) (c : AICoordinator.t) :
  (0 <= amount)%Q → (0 <= Enemy.health e)%Q →
  let e' := (Enemy.takeDamage amount fromFront now (e, c)).1 in
  (0 <= Enemy.health e' <= Enemy.health e)%Q
  ∧ (damageTaken amount fromFront e
     = if bool_decide (Enemy.type e = Enemy.shielded)
          && Enemy.shieldActive e && fromFront
       then (amount * (2 # 10))%Q else amount)
  ∧ (Enemy.isAlive e' = true →
     Enemy.health e' = (Enemy.health e - damageTaken amount fromFront e)%Q)
  ∧ (Enemy.type e = Enemy.exploder → Enemy.explosionTriggered e = false →
     (0 <= Enemy.maxHealth e)%Q →
     (Enemy.health e - damageTaken amount fromFront e
      <= Enemy.maxHealth e * (3 # 10))%Q →
     Enemy.explosionTriggered e' = true ∧ Enemy.isAlive e' = false)
  ∧ (Enemy.type e ≠ Enemy.exploder →
     Enemy.explosionTriggered e' = Enemy.explosionTriggered e)
  ∧ AIState.coverPosition (Enemy.aiState e') = None
  ∧ AIState.lastDamageTime (Enemy.aiState e') = now
  ∧ Enemy.position e' = Enemy.position e
  ∧ Enemy.isThrown e' = Enemy.isThrown e.
Proof.
  intros Hamount Hhealth.
  destruct (takeDamage_fields amount fromFront now e c)
    as (Hh & Htrig & _ & _ & _ & Hpos & Hthrown & _ & _ & Hcover & Htime & _).
  cbv zeta in *.
  set (e' := (Enemy.takeDamage amount fromFront now (e, c)).1) in *.
  set (q := (Enemy.health e - damageTaken amount fromFront e)%Q) in *.
  pose proof (damageTaken_nonneg amount fromFront e Hamount) as Hd.
  assert (Hq : (q <= Enemy.health e)%Q).
  { unfold q. rewrite <- (Qplus_0_r (Enemy.health e)) at 2.
    apply Qplus_le_compat; [apply Qle_refl|].
    apply (Qopp_le_compat 0). done. }
  split; [|split; [|split; [|split; [|split]]]].
  - rewrite Hh. destruct (_ && _ && _).
    + split; [apply Qle_refl|done].
    + split; [apply Qmax_0_nonneg|by apply Qmax_0_le].
  - unfold damageTaken, Enemy.config. by destruct (Enemy.type e).
  - unfold Enemy.isAlive. rewrite Hh. destruct (_ && _ && _); [done|].
    unfold Enemy.Qmax. by destruct (Qle_bool 0 q).
  - intros Htype Hfresh Hmax Hlow. rewrite Htrig, Hfresh.
    unfold Enemy.isAlive. rewrite Hh, Hfresh.
    rewrite bool_decide_eq_true_2 by done.
    assert (Hblow : Qle_bool (Enemy.Qmax 0 q) (Enemy.maxHealth e * (3 # 10)) = true).
    { apply Qle_bool_iff. unfold Enemy.Qmax.
      destruct (Qle_bool 0 q) eqn:H0q; [done|].
      apply Qmult_le_0_compat; [done|]. unfold Qle; simpl; lia. }
    rewrite Hblow. done.
  - intros Htype. rewrite Htrig. by rewrite bool_decide_eq_false_2 by done.
  - done.
Qed.

Lemma takeDamage_health_witness :
  Enemy.health (Enemy.takeDamage 35 true 1000 (sampleShielded, AICoordinator.new)).1
  = (220 - 35 * (2 # 10))%Q.
Proof.
  apply (takeDamage_health 35 true 1000 sampleShielded AICoordinator.new);
    [unfold Qle; simpl; lia..|reflexivity].
Defined.

End HealthClaims.

(** ** Landing and flight *)

Section Landing.
Variable ring : list (Q * Q).
Variables random1 random2 : Q.

Lemma sameBody_refl (e : Enemy.t) : sameBody e e.
Proof. by repeat split. Qed.

Lemma sameBody_trans (a b c : Enemy.t) : sameBody a b → sameBody b c → sameBody a c.
Proof. unfold sameBody. intros Hab Hbc. destruct_and!. repeat split; congruence. Qed.

Lemma Qclamp_bounds (q : Q) :
  (-24 <= Enemy.Qmax (-24) (Enemy.Qmin 24 q) <= 24)%Q.
Proof.
  unfold Enemy.Qmax, Enemy.Qmin.
  destruct (Qle_bool 24 q) eqn:Hhi.
  - simpl. split; unfold Qle; simpl; lia.
  - destruct (Qle_bool (-24) q) eqn:Hlo.
    + apply Qle_bool_iff in Hlo. split; [done|].
      apply Qnot_lt_le. intros Hlt. apply Qlt_le_weak, Qle_bool_iff in Hlt.
      congruence.
    + split; unfold Qle; simpl; lia.
Qed.

Lemma Qclamp_inside (q : Q) :
  (-24 <= q)%Q → (q < 24)%Q → Enemy.Qmax (-24) (Enemy.Qmin 24 q) = q.
Proof.
  intros Hlo Hhi. unfold Enemy.Qmax, Enemy.Qmin.
  destruct (Qle_bool 24 q) eqn:H24.
  - apply Qle_bool_iff in H24. by apply Qle_not_lt in H24.
  - apply Qle_bool_iff in Hlo. by rewrite Hlo.
Qed.

(** [findSafeLandingPosition] as a scan of [landingCandidates]. *)
Lemma findSafeLandingPosition_eq (check : Vector3 → Q → Q → bool) (e : Enemy.t) :
  Enemy.findSafeLandingPosition ring random1 random2
    (Some (Level.mk (Some check))) e
  = match list_find (λ p, check p (enemyRadius e) (enemyHeight e) = false)
            (landingCandidates ring e) with
    | Some (_, testPosition) => Enemy.set_position testPosition e
    | None =>
        Enemy.set_position
          (THREE.mkVector3
             (Enemy.Qmax (-24) (Enemy.Qmin 24 ((random1 - (1 # 2)) * 20)))
             (Enemy.restingHeight e)
             (Enemy.Qmax (-24) (Enemy.Qmin 24 ((random2 - (1 # 2)) * 20))))
          e
    end.
Proof. done. Qed.

Lemma findSafeLandingPosition_moves (level : option Level.t) (e : Enemy.t) :
  ∃ p, Enemy.findSafeLandingPosition ring random1 random2 level e
       = Enemy.set_position p e.
Proof.
  unfold Enemy.findSafeLandingPosition.
  destruct (level ≫= Level.checkCollision) as [check|];
    [|exists (Enemy.position e); by destruct e].
  destruct (list_find _ _) as [[i p]|]; by eexists.
Qed.

Lemma findSafeLandingPosition_sameBody (level : option Level.t) (e : Enemy.t) :
  let e' := Enemy.findSafeLandingPosition ring random1 random2 level e in
  sameBody e e'
  ∧ Enemy.isThrown e' = Enemy.isThrown e
  ∧ Enemy.throwVelocity e' = Enemy.throwVelocity e
  ∧ Enemy.stuckCheckTimer e' = Enemy.stuckCheckTimer e
  ∧ Enemy.lastPosition e' = Enemy.lastPosition e.
Proof.
  cbv zeta. destruct (findSafeLandingPosition_moves level e) as [p ->].
  by repeat split.
Qed.

(** The landing place as the scan of [landingCandidates] finds it. *)
Lemma findSafeLandingPosition_scan (level : option Level.t) (e : Enemy.t) :
  let e' := Enemy.findSafeLandingPosition ring random1 random2 level e in
  e' = Enemy.set_position (Enemy.position e') e
  ∧ (level ≫= Level.checkCollision = None → e' = e)
  ∧ ∀ check, level ≫= Level.checkCollision = Some check →
      THREE.y (Enemy.position e') = Enemy.restingHeight e
      ∧ ((∃ i, landingCandidates ring e !! i = Some (Enemy.position e')
               ∧ check (Enemy.position e') (enemyRadius e) (enemyHeight e) = false
               ∧ ∀ j p, (j < i)%nat → landingCandidates ring e !! j = Some p →
                   check p (enemyRadius e) (enemyHeight e) = true)
         ∨ ((∀ p, p ∈ landingCandidates ring e →
               check p (enemyRadius e) (enemyHeight e) = true)
            ∧ (-24 <= THREE.x (Enemy.position e') <= 24)%Q
            ∧ (-24 <= THREE.z (Enemy.position e') <= 24)%Q
            ∧ ((0 <= random1)%Q → (random1 < 1)%Q →
               THREE.x (Enemy.position e') = ((random1 - (1 # 2)) * 20)%Q)
            ∧ ((0 <= random2)%Q → (random2 < 1)%Q →
               THREE.z (Enemy.position e') = ((random2 - (1 # 2)) * 20)%Q))).
Proof.
  cbv zeta. split; [|split].
  - destruct (findSafeLandingPosition_moves level e) as [p ->]. done.
  - unfold Enemy.findSafeLandingPosition. by intros ->.
  - intros check Hcheck. unfold Enemy.findSafeLandingPosition. rewrite Hcheck.
    fold (enemyRadius e) (enemyHeight e). fold (landingCandidates ring e).
    destruct (list_find _ _) as [[i p]|] eqn:Hfind.
    + apply list_find_Some in Hfind as (Hi & Hfree & Hbefore). simpl.
      split.
      * unfold landingCandidates in Hi.
        apply list_elem_of_lookup_2 in Hi.
        apply list_elem_of_bind in Hi as (radius & Hi & _).
        apply list_elem_of_bind in Hi as ([c s] & Hi & _).
        by apply list_elem_of_singleton in Hi as ->.
      * left. exists i. split; [done|]. split; [done|].
        intros j q Hj Hq. specialize (Hbefore j q Hq Hj).
        by destruct (check q (enemyRadius e) (enemyHeight e)).
    + simpl. split; [done|]. right. split; [|split; [|split; [|split]]].
      * intros p Hp. apply list_find_None in Hfind.
        rewrite Forall_forall in Hfind. specialize (Hfind p Hp).
        by destruct (check p (enemyRadius e) (enemyHeight e)).
      * apply Qclamp_bounds.
      * apply Qclamp_bounds.
      * intros Hlo Hhi. apply Qclamp_inside.
        -- apply Qle_trans with ((0 - (1 # 2)) * 20)%Q; [unfold Qle; simpl; lia|].
           apply Qmult_le_compat_r; [|unfold Qle; simpl; lia].
           apply Qplus_le_compat; [done|apply Qle_refl].
        -- apply Qlt_le_trans with ((1 - (1 # 2)) * 20)%Q; [|unfold Qle; simpl; lia].
           apply Qmult_lt_compat_r; [reflexivity|].
           apply Qplus_lt_le_compat; [done|apply Qle_refl].
      * intros Hlo Hhi. apply Qclamp_inside.
        -- apply Qle_trans with ((0 - (1 # 2)) * 20)%Q; [unfold Qle; simpl; lia|].
           apply Qmult_le_compat_r; [|unfold Qle; simpl; lia].
           apply Qplus_le_compat; [done|apply Qle_refl].
        -- apply Qlt_le_trans with ((1 - (1 # 2)) * 20)%Q; [|unfold Qle; simpl; lia].
           apply Qmult_lt_compat_r; [reflexivity|].
           apply Qplus_lt_le_compat; [done|apply Qle_refl].
Qed.

(** X12.  Where [findSafeLandingPosition] puts an enemy.  Only the position
    changes.  Without a collision test nothing changes.  With one, the
    enemy ends at its resting height (its flying height for a drone, 0.1
    otherwise), and either at the first position of the scan that is free,
    every position scanned before it being in collision, or, when all the
    positions of the scan collide, at the random fallback, which is kept
    within 24 units of the centre on both axes and is not tested for a
    collision; for random numbers in [0, 1) the fallback lies within 10
    units of the centre. *)
Theorem findSafeLandingPosition_lands (level : option Level.t) (e : Enemy.t) :
  let e' := Enemy.findSafeLandingPosition ring random1 random2 level e in
  e' = Enemy.set_position (Enemy.position e') e
  ∧ (level ≫= Level.checkCollision = None → e' = e)
  ∧ ∀ check, level ≫= Level.checkCollision = Some check →
      THREE.y (Enemy.position e') = Enemy.restingHeight e
      ∧ ((∃ i, landingCandidates ring e !! i = Some (Enemy.position e')
               ∧ check (Enemy.position e') (enemyRadius e) (enemyHeight e) = false
               ∧ ∀ j p, (j < i)%nat → landingCandidates ring e !! j = Some p →
                   check p (enemyRadius e) (enemyHeight e) = true)
         ∨ ((∀ p, p ∈ landingCandidates ring e →
               check p (enemyRadius e) (enemyHeight e) = true)
            ∧ (-24 <= THREE.x (Enemy.position e') <= 24)%Q
            ∧ (-24 <= THREE.z (Enemy.position e') <= 24)%Q
            ∧ ((0 <= random1)%Q → (random1 < 1)%Q →
               THREE.x (Enemy.position e') = ((random1 - (1 # 2)) * 20)%Q)
            ∧ ((0 <= random2)%Q → (random2 < 1)%Q →
               THREE.z (Enemy.position e') = ((random2 - (1 # 2)) * 20)%Q))).
Proof. exact (findSafeLandingPosition_scan level e). Qed.

(** The two exits of the first part of [handleThrowPhysics]. *)
Lemma throwMove_stuck (level : option Level.t) (e e1 : Enemy.t) :
  Enemy.throwMove ring random1 random2 level e = inl e1 →
  sameBody e e1
  ∧ Enemy.isThrown e1 = false
  ∧ Enemy.throwVelocity e1 = THREE.mkVector3 0%Q 0%Q 0%Q
  ∧ Enemy.stuckCheckTimer e1 = 0
  ∧ THREE.y (Enemy.position e1) = Enemy.restingHeight e.
Proof.
  unfold Enemy.throwMove. cbv zeta.
  case_bool_decide; [|done]. destruct (_ && _); [|done]. intros [= <-].
  match goal with
  | |- context [Enemy.findSafeLandingPosition _ _ _ _ ?e0] =>
      pose proof (findSafeLandingPosition_sameBody level e0) as Hbody;
      pose proof (findSafeLandingPosition_scan level e0) as (_ & Hnone & Hsome)
  end.
  cbv zeta in Hbody, Hnone, Hsome.
  destruct Hbody as (Hbody & Hthrown & Hvel & _).
  split; [|split; [|split; [|split]]].
  - unfold sameBody in *. simpl in *. destruct_and!. by repeat split.
  - simpl. by rewrite Hthrown.
  - simpl. by rewrite Hvel.
  - done.
  - simpl. destruct (level ≫= Level.checkCollision) as [check|] eqn:Hcheck.
    + by destruct (Hsome check eq_refl) as [-> _].
    + by rewrite (Hnone eq_refl).
Qed.

Lemma throwMove_flies (level : option Level.t) (e e1 : Enemy.t) :
  Enemy.throwMove ring random1 random2 level e = inr e1 →
  sameBody e e1
  ∧ Enemy.isThrown e1 = Enemy.isThrown e
  ∧ Enemy.position e1 = THREE.add (Enemy.position e) (Enemy.throwVelocity e).
Proof.
  unfold Enemy.throwMove. cbv zeta.
  case_bool_decide; [destruct (_ && _); [done|]|]; by intros [= <-].
Qed.

Lemma afterCollision_sameBody (level : option Level.t) (old : Vector3) (e : Enemy.t) :
  let e' := Enemy.afterCollision ring random1 random2 level old e in
  sameBody e e' ∧ Enemy.isThrown e' = Enemy.isThrown e.
Proof.
  cbv zeta. unfold Enemy.afterCollision. destruct (Enemy.collides level e); [|done].
  destruct (findSafeLandingPosition_sameBody level (Enemy.set_position old e))
    as (Hbody & Hthrown & _).
  cbv zeta in *. split; [|done].
  unfold sameBody in *. simpl in *. done.
Qed.

End Landing.

Section ThrowPhysics.

(** X13.  A frame of [handleThrowPhysics] on a thrown enemy ends in one of
    three ways.  The enemy is still in flight: nothing but its motion has
    changed and the coordinator has not been called.  The enemy has been
    released because it was stuck: it rests at its resting height with no
    velocity, its health is untouched and the coordinator has not been
    called.  Or the enemy has landed: it has been put at height 0.1, or at
    its resting height when the landing spot collided, with no velocity, and
    then [takeDamage(30)] has run on it, so that the coordinator has counted
    one damage event.  In the last two cases the stuck timer is back to 0.
    The id, the type and the full health never change. *)
Theorem handleThrowPhysics_outcomes (ring : list (Q * Q)) (random1 random2 : Q)
    (level : option Level.t) (now : Z) (e : Enemy.t) (c : AICoordinator.t) :
  Enemy.isThrown e = true →
  let r := Enemy.handleThrowPhysics ring random1 random2 level now (e, c) in
  Enemy.id r.1 = Enemy.id e
  ∧ Enemy.type r.1 = Enemy.type e
  ∧ Enemy.maxHealth r.1 = Enemy.maxHealth e
  ∧ (Enemy.isThrown r.1 = true → r.2 = c ∧ sameBody e r.1)
  ∧ (Enemy.isThrown r.1 = false →
     Enemy.throwVelocity r.1 = THREE.mkVector3 0%Q 0%Q 0%Q
     ∧ Enemy.stuckCheckTimer r.1 = 0
     ∧ (THREE.y (Enemy.position r.1) = Enemy.groundLevel
        ∨ THREE.y (Enemy.position r.1) = Enemy.restingHeight e)
     ∧ ((r.2 = c ∧ sameBody e r.1)
        ∨ (r.2 = AICoordinator.updatePlayerThreatLevel Damage c
           ∧ ∃ e2, sameBody e e2
                   ∧ r = Enemy.takeDamage 30 true now (e2, c)))).
Proof.
  intros Hthrown. cbv zeta. unfold Enemy.handleThrowPhysics.
  destruct (Enemy.throwMove ring random1 random2 level e) as [e1|e1] eqn:Hmove.
  - apply throwMove_stuck in Hmove as (Hbody & Hstop & Hvel & Htimer & Hy). simpl.
    pose proof Hbody as (Hid & Htype & _ & Hmax & _).
    split; [done|]. split; [done|]. split; [done|].
    split; [by rewrite Hstop|]. intros _.
    split; [done|]. split; [done|]. split; [by right|]. by left.
  - apply throwMove_flies in Hmove as (Hbody & Hsame & _).
    destruct (afterCollision_sameBody ring random1 random2 level (Enemy.position e) e1)
      as [Hbody' Hsame'].
    cbv zeta in Hbody', Hsame'.
    set (e2 := Enemy.afterCollision ring random1 random2 level (Enemy.position e) e1) in *.
    pose proof (sameBody_trans _ _ _ Hbody Hbody') as Hbody2.
    destruct (Qle_bool (THREE.y (Enemy.position e2)) Enemy.groundLevel) eqn:Hground.
    + set (e3 := Enemy.set_stuckCheckTimer 0 _).
      set (e4 := if Enemy.collides level e3
                 then Enemy.findSafeLandingPosition ring random1 random2 level e3
                 else e3).
      assert (Hbody3 : sameBody e e3).
      { unfold sameBody in *. simpl. done. }
      assert (He4 : sameBody e3 e4
                    ∧ Enemy.isThrown e4 = false
                    ∧ Enemy.throwVelocity e4 = THREE.mkVector3 0%Q 0%Q 0%Q
                    ∧ Enemy.stuckCheckTimer e4 = 0
                    ∧ (THREE.y (Enemy.position e4) = Enemy.groundLevel
                       ∨ THREE.y (Enemy.position e4) = Enemy.restingHeight e)).
      { unfold e4. destruct (Enemy.collides level e3) eqn:Hcol.
        - destruct (findSafeLandingPosition_sameBody ring random1 random2 level e3)
            as (Hb & Ht & Hv & Hs & _).
          cbv zeta in *. rewrite Ht, Hv, Hs.
          split; [done|]. split; [done|]. split; [done|]. split; [done|].
          right. unfold Enemy.collides in Hcol.
          destruct (level ≫= Level.checkCollision) as [check|] eqn:Hcheck; [|done].
          destruct (findSafeLandingPosition_scan ring random1 random2 level e3)
            as (_ & _ & Hsome).
          destruct (Hsome check Hcheck) as [-> _].
          unfold Enemy.restingHeight, Enemy.config.
          destruct Hbody3 as (_ & -> & _ & _ & _ & -> & _). done.
        - split; [apply sameBody_refl|]. split; [done|]. split; [done|].
          split; [done|]. by left. }
      destruct He4 as (Hbody4 & Hstop4 & Hvel4 & Htimer4 & Hy4).
      pose proof (sameBody_trans _ _ _ Hbody3 Hbody4) as Hbody5.
      destruct (takeDamage_fields 30 true now e4 c)
        as (_ & _ & Hid & Htype & Hmax & Hpos & Hthr & Hv & _ & _ & _ & Hst).
      cbv zeta in *.
      pose proof Hbody5 as (Hid5 & Htype5 & _ & Hmax5 & _).
      split; [congruence|]. split; [congruence|]. split; [congruence|].
      split; [rewrite Hthr, Hstop4; done|]. intros _.
      split; [congruence|]. split; [congruence|].
      split; [by rewrite Hpos|]. right. split; [done|]. by exists e4.
    + simpl. pose proof Hbody2 as (Hid & Htype & _ & Hmax & _).
      split; [done|]. split; [done|]. split; [done|].
      split; [done|]. rewrite Hsame', Hsame, Hthrown. done.
Qed.

Lemma handleThrowPhysics_outcomes_witness :
  Enemy.throwVelocity
    (Enemy.handleThrowPhysics [] 0 0 None 1000 (thrownEnemy, AICoordinator.new)).1
  = THREE.mkVector3 0%Q 0%Q 0%Q.
Proof.
  apply (handleThrowPhysics_outcomes [] 0 0 None 1000 thrownEnemy AICoordinator.new);
    reflexivity.
Defined.

End ThrowPhysics.

(** ** Explosions *)

Section Explosions.
Import Game.

Lemma explode_dead (e : Enemy.t) :
  explodedDead e → explodedDead (Enemy.explode e).
Proof.
  unfold explodedDead, Enemy.explode.
  destruct (Enemy.explosionTriggered e) eqn:Htrig; [by rewrite Htrig|done].
Qed.

Lemma takeDamage_dead (amount : Q) (fromFront : bool) (now : Z)
    (e : Enemy.t) (c : AICoordinator.t) :
  (0 <= amount)%Q → explodedDead e →
  explodedDead (Enemy.takeDamage amount fromFront now (e, c)).1.
Proof.
  intros Hamount Hdead.
  destruct (takeDamage_fields amount fromFront now e c) as (Hh & Htrig & _).
  cbv zeta in *. unfold explodedDead, Enemy.isAlive in *.
  rewrite Hh, Htrig.
  destruct (_ && _ && _) eqn:Hblow; [done|]. simpl. intros Hwas.
  specialize (Hdead Hwas). apply negb_false_iff, Qle_bool_iff in Hdead.
  apply negb_false_iff, Qle_bool_iff.
  pose proof (damageTaken_nonneg amount fromFront e Hamount) as Hd.
  assert (Hq : (Enemy.health e - damageTaken amount fromFront e <= 0)%Q).
  { rewrite <- (Qplus_0_r 0). apply Qplus_le_compat; [done|].
    by apply (Qopp_le_compat 0). }
  unfold Enemy.Qmax. destruct (Qle_bool 0 _); [done|apply Qle_refl].
Qed.

Lemma run_dead (st : Enemy.t * AICoordinator.t) (call : Z * EnemyCall) :
  hurts call → explodedDead st.1 → explodedDead (run st call).1.
Proof.
  destruct st as [e c], call as [now call]. unfold hurts; simpl.
  destruct call as [amount fromFront|close|alerterId p|role fid|p sight
                   |ring random1 random2 level]; intros Hcall Hdead.
  - by apply takeDamage_dead.
  - simpl. unfold Explosion.explodeWhenClose.
    destruct (_ && _); [by apply explode_dead|done].
  - done.
  - done.
  - simpl. unfold Enemy.updateAwareness.
    destruct (_ && _); [case_bool_decide; done|case_bool_decide; done].
  - unfold Enemy.handleThrowPhysics.
    destruct (Enemy.throwMove ring random1 random2 level e) as [e1|e1] eqn:Hmove.
    + apply throwMove_stuck in Hmove as ((_ & _ & Hh & _ & _ & _ & Ht & _) & _).
      simpl. unfold explodedDead, Enemy.isAlive in *. by rewrite Hh, Ht.
    + apply throwMove_flies in Hmove as (Hbody & _).
      destruct (afterCollision_sameBody ring random1 random2 level
                  (Enemy.position e) e1) as [Hbody' _].
      cbv zeta in Hbody'.
      pose proof (sameBody_trans _ _ _ Hbody Hbody')
        as (_ & _ & Hh & _ & _ & _ & Ht & _).
      destruct (Qle_bool _ Enemy.groundLevel).
      * apply takeDamage_dead; [done|].
        match goal with
        | |- explodedDead (if ?b then Enemy.findSafeLandingPosition _ _ _ _ ?e3 else _) =>
            destruct (findSafeLandingPosition_moves ring random1 random2 level e3)
              as [p Hp];
            destruct b; [rewrite Hp|]
        end;
          unfold explodedDead, Enemy.isAlive in *; simpl; by rewrite Hh, Ht.
      * simpl. unfold explodedDead, Enemy.isAlive in *. by rewrite Hh, Ht.
Qed.

Lemma runs_dead (calls : list (Z * EnemyCall)) (st : Enemy.t * AICoordinator.t) :
  Forall hurts calls → explodedDead st.1 → explodedDead (foldl run st calls).1.
Proof.
  revert st. induction calls as [|call calls IH]; intros st Hcalls Hdead; [done|].
  apply Forall_cons in Hcalls as [Hcall Hcalls]. simpl.
  by apply IH, run_dead.
Qed.

(** X14.  The explosion of an exploder never hurts the player.  Along every
    sequence of the calls that reach an enemy whose explosion has not been
    triggered, with amounts of damage that are not negative, an enemy whose
    explosion has been triggered is not alive; [getExplosionDamage] answers
    0 until the explosion is triggered; and the collision pass asks for the
    explosion damage of live enemies only: the amount it hands to the
    player is 0 in every state reached. *)
Theorem explosion_never_hurts_player (calls : list (Z * EnemyCall))
    (e : Enemy.t) (c : AICoordinator.t) (playerPosition : Vector3) :
  Enemy.explosionTriggered e = false →
  Forall hurts calls →
  let e' := (foldl run (e, c) calls).1 in
  (Enemy.explosionTriggered e' = true → Enemy.isAlive e' = false)
  ∧ (Enemy.explosionTriggered e' = false →
     Explosion.getExplosionDamage playerPosition e' = 0)
  ∧ explosionDamageToPlayer playerPosition e' = 0.
Proof.
  intros Hfresh Hcalls. cbv zeta.
  assert (Hdead : explodedDead (foldl run (e, c) calls).1).
  { apply runs_dead; [done|]. unfold explodedDead; simpl. by rewrite Hfresh. }
  set (e' := (foldl run (e, c) calls).1) in *.
  assert (Hquiet : Enemy.explosionTriggered e' = false →
            Explosion.getExplosionDamage playerPosition e' = 0).
  { intros Hnot. unfold Explosion.getExplosionDamage. rewrite Hnot; simpl.
    by rewrite orb_true_r. }
  split; [done|]. split; [done|].
  unfold explosionDamageToPlayer.
  destruct (Enemy.isAlive e') eqn:Halive; [|done]. simpl.
  destruct (Enemy.isBeingThrown e'); [done|]. simpl.
  destruct (Enemy.explosionTriggered e') eqn:Htrig.
  - specialize (Hdead Htrig). congruence.
  - rewrite Hquiet by done. done.
Qed.

Lemma explosion_never_hurts_player_witness :
  Enemy.explosionTriggered
    (foldl run (sampleExploder, AICoordinator.new) [(1000, TakeDamage 1 true)]).1
  = true
  ∧ explosionDamageToPlayer (worldPoint 0 (1 # 10) 0)
      (foldl run (sampleExploder, AICoordinator.new) [(1000, TakeDamage 1 true)]).1
    = 0.
Proof.
  split; [reflexivity|].
  apply (explosion_never_hurts_player [(1000, TakeDamage 1 true)] sampleExploder
           AICoordinator.new (worldPoint 0 (1 # 10) 0)); [reflexivity|].
  constructor; [unfold hurts, Qle; simpl; lia|constructor].
Defined.

End Explosions.

Section ExplosionDamage.
Import Explosion.
Local Open Scope R_scope.



End ExplosionDamage.

(** ** Threat raised by the collision pass *)

Section CollisionPass.
Import Game AICoordinator.

Lemma takeDamage_coordinator (amount : Q) (fromFront : bool) (now : Z)
    (e : Enemy.t) (c : t) :
  (Enemy.takeDamage amount fromFront now (e, c)).2 = updatePlayerThreatLevel Damage c.
Proof. done. Qed.

(** X16.  Threat accounting of the collision pass.  A lightsaber swing
    reaches an enemy that is alive and less than 3 units from the player;
    the enemy then takes 35 points, as a hit from the front exactly when
    the player is not on the lower-z side of the enemy, whatever way the
    enemy faces.  The coordinator counts the swing twice, once by the pass
    and once by [takeDamage]: the threat level rises by 10 and two decay
    timers are started; a kill adds 15 and a third timer.  A thrown enemy
    that comes within 2 units of a live one costs that one 75 points and
    itself 25, which also counts as two damage events, plus the kill. *)
Theorem collision_pass_threat (isAttacking : bool) (playerPosition : Vector3)
    (now : Z) (enemy otherEnemy : Enemy.t) (c : t) :
  let swing := lightsaberAttack isAttacking playerPosition now (enemy, c) in
  let reached :=
    isAttacking && Enemy.isAlive enemy
    && THREE.distanceTo_lt (Enemy.position enemy) playerPosition 3 in
  let crash := thrownHit now (enemy, otherEnemy, c) in
  let struck :=
    Enemy.isAlive otherEnemy
    && THREE.distanceTo_lt (Enemy.position enemy) (Enemy.position otherEnemy) 2 in
  (reached = false → swing = (enemy, c, false))
  ∧ (reached = true →
     swing.1.1
     = (Enemy.takeDamage 35
          (Qle_bool 0 (THREE.z playerPosition - THREE.z (Enemy.position enemy)))
          now (enemy, c)).1
     ∧ swing.2 = negb (Enemy.isAlive swing.1.1)
     ∧ playerThreatLevel swing.1.2
       = (if swing.2 then Z.min 100 (Z.min 100 (playerThreatLevel c + 10) + 15)
          else Z.min 100 (playerThreatLevel c + 10))
     ∧ pendingDecays swing.1.2
       = (pendingDecays c + if swing.2 then 3 else 2)%nat)
  ∧ (struck = false → crash = (enemy, otherEnemy, c, false))
  ∧ (struck = true →
     crash.1.1.2 = (Enemy.takeDamage 75 true now (otherEnemy, c)).1
     ∧ crash.1.1.1 = (Enemy.takeDamage 25 true now (enemy, c)).1
     ∧ crash.2 = negb (Enemy.isAlive crash.1.1.2)
     ∧ playerThreatLevel crash.1.2
       = (if crash.2 then Z.min 100 (Z.min 100 (playerThreatLevel c + 10) + 15)
          else Z.min 100 (playerThreatLevel c + 10))
     ∧ pendingDecays crash.1.2
       = (pendingDecays c + if crash.2 then 3 else 2)%nat).
Proof.
  cbv zeta. unfold lightsaberAttack, thrownHit, isPlayerBehindEnemy, Enemy.getPosition.
  rewrite negb_involutive.
  split; [|split; [|split]].
  - destruct isAttacking, (Enemy.isAlive enemy); simpl; try done.
    by intros ->.
  - intros Hreached. apply andb_true_iff in Hreached as [Hlive ->]. rewrite Hlive.
    destruct (Enemy.takeDamage 35 _ now (enemy, updatePlayerThreatLevel Damage c))
      as [e1 c1] eqn:Htake.
    assert (He1 : e1 = (Enemy.takeDamage 35
              (Qle_bool 0 (THREE.z playerPosition - THREE.z (Enemy.position enemy)))
              now (enemy, c)).1).
    { change e1 with (e1, c1).1. by rewrite <- Htake. }
    assert (Hc1 : c1 = updatePlayerThreatLevel Damage (updatePlayerThreatLevel Damage c)).
    { change c1 with (e1, c1).2. by rewrite <- Htake. }
    destruct (Enemy.isAlive e1) eqn:Halive; simpl; rewrite ?Halive, Hc1; simpl;
      (split; [done|]); (split; [done|]); (split; [lia|lia]).
  - destruct (Enemy.isAlive otherEnemy); simpl; [|done]. by intros ->.
  - intros Hstruck. apply andb_true_iff in Hstruck as [-> ->].
    destruct (Enemy.takeDamage 75 true now (otherEnemy, c)) as [o1 c1] eqn:Hother.
    assert (Hc1 : c1 = updatePlayerThreatLevel Damage c).
    { change c1 with (o1, c1).2. by rewrite <- Hother. }
    destruct (Enemy.takeDamage 25 true now (enemy, c1)) as [e1 c2] eqn:Hself.
    assert (He1 : e1 = (Enemy.takeDamage 25 true now (enemy, c)).1).
    { change e1 with (e1, c2).1. by rewrite <- Hself. }
    assert (Hc2 : c2 = updatePlayerThreatLevel Damage c1).
    { change c2 with (e1, c2).2. by rewrite <- Hself. }
    destruct (Enemy.isAlive o1) eqn:Halive; simpl; rewrite ?Halive, Hc2, Hc1; simpl;
      (split; [done|]); (split; [done|]); (split; [done|]); (split; [lia|lia]).
Qed.

End CollisionPass.

Section LandingSamples.

Lemma findSafeLandingPosition_lands_witness :
  THREE.x (Enemy.position
             (Enemy.findSafeLandingPosition [(1, 0)%Q] (3 # 4) (1 # 4)
                (Some solidLevel) thrownEnemy))
  = (((3 # 4) - (1 # 2)) * 20)%Q.
Proof.
  destruct (findSafeLandingPosition_lands [(1, 0)%Q] (3 # 4) (1 # 4)
              (Some solidLevel) thrownEnemy) as (_ & _ & Hlands).
  destruct (Hlands _ eq_refl) as [_ [(i & _ & Hfree & _)|(_ & _ & _ & Hx & _)]];
    [done|].
  apply Hx; [unfold Qle|unfold Qlt]; simpl; lia.
Defined.

End LandingSamples.

(** ** Pincer, line and scatter placement *)

Section Placement.
Import AICoordinator.
Local Open Scope R_scope.

Lemma vector3_eq (a b : THREE.Vector3 R) :
  THREE.x a = THREE.x b → THREE.y a = THREE.y b → THREE.z a = THREE.z b → a = b.
Proof. destruct a, b; simpl. by intros -> -> ->. Qed.

Lemma roleName_flanker (role : FormationRole) :
  bool_decide (roleName role = "flanker") = bool_decide (role = Flanker).
Proof. by destruct role. Qed.

(** X17.  Placement in a pincer formation: a flanker is sent 60 degrees to
    one side of the player's x axis and every other member 60 degrees to
    the other side, at 8 to 12 units from the player and at the player's
    height.  The place depends on the role alone, not on the agent or on
    where it stands: for one draw of the random distance the leader and a
    support of a formation are sent to the same point, and so are two
    flankers. *)
Theorem pincer_placement (random1 random2 random3 : R)
    (enemyId : string) (role : FormationRole) (formationId : string)
    (currentPos playerPos : THREE.Vector3 R) (c : t) (formation : FormationGroup.t) :
  formations c !! formationId = Some formation →
  FormationGroup.formationType formation = Pincer →
  0 <= random1 < 1 →
  let radius := 8 + random1 * 4 in
  let side := if bool_decide (role = Flanker) then 1 else -1 in
  let placed :=
    getFormationPosition random1 random2 random3 enemyId (roleName role)
      formationId currentPos playerPos c in
  placed = THREE.mkVector3 (THREE.x playerPos + radius / 2)
                           (THREE.y playerPos)
                           (THREE.z playerPos + side * (sqrt 3 / 2) * radius)
  ∧ 8 <= radius < 12
  ∧ distSq placed playerPos = radius * radius
  ∧ ∀ otherId otherRole otherPos,
      bool_decide (otherRole = Flanker) = bool_decide (role = Flanker) →
      getFormationPosition random1 random2 random3 otherId (roleName otherRole)
        formationId otherPos playerPos c
      = placed.
Proof.
  intros Hformation Htype Hrandom. cbv zeta.
  assert (Hplaced : ∀ id r pos,
            getFormationPosition random1 random2 random3 id (roleName r)
              formationId pos playerPos c
            = THREE.mkVector3 (THREE.x playerPos + (8 + random1 * 4) / 2)
                (THREE.y playerPos)
                (THREE.z playerPos
                 + (if bool_decide (r = Flanker) then 1 else -1) * (sqrt 3 / 2)
                   * (8 + random1 * 4))).
  { intros id r pos. unfold getFormationPosition. rewrite Hformation, Htype.
    unfold getPincerPosition. rewrite roleName_flanker.
    case_bool_decide; apply vector3_eq; simpl.
    - rewrite cos_PI3. lra.
    - done.
    - rewrite sin_PI3. lra.
    - replace (- PI / 3) with (- (PI / 3)) by lra. rewrite cos_neg, cos_PI3. lra.
    - done.
    - replace (- PI / 3) with (- (PI / 3)) by lra. rewrite sin_neg, sin_PI3. lra. }
  split; [apply Hplaced|]. split; [lra|]. split.
  - rewrite Hplaced. unfold distSq; simpl.
    assert (Hsqrt : sqrt 3 * sqrt 3 = 3) by (apply sqrt_sqrt; lra).
    case_bool_decide; nra.
  - intros otherId otherRole otherPos Hsame. rewrite !Hplaced. by rewrite Hsame.
Qed.

Lemma pincer_placement_witness :
  getFormationPosition (1 / 2) 0 0 "enemy_a" (roleName Leader) "formation_0"
    (THREE.mkVector3 5 0 5) (THREE.mkVector3 0 0 0)
    (oneFormation Pincer ["enemy_a"; "enemy_b"; "enemy_c"])
  = getFormationPosition (1 / 2) 0 0 "enemy_c" (roleName Support) "formation_0"
      (THREE.mkVector3 (-7) 0 2) (THREE.mkVector3 0 0 0)
      (oneFormation Pincer ["enemy_a"; "enemy_b"; "enemy_c"]).
Proof.
  symmetry.
  apply (pincer_placement (1 / 2) 0 0 "enemy_a" Leader "formation_0"
           (THREE.mkVector3 5 0 5) (THREE.mkVector3 0 0 0)
           (oneFormation Pincer ["enemy_a"; "enemy_b"; "enemy_c"]) _
           eq_refl eq_refl); [lra|reflexivity].
Defined.

End Placement.

Section LineAndScatter.
Import AICoordinator.
Local Open Scope R_scope.

Lemma sqrt_pos_lt (x y : R) : x ≠ 0 ∨ y ≠ 0 → 0 < sqrt (x * x + y * y).
Proof.
  intros Hxy. apply sqrt_lt_R0.
  destruct Hxy as [Hx|Hy]; [pose proof (Rsqr_pos_lt x Hx)|pose proof (Rsqr_pos_lt y Hy)];
    unfold Rsqr in *; nra.
Qed.

Lemma sqrt_ratio (x y : R) :
  0 < x → sqrt (1 + (y / x)²) = sqrt (x * x + y * y) / x.
Proof.
  intros Hx. apply sqrt_lem_1.
  - unfold Rsqr. pose proof (Rle_0_sqr (y / x)) as H. unfold Rsqr in H. lra.
  - apply Rmult_le_pos; [apply sqrt_pos|]. left. by apply Rinv_0_lt_compat.
  - unfold Rsqr, Rdiv.
    replace (sqrt (x * x + y * y) * / x * (sqrt (x * x + y * y) * / x))
      with (sqrt (x * x + y * y) * sqrt (x * x + y * y) * (/ x * / x)) by ring.
    rewrite sqrt_sqrt by nra. field. lra.
Qed.

(** [atan2 y x] is the direction of the vector (x, y). *)
Lemma atan2_direction (y x : R) :
  x ≠ 0 ∨ y ≠ 0 →
  cos (Math.atan2 y x) = x / sqrt (x * x + y * y)
  ∧ sin (Math.atan2 y x) = y / sqrt (x * x + y * y).
Proof.
  intros Hxy. pose proof (sqrt_pos_lt x y Hxy) as Hlen.
  set (len := sqrt (x * x + y * y)) in *.
  unfold Math.atan2.
  destruct (Rlt_dec 0 x) as [Hpos|Hnpos].
  - rewrite cos_atan, sin_atan, sqrt_ratio by done. fold len.
    split; field; lra.
  - destruct (Rlt_dec x 0) as [Hneg|Hnneg].
    + assert (Hroot : sqrt (1 + (y / x)²) = len / - x).
      { replace ((y / x)²) with ((- y / - x)²) by (unfold Rsqr; field; lra).
        rewrite sqrt_ratio by lra. unfold len. do 2 f_equal. ring. }
      destruct (Rle_dec 0 y).
      * rewrite neg_cos, neg_sin, cos_atan, sin_atan, Hroot. split; field; lra.
      * unfold Rminus. rewrite cos_plus, sin_plus, cos_neg, sin_neg, cos_PI, sin_PI.
        rewrite cos_atan, sin_atan, Hroot. split; field; lra.
    + assert (x = 0) as -> by lra.
      assert (Hy : y ≠ 0) by (destruct Hxy; [lra|done]).
      unfold len in *. replace (0 * 0 + y * y) with (y * y) in * by ring.
      destruct (Rlt_dec 0 y) as [Hy0|Hy0].
      * rewrite cos_PI2, sin_PI2, sqrt_square by lra. split; field; lra.
      * destruct (Rlt_dec y 0) as [Hy1|Hy1]; [|lra].
        replace (- PI / 2) with (- (PI / 2)) by lra.
        rewrite cos_neg, sin_neg, cos_PI2, sin_PI2.
        replace (y * y) with (- y * - y) by ring. rewrite sqrt_square by lra.
        split; field; lra.
Qed.

(** X18.  Placement in a line formation.  The bearing is taken from the
    agent towards the player and laid off from the player: an agent that
    is not a flanker is sent to the point 8 to 12 units behind the player on
    the straight line from the agent through the player, so that the player
    stands between the agent and its place; a flanker gets the same place
    turned by 30 degrees about the player. *)
Theorem line_placement (random1 random2 random3 : R)
    (enemyId : string) (role : FormationRole) (formationId : string)
    (currentPos playerPos : THREE.Vector3 R) (c : t) (formation : FormationGroup.t) :
  formations c !! formationId = Some formation →
  FormationGroup.formationType formation = Line →
  THREE.x playerPos ≠ THREE.x currentPos ∨ THREE.z playerPos ≠ THREE.z currentPos →
  0 <= random1 < 1 →
  let radius := 8 + random1 * 4 in
  let dx := THREE.x playerPos - THREE.x currentPos in
  let dz := THREE.z playerPos - THREE.z currentPos in
  let gap := sqrt (dx * dx + dz * dz) in
  let turn := if bool_decide (role = Flanker) then (sqrt 3 / 2, 1 / 2) else (1, 0) in
  let placed :=
    getFormationPosition random1 random2 random3 enemyId (roleName role)
      formationId currentPos playerPos c in
  0 < gap
  ∧ 8 <= radius < 12
  ∧ placed = THREE.mkVector3
               (THREE.x playerPos + (dx * turn.1 - dz * turn.2) / gap * radius)
               (THREE.y playerPos)
               (THREE.z playerPos + (dz * turn.1 + dx * turn.2) / gap * radius)
  ∧ distSq placed playerPos = radius * radius
  ∧ (role ≠ Flanker →
     THREE.x placed - THREE.x currentPos = (1 + radius / gap) * dx
     ∧ THREE.z placed - THREE.z currentPos = (1 + radius / gap) * dz).
Proof.
  intros Hformation Htype Hapart Hrandom. cbv zeta.
  set (dx := THREE.x playerPos - THREE.x currentPos).
  set (dz := THREE.z playerPos - THREE.z currentPos).
  assert (Hne : dx ≠ 0 ∨ dz ≠ 0) by (unfold dx, dz; destruct Hapart; [left|right]; lra).
  pose proof (sqrt_pos_lt dx dz Hne) as Hgap.
  destruct (atan2_direction dz dx Hne) as [Hcos Hsin].
  assert (Hsq : sqrt (dx * dx + dz * dz) * sqrt (dx * dx + dz * dz) = dx * dx + dz * dz)
    by (apply sqrt_sqrt; nra).
  set (gap := sqrt (dx * dx + dz * dz)) in *.
  assert (Hplaced :
    getFormationPosition random1 random2 random3 enemyId (roleName role)
      formationId currentPos playerPos c
    = THREE.mkVector3
        (THREE.x playerPos
         + (dx * (if bool_decide (role = Flanker) then (sqrt 3 / 2, 1 / 2) else (1, 0)).1
            - dz * (if bool_decide (role = Flanker) then (sqrt 3 / 2, 1 / 2) else (1, 0)).2)
           / gap * (8 + random1 * 4))
        (THREE.y playerPos)
        (THREE.z playerPos
         + (dz * (if bool_decide (role = Flanker) then (sqrt 3 / 2, 1 / 2) else (1, 0)).1
            + dx * (if bool_decide (role = Flanker) then (sqrt 3 / 2, 1 / 2) else (1, 0)).2)
           / gap * (8 + random1 * 4))).
  { unfold getFormationPosition. rewrite Hformation, Htype.
    unfold getLinePosition. rewrite roleName_flanker. fold dx dz.
    case_bool_decide; apply vector3_eq; simpl.
    - rewrite cos_plus, Hcos, Hsin, cos_PI6, sin_PI6. field. lra.
    - done.
    - rewrite sin_plus, Hcos, Hsin, cos_PI6, sin_PI6. field. lra.
    - rewrite Rplus_0_r, Hcos. field. lra.
    - done.
    - rewrite Rplus_0_r, Hsin. field. lra. }
  split; [done|]. split; [lra|]. split; [done|]. split.
  - rewrite Hplaced. unfold distSq; simpl.
    assert (Hsqrt : sqrt 3 * sqrt 3 = 3) by (apply sqrt_sqrt; lra).
    assert (Hturn : ∀ t1 t2 r, t1 * t1 + t2 * t2 = 1 →
              (THREE.x playerPos + (dx * t1 - dz * t2) / gap * r - THREE.x playerPos)
              * (THREE.x playerPos + (dx * t1 - dz * t2) / gap * r - THREE.x playerPos)
              + (THREE.y playerPos - THREE.y playerPos)
                * (THREE.y playerPos - THREE.y playerPos)
              + (THREE.z playerPos + (dz * t1 + dx * t2) / gap * r - THREE.z playerPos)
                * (THREE.z playerPos + (dz * t1 + dx * t2) / gap * r - THREE.z playerPos)
              = r * r).
    { intros t1 t2 r Ht.
      transitivity ((dx * dx + dz * dz) * (t1 * t1 + t2 * t2) / (gap * gap) * (r * r));
        [field; lra|].
      rewrite Ht, <- Hsq. field. lra. }
    case_bool_decide; simpl; apply Hturn; lra.
  - intros Hrole. rewrite Hplaced. rewrite bool_decide_eq_false_2 by done. simpl.
    unfold dx, dz. split; field; lra.
Qed.

Lemma line_placement_witness :
  THREE.x (getFormationPosition (1 / 2) 0 0 "enemy_a" (roleName Leader) "formation_0"
             (THREE.mkVector3 0 0 0) (THREE.mkVector3 3 0 4)
             (oneFormation Line ["enemy_a"; "enemy_b"])) - 0
  = (1 + (8 + 1 / 2 * 4) / sqrt ((3 - 0) * (3 - 0) + (4 - 0) * (4 - 0))) * (3 - 0).
Proof.
  destruct (line_placement (1 / 2) 0 0 "enemy_a" Leader "formation_0"
              (THREE.mkVector3 0 0 0) (THREE.mkVector3 3 0 4)
              (oneFormation Line ["enemy_a"; "enemy_b"]) _ eq_refl eq_refl)
    as (_ & _ & _ & _ & Hbeyond); [left; simpl; lra|lra|].
  apply Hbeyond. done.
Defined.

(** X19.  Placement in a scatter formation, for random numbers in [0, 1).
    An agent away from the player is sent to a point whose distance from
    the player is the drawn reach, between 8 and 17 units, in a direction
    that makes no obtuse angle with the direction from the player to the
    agent: the agent is sent away from the player, not across it.
    An agent standing exactly at the player's position has no direction to
    flee in and is sent to the player's position itself. *)
Theorem scatter_placement (random1 random2 random3 : R)
    (enemyId role formationId : string)
    (currentPos playerPos : THREE.Vector3 R) (c : t) (formation : FormationGroup.t) :
  formations c !! formationId = Some formation →
  FormationGroup.formationType formation = Scatter →
  0 <= random1 < 1 → 0 <= random2 < 1 → 0 <= random3 < 1 →
  let reach := 8 + random1 * 4 + random3 * 5 in
  let placed :=
    getFormationPosition random1 random2 random3 enemyId role formationId
      currentPos playerPos c in
  8 <= reach < 17
  ∧ (currentPos = playerPos → placed = playerPos)
  ∧ (currentPos ≠ playerPos →
     distSq placed playerPos = reach * reach
     ∧ 0 <= (THREE.x placed - THREE.x playerPos) * (THREE.x currentPos - THREE.x playerPos)
            + (THREE.y placed - THREE.y playerPos) * (THREE.y currentPos - THREE.y playerPos)
            + (THREE.z placed - THREE.z playerPos) * (THREE.z currentPos - THREE.z playerPos)).
Proof.
  intros Hformation Htype Hr1 Hr2 Hr3. cbv zeta.
  split; [lra|].
  unfold getFormationPosition. rewrite Hformation, Htype.
  unfold getScatterPosition. cbv zeta.
  set (a := (random2 - 1 / 2) * PI / 2).
  set (dx := THREE.x currentPos - THREE.x playerPos).
  set (dy := THREE.y currentPos - THREE.y playerPos).
  set (dz := THREE.z currentPos - THREE.z playerPos).
  set (s := 8 + random1 * 4 + random3 * 5).
  split.
  - intros ->. unfold dx, dy, dz. rewrite !Rminus_diag.
    replace (0 * 0 + 0 * 0 + 0 * 0) with 0 by ring. rewrite sqrt_0.
    destruct (Req_dec_T 0 0) as [_|Hne]; [|done].
    destruct playerPos as [px py pz]; simpl. f_equal; field.
  - intros Hapart.
    assert (Hsq : 0 < dx * dx + dy * dy + dz * dz).
    { assert (Hne : dx ≠ 0 ∨ dy ≠ 0 ∨ dz ≠ 0).
      { destruct (Req_dec dx 0) as [Hx|Hx]; [|by left].
        destruct (Req_dec dy 0) as [Hy|Hy]; [|by right; left].
        destruct (Req_dec dz 0) as [Hz|Hz]; [|by right; right].
        exfalso. apply Hapart. apply vector3_eq; unfold dx, dy, dz in *; lra. }
      pose proof (Rle_0_sqr dx). pose proof (Rle_0_sqr dy). pose proof (Rle_0_sqr dz).
      unfold Rsqr in *.
      destruct Hne as [Hx|[Hy|Hz]];
        [pose proof (Rsqr_pos_lt dx Hx)|pose proof (Rsqr_pos_lt dy Hy)
        |pose proof (Rsqr_pos_lt dz Hz)]; unfold Rsqr in *; lra. }
    pose proof (sqrt_lt_R0 _ Hsq) as Hlen.
    pose proof (sqrt_sqrt (dx * dx + dy * dy + dz * dz) (Rlt_le _ _ Hsq)) as Hlen2.
    set (len := sqrt (dx * dx + dy * dy + dz * dz)) in *.
    destruct (Req_dec_T len 0) as [Hzero|_]; [lra|].
    pose proof (sin2_cos2 a) as Hunit. unfold Rsqr in Hunit.
    assert (Hcos : 0 <= cos a).
    { pose proof PI_RGT_0. apply cos_ge_0; unfold a; nra. }
    set (cs := cos a) in *. set (sn := sin a) in *.
    assert (Hnorm : dx / len * (dx / len) + dy / len * (dy / len)
                    + dz / len * (dz / len) = 1).
    { transitivity ((dx * dx + dy * dy + dz * dz) / (len * len)); [field; lra|].
      rewrite Hlen2. field. lra. }
    set (nx := dx / len) in *. set (ny := dy / len) in *. set (nz := dz / len) in *.
    assert (Hdx : dx = nx * len) by (unfold nx; field; lra).
    assert (Hdy : dy = ny * len) by (unfold ny; field; lra).
    assert (Hdz : dz = nz * len) by (unfold nz; field; lra).
    unfold distSq; simpl. split.
    + transitivity (((nx * nx + nz * nz) * (sn * sn + cs * cs) + ny * ny) * (s * s));
        [ring|].
      rewrite Hunit. replace ((nx * nx + nz * nz) * 1 + ny * ny) with 1 by lra. ring.
    + rewrite Hdx, Hdy, Hdz.
      replace ((THREE.x playerPos + (nx * cs + nz * sn) * s - THREE.x playerPos)
               * (nx * len)
               + (THREE.y playerPos + ny * s - THREE.y playerPos) * (ny * len)
               + (THREE.z playerPos + (nz * cs - nx * sn) * s - THREE.z playerPos)
                 * (nz * len))
        with (s * len * ((nx * nx + nz * nz) * cs + ny * ny)) by ring.
      apply Rmult_le_pos; [apply Rmult_le_pos; unfold s; lra|].
      apply Rplus_le_le_0_compat; [apply Rmult_le_pos; [nra|done]|nra].
Qed.

Lemma scatter_placement_witness :
  getFormationPosition 0 0 0 "enemy_a" "leader" "formation_0"
    (THREE.mkVector3 1 0 1) (THREE.mkVector3 1 0 1)
    (oneFormation Scatter ["enemy_a"; "enemy_b"])
  = THREE.mkVector3 1 0 1.
Proof.
  apply (scatter_placement 0 0 0 "enemy_a" "leader" "formation_0"
           (THREE.mkVector3 1 0 1) (THREE.mkVector3 1 0 1)
           (oneFormation Scatter ["enemy_a"; "enemy_b"]) _ eq_refl eq_refl);
    [lra..|done].
Defined.

Lemma indexOf_absent (members : list string) (enemyId : string) :
  enemyId ∉ members → indexOf enemyId members = (-1)%Z.
Proof.
  induction members as [|m members IH]; [done|]. intros Hnot. simpl.
  rewrite bool_decide_eq_false_2 by (intros ->; apply Hnot; by left).
  rewrite IH by (intros Hin; apply Hnot; by right). done.
Qed.

(** X20.  Placement under a formation id that is out of date (an enemy
    keeps the id it was last given).  When the coordinator holds no
    formation under the id, and so for every id once [cleanup] has run,
    [getFormationPosition] answers the position the agent is at.  When it
    holds a surround formation the agent is not a member of, [indexOf]
    answers -1 and the agent is sent one step before the first member on
    the circle, which is the very place of the last member. *)
Theorem placement_stale_formation (random1 random2 random3 : R)
    (enemyId role formationId : string)
    (currentPos playerPos : THREE.Vector3 R) (c : t) :
  (formations c !! formationId = None →
   getFormationPosition random1 random2 random3 enemyId role formationId
     currentPos playerPos c = currentPos)
  ∧ getFormationPosition random1 random2 random3 enemyId role formationId
      currentPos playerPos (cleanup c) = currentPos
  ∧ ∀ formation lastId,
      formations c !! formationId = Some formation →
      FormationGroup.formationType formation = Surround →
      NoDup (FormationGroup.members formation) →
      last (FormationGroup.members formation) = Some lastId →
      enemyId ∉ FormationGroup.members formation →
      indexOf enemyId (FormationGroup.members formation) = (-1)%Z
      ∧ getFormationPosition random1 random2 random3 enemyId role formationId
          currentPos playerPos c
        = getFormationPosition random1 random2 random3 lastId role formationId
            currentPos playerPos c.
Proof.
  unfold getFormationPosition. split; [by intros ->|]. split; [done|].
  intros formation lastId -> -> Hnodup Hlast Habsent.
  pose proof (indexOf_absent _ _ Habsent) as Hminus. split; [done|].
  unfold getSurroundPosition. cbv zeta. rewrite Hminus.
  rewrite last_lookup in Hlast.
  rewrite (indexOf_lookup _ _ _ Hnodup Hlast).
  set (n := length (FormationGroup.members formation)) in *.
  assert (Hn : (0 < n)%nat).
  { apply lookup_lt_Some in Hlast. lia. }
  assert (HINR : 0 < INR n) by (apply lt_0_INR; lia).
  assert (Hlastangle : IZR (Z.of_nat (Nat.pred n)) * (PI * 2 / INR n)
                       = IZR (-1) * (PI * 2 / INR n) + 2 * INR 1 * PI).
  { rewrite <- INR_IZR_INZ. replace (Nat.pred n) with (n - 1)%nat by lia.
    rewrite minus_INR by lia. simpl. field. lra. }
  rewrite Hlastangle, cos_period, sin_period. done.
Qed.

Lemma placement_stale_formation_witness :
  getFormationPosition (1 / 2) 0 0 "enemy_z" "support" "formation_0"
    (THREE.mkVector3 3 0 3) (THREE.mkVector3 0 0 0) surroundOfFive
  = getFormationPosition (1 / 2) 0 0 "enemy_e" "support" "formation_0"
      (THREE.mkVector3 3 0 3) (THREE.mkVector3 0 0 0) surroundOfFive.
Proof.
  destruct (placement_stale_formation (1 / 2) 0 0 "enemy_z" "support" "formation_0"
              (THREE.mkVector3 3 0 3) (THREE.mkVector3 0 0 0) surroundOfFive)
    as (_ & _ & Hstale).
  refine (proj2 (Hstale _ "enemy_e" eq_refl eq_refl _ eq_refl _)).
  - apply (bool_decide_unpack _). vm_compute. exact I.
  - apply (bool_decide_unpack _). vm_compute. exact I.
Defined.

End LineAndScatter.

(** ** The arena *)

Section ArenaFacts.
Import Arena.

Lemma Qabs_le_24 (q : Q) : Qle_bool (Qabs q) (arenaSize / 2 - 1) = true ↔ (-24 <= q <= 24)%Q.
Proof.
  rewrite Qle_bool_iff.
  assert (Heq : (arenaSize / 2 - 1 == 24)%Q) by reflexivity.
  rewrite Heq. rewrite Qabs_Qle_condition. done.
Qed.

Lemma checkCollision_inside (a : t) (p : Vector3) (radius height : Q) :
  inArena p →
  checkCollision a p radius height
  = existsb (λ mesh,
      Box3.intersectsBox
        (Box3.setFromCenterAndSize
           (THREE.mkVector3 (THREE.x p) (THREE.y p + height / 2)%Q (THREE.z p))
           (THREE.mkVector3 (radius * 2)%Q height (radius * 2)%Q))
        (Box3.expandByScalar (2 # 10) (setFromObject mesh)))
      (collidableMeshes a).
Proof.
  intros [Hx Hz]. unfold checkCollision. cbv zeta.
  apply Qabs_le_24 in Hx, Hz. by rewrite Hx, Hz.
Qed.

Lemma checkCollision_outside (a : t) (p : Vector3) (radius height : Q) :
  ¬ inArena p → checkCollision a p radius height = true.
Proof.
  intros Hout. unfold checkCollision. cbv zeta.
  destruct (Qle_bool (Qabs (THREE.x p)) _) eqn:Hx; [|done].
  destruct (Qle_bool (Qabs (THREE.z p)) _) eqn:Hz; [|done].
  exfalso. apply Hout. split; by apply Qabs_le_24.
Qed.

End ArenaFacts.

Section ArenaClaims.
Import Arena.

Lemma Qle_bool_false (a b : Q) : (b < a)%Q → Qle_bool a b = false.
Proof.
  intros Hlt. destruct (Qle_bool a b) eqn:Hle; [|done].
  apply Qle_bool_iff in Hle. by apply Qle_not_lt in Hle.
Qed.

Lemma checkCollision_free (a : t) (p : Vector3) (radius height : Q) :
  checkCollision a p radius height = false → inArena p.
Proof.
  unfold checkCollision. cbv zeta.
  destruct (Qle_bool (Qabs (THREE.x p)) _) eqn:Hx; [|done].
  destruct (Qle_bool (Qabs (THREE.z p)) _) eqn:Hz; [|done].
  intros _. split; by apply Qabs_le_24.
Qed.

Lemma intersectsBox_grow (this this' box : Box3.t) :
  (THREE.x (Box3.min this') <= THREE.x (Box3.min this))%Q →
  (THREE.y (Box3.min this') <= THREE.y (Box3.min this))%Q →
  (THREE.z (Box3.min this') <= THREE.z (Box3.min this))%Q →
  (THREE.x (Box3.max this) <= THREE.x (Box3.max this'))%Q →
  (THREE.y (Box3.max this) <= THREE.y (Box3.max this'))%Q →
  (THREE.z (Box3.max this) <= THREE.z (Box3.max this'))%Q →
  Box3.intersectsBox this box = true → Box3.intersectsBox this' box = true.
Proof.
  intros Hx Hy Hz Hx' Hy' Hz'. unfold Box3.intersectsBox.
  rewrite !andb_true_iff, !Qle_bool_iff.
  intros (((((H1 & H2) & H3) & H4) & H5) & H6).
  repeat split; eapply Qle_trans; eauto.
Qed.

Lemma intersectsBox_spec (this box : Box3.t) :
  Box3.intersectsBox this box = true
  ↔ (THREE.x (Box3.min this) <= THREE.x (Box3.max box))%Q
    ∧ (THREE.x (Box3.min box) <= THREE.x (Box3.max this))%Q
    ∧ (THREE.y (Box3.min this) <= THREE.y (Box3.max box))%Q
    ∧ (THREE.y (Box3.min box) <= THREE.y (Box3.max this))%Q
    ∧ (THREE.z (Box3.min this) <= THREE.z (Box3.max box))%Q
    ∧ (THREE.z (Box3.min box) <= THREE.z (Box3.max this))%Q.
Proof.
  unfold Box3.intersectsBox. rewrite !andb_true_iff, !Qle_bool_iff. tauto.
Qed.

(** X21.  The collision test of the level.  A point further than 24 units
    from the centre on x or on z collides whatever the meshes, the radius
    and the height; inside, a level without meshes has no collision; a
    collision found for a radius and a height is found for every larger
    radius and height.  The place [findSafeLandingPosition] chooses on this
    level, the unchecked random fallback included, always passes the bounds
    test. *)
Theorem checkCollision_arena (a : t) (p : Vector3) (radius radius' height height' : Q)
    (ring : list (Q * Q)) (random1 random2 : Q) (e : Enemy.t) :
  (¬ inArena p → checkCollision a p radius height = true)
  ∧ (inArena p → collidableMeshes a = [] → checkCollision a p radius height = false)
  ∧ ((radius <= radius')%Q → (height <= height')%Q →
     checkCollision a p radius height = true →
     checkCollision a p radius' height' = true)
  ∧ inArena (Enemy.position
               (Enemy.findSafeLandingPosition ring random1 random2
                  (Some (level a)) e)).
Proof.
  split; [apply checkCollision_outside|]. split; [|split].
  - intros Hin Hnone. rewrite checkCollision_inside by done. by rewrite Hnone.
  - intros Hr Hh. unfold checkCollision. cbv zeta.
    destruct (negb _ || negb _); [done|].
    rewrite !existsb_exists. intros (mesh & Hmesh & Hhit).
    exists mesh. split; [done|]. revert Hhit. apply intersectsBox_grow; simpl.
    + apply Qplus_le_compat; [apply Qle_refl|]. apply Qopp_le_compat.
      apply Qmult_le_compat_r; [|done]. by apply Qmult_le_compat_r.
    + setoid_replace (THREE.y p + height' / 2 - height' * (1 # 2))%Q
        with (THREE.y p + height / 2 - height * (1 # 2))%Q using relation Qeq
        by field.
      apply Qle_refl.
    + apply Qplus_le_compat; [apply Qle_refl|]. apply Qopp_le_compat.
      apply Qmult_le_compat_r; [|done]. by apply Qmult_le_compat_r.
    + apply Qplus_le_compat; [apply Qle_refl|].
      apply Qmult_le_compat_r; [|done]. by apply Qmult_le_compat_r.
    + apply Qplus_le_compat;
        [apply Qplus_le_compat; [apply Qle_refl|]; by apply Qmult_le_compat_r|].
      by apply Qmult_le_compat_r.
    + apply Qplus_le_compat; [apply Qle_refl|].
      apply Qmult_le_compat_r; [|done]. by apply Qmult_le_compat_r.
  - destruct (findSafeLandingPosition_scan ring random1 random2
                (Some (level a)) e) as (_ & _ & Hscan).
    destruct (Hscan _ eq_refl) as [_ [(i & _ & Hfree & _)|(_ & Hx & Hz & _)]].
    + by eapply checkCollision_free.
    + done.
Qed.

(** X22.  The boundary walls of the arena stand behind the bounds test:
    for a radius below 0.8, a point that passes the bounds test touches no
    wall, at any height; from radius 0.8 on, a point at the bound x = 24
    whose box reaches the height range of the walls does. *)
Theorem walls_behind_bounds (p : Vector3) (radius height : Q) :
  inArena p →
  ((radius < 4 # 5)%Q → checkCollision (mk walls) p radius height = false)
  ∧ ((4 # 5 <= radius)%Q → (THREE.x p == 24)%Q →
     (-(1 # 5) <= THREE.y p + height)%Q → (THREE.y p <= 26 # 5)%Q →
     checkCollision (mk walls) p radius height = true).
Proof.
  intros Hin. pose proof Hin as [[Hx1 Hx2] [Hz1 Hz2]].
  rewrite !checkCollision_inside by done. split.
  - intros Hr. apply not_true_iff_false. rewrite existsb_exists.
    intros (mesh & Hmesh & Hhit). apply intersectsBox_spec in Hhit.
    simpl in Hmesh. unfold arenaSize, wallThickness, wallHeight in Hmesh.
    destruct Hmesh as [<-|[<-|[<-|[<-|[]]]]]; simpl in Hhit;
      unfold Qdiv in *; change (/ 2)%Q with (1 # 2)%Q in *; Lqa.lra.
  - intros Hr Hx Hy1 Hy2. rewrite existsb_exists.
    eexists. split; [right; right; left; reflexivity|].
    apply intersectsBox_spec. simpl. unfold arenaSize, wallThickness, wallHeight.
    unfold Qdiv in *; change (/ 2)%Q with (1 # 2)%Q in *.
    repeat split; Lqa.lra.
Qed.

Lemma walls_behind_bounds_witness :
  checkCollision (mk walls) (worldPoint 24 (1 # 10) 0) (6 # 10) (16 # 10) = false.
Proof.
  apply (walls_behind_bounds (worldPoint 24 (1 # 10) 0) (6 # 10) (16 # 10)).
  - repeat split; unfold Qle; simpl; lia.
  - reflexivity.
Defined.

Lemma initializeGrid_ext (check1 check2 : Vector3 → Q → Q → bool) (g0 : option PathFinder.Grid) :
  (∀ x z : Q, check1 (THREE.mkVector3 x 1%Q z) (1 # 2)%Q 1%Q
              = check2 (THREE.mkVector3 x 1%Q z) (1 # 2)%Q 1%Q) →
  PathFinder.initializeGrid (Some (Level.mk (Some check1))) g0
  = PathFinder.initializeGrid (Some (Level.mk (Some check2))) g0.
Proof.
  intros Hext. unfold PathFinder.initializeGrid. f_equal.
  apply list_fmap_ext. intros _ x _. apply list_fmap_ext. intros _ z _. simpl.
  case_bool_decide; [done|]. apply Hext.
Qed.

Lemma lowMesh_unseen (low : list Mesh) (x z : Q) :
  Forall lowMesh low →
  existsb (λ mesh,
      Box3.intersectsBox
        (Box3.setFromCenterAndSize
           (THREE.mkVector3 x (1 + 1 / 2)%Q z)
           (THREE.mkVector3 ((1 # 2) * 2)%Q 1%Q ((1 # 2) * 2)%Q))
        (Box3.expandByScalar (2 # 10) (setFromObject mesh))) low
  = false.
Proof.
  intros Hlow. apply not_true_iff_false. rewrite existsb_exists.
  intros (mesh & Hmesh & Hhit). apply intersectsBox_spec in Hhit.
  rewrite Forall_forall in Hlow. apply list_elem_of_In, Hlow in Hmesh.
  unfold lowMesh in Hmesh. simpl in Hhit.
  unfold Qdiv in *; change (/ 2)%Q with (1 # 2)%Q in *. Lqa.lra.
Qed.

Lemma platforms_low : Forall lowMesh platforms.
Proof. repeat constructor. Qed.

(** X23.  The platforms of the arena are not on the path grid.
    [initializeGrid] samples the level with a box that starts at height 1,
    and a platform ends, margin included, at height 0.7: the grid built for
    the arena is the grid of the arena without its platforms.  Yet the box
    of an agent of radius 0 or more that stands over a platform and starts
    at height 0.7 or below collides with it. *)
Theorem platforms_hidden_from_grid (obstacles : list Mesh) (g0 : option PathFinder.Grid)
    (platform : Q * Q * Q) (p : Vector3) (radius height : Q) :
  PathFinder.initializeGrid (Some (level (createSimpleArena obstacles))) g0
  = PathFinder.initializeGrid (Some (level (mk (walls ++ obstacles)))) g0
  ∧ (platform ∈ [ (15, 15, 4); (-15, -15, 4); (15, -15, 3); (-15, 15, 3);
                  (0, 18, 3); (0, -18, 3) ]%Q →
     (0 <= radius)%Q →
     (platform.1.1 - platform.2 / 2 <= THREE.x p <= platform.1.1 + platform.2 / 2)%Q →
     (platform.1.2 - platform.2 / 2 <= THREE.z p <= platform.1.2 + platform.2 / 2)%Q →
     (THREE.y p <= 7 # 10)%Q → (-(2 # 10) <= THREE.y p + height)%Q →
     checkCollision (createSimpleArena obstacles) p radius height = true).
Proof.
  split.
  - apply initializeGrid_ext. intros x z. unfold checkCollision. cbv zeta.
    destruct (negb _ || negb _); [done|].
    change (collidableMeshes (createSimpleArena obstacles))
      with (walls ++ platforms ++ obstacles).
    change (collidableMeshes (mk (walls ++ obstacles))) with (walls ++ obstacles).
    rewrite !existsb_app. cbn [THREE.x THREE.y THREE.z].
    by rewrite (lowMesh_unseen platforms x z platforms_low).
  - intros Hplatform Hr Hx Hz Hy1 Hy2.
    destruct (checkCollision (createSimpleArena obstacles) p radius height)
      eqn:Hfree; [done|].
    pose proof (checkCollision_free _ _ _ _ Hfree) as Hin.
    rewrite checkCollision_inside in Hfree by done.
    apply not_true_iff_false in Hfree. exfalso. apply Hfree.
    apply existsb_exists.
    exists (mkMesh (THREE.mkVector3 platform.2 (1 # 2)%Q platform.2)
                   (THREE.mkVector3 platform.1.1 (1 # 4)%Q platform.1.2)).
    split.
    + change (collidableMeshes (createSimpleArena obstacles))
        with (walls ++ platforms ++ obstacles).
      apply in_or_app. right. apply in_or_app. left.
      apply list_elem_of_In. unfold platforms, createPlatforms.
      apply list_elem_of_fmap. exists platform. split; [by destruct platform as [[? ?] ?]|done].
    + apply intersectsBox_spec. simpl.
      unfold Qdiv in *; change (/ 2)%Q with (1 # 2)%Q in *.
      repeat split; Lqa.lra.
Qed.

Lemma platforms_hidden_from_grid_witness :
  checkCollision (createSimpleArena []) (worldPoint 15 (1 # 10) 15) (6 # 10) (16 # 10)
  = true.
Proof.
  apply (platforms_hidden_from_grid [] None (15, 15, 4)%Q
           (worldPoint 15 (1 # 10) 15) (6 # 10) (16 # 10)).
  - by left.
  - unfold Qle; simpl; lia.
  - split; unfold Qle; simpl; lia.
  - split; unfold Qle; simpl; lia.
  - unfold Qle; simpl; lia.
  - unfold Qle; simpl; lia.
Defined.

End ArenaClaims.

(** ** What the path finder can return *)

Section PathLength.
Import PathFinder.

Lemma aStar_one (g : Grid) (s e : cell) :
  aStar 1 (Some g) s e = OutOfFuel ∨ (e = s ∧ aStar 1 (Some g) s e = Return [s]).
Proof.
  unfold aStar. cbn [search]. unfold initialState at 1; simpl sort. cbv beta iota.
  case_bool_decide as Hse.
  - right. subst e. split; [done|]. simpl. by rewrite lookup_empty.
  - left.
    change (cameFrom (initialState s e)) with (∅ : gmap cell cell).
    change (gScore (initialState s e)) with ({[ s := 0 ]} : gmap cell Z).
    change (fScore (initialState s e)) with ({[ s := heuristic s e ]} : gmap cell Z).
    destruct (forOf_returns (relax (Some g) e s) (neighbors s)
                (mkSearchState [] ∅ {[ s := 0 ]} {[ s := heuristic s e ]}))
      as [st1 Hfor]; [intros; apply relax_returns|].
    rewrite Hfor.
    destruct (expand_start g s e _ _ _ (λ x Hx, Hx) (initialState_startExpanded s e) Hfor)
      as (_ & _ & _ & Hlen).
    simpl in Hlen. by rewrite bool_decide_eq_false_2 by lia.
Qed.

Lemma findPath_no_throw (fuel : nat) (grid : option Grid) (start end_ : Vector3)
    (err : string) :
  findPath fuel grid start end_ ≠ Throw err.
Proof.
  destruct grid as [g|]; [|done]. rewrite findPath_initialised.
  destruct (_ && _); [|done].
  destruct (aStar fuel (Some g) _ _) as [path|err'|] eqn:Hastar; try done.
  by apply aStar_no_throw in Hastar.
Qed.

(** The lists [findPath] can return. *)
Lemma findPath_shapes (fuel : nat) (grid : option Grid)
    (start end_ : Vector3) (path : list Vector3) :
  findPath fuel grid start end_ = Return path →
  (path = [end_]
   ∨ path = [gridToWorld (worldToGrid end_)]
   ∨ (worldToGrid end_ = worldToGrid start ∧ path = [gridToWorld (worldToGrid start)])
   ∨ (worldToGrid end_ ∈ neighbors (worldToGrid start)
      ∧ path = [gridToWorld (worldToGrid start); gridToWorld (worldToGrid end_)]))
  ∧ (1 ≤ length path ≤ 2)%nat.
Proof.
  intros Hpath.
  assert (Hshape : path = [end_]
     ∨ path = [gridToWorld (worldToGrid end_)]
     ∨ (worldToGrid end_ = worldToGrid start ∧ path = [gridToWorld (worldToGrid start)])
     ∨ (worldToGrid end_ ∈ neighbors (worldToGrid start)
        ∧ path = [gridToWorld (worldToGrid start); gridToWorld (worldToGrid end_)])).
  { destruct grid as [g|]; [|left; by injection Hpath].
    destruct (validCell g (worldToGrid start)) eqn:Hs;
      [|rewrite findPath_initialised, Hs in Hpath; left; by injection Hpath].
    destruct (validCell g (worldToGrid end_)) eqn:He;
      [|rewrite findPath_initialised, Hs, He in Hpath; left; by injection Hpath].
    destruct (Z_le_gt_dec 2 (heuristic (worldToGrid start) (worldToGrid end_)))
      as [Hfar|Hnear].
    - destruct (findPath_far_end g _ _ Hs fuel start end_ eq_refl eq_refl He Hfar)
        as [Hloop|Hgiven]; [congruence|].
      right; left. congruence.
    - rewrite findPath_initialised, Hs, He in Hpath. simpl in Hpath.
      destruct fuel as [|[|fuel]].
      + done.
      + destruct (aStar_one g (worldToGrid start) (worldToGrid end_))
          as [Hout|[Heq Hone]].
        * by rewrite Hout in Hpath.
        * rewrite Hone in Hpath. right; right; left. split; [done|].
          by injection Hpath.
      + rewrite (aStar_short g _ _ fuel He) in Hpath by lia. simpl in Hpath.
        destruct (heuristic_le_1 (worldToGrid start) (worldToGrid end_))
          as [Heq|Hnb]; [lia| |].
        * rewrite decide_True in Hpath by done. right; right; left.
          split; [done|]. by injection Hpath.
        * rewrite decide_False in Hpath by (by apply neighbors_ne).
          right; right; right. split; [done|]. by injection Hpath. }
  split; [done|].
  destruct Hshape as [->|[->|[[_ ->]|[_ ->]]]]; simpl; lia.
Qed.

(** X24.  [findPath] never returns more than two waypoints.  Whatever the
    grid, the points and the number of loop iterations allowed, a path it
    returns is the end point alone (no grid, or a cell that is not valid),
    the grid point of the end cell alone (search given up), the grid point
    of the common cell of start and end, or the grid points of the start
    cell and of the end cell when the two are neighbours: the enemies are
    never led around an obstacle. *)
Theorem findPath_at_most_two_waypoints (fuel : nat) (grid : option Grid)
    (start end_ : Vector3) (path : list Vector3) :
  findPath fuel grid start end_ = Return path →
  (path = [end_]
   ∨ path = [gridToWorld (worldToGrid end_)]
   ∨ (worldToGrid end_ = worldToGrid start ∧ path = [gridToWorld (worldToGrid start)])
   ∨ (worldToGrid end_ ∈ neighbors (worldToGrid start)
      ∧ path = [gridToWorld (worldToGrid start); gridToWorld (worldToGrid end_)]))
  ∧ (1 ≤ length path ≤ 2)%nat.
Proof. apply findPath_shapes. Qed.

Lemma findPath_at_most_two_waypoints_witness :
  (1 ≤ length [gridToWorld (25, 25)%Z; gridToWorld (25, 24)%Z] ≤ 2)%nat.
Proof.
  apply (findPath_at_most_two_waypoints 2 (Some walledGrid) (worldPoint 0 0 0)
           (worldPoint 0 0 (-1))).
  vm_compute. reflexivity.
Defined.

End PathLength.

(** ** Player tracking *)

Section Tracking.
Import Steering.

Lemma forOf_app {S A} (body : S → A → completion S) (xs ys : list A) (st : S) :
  forOf body (xs ++ ys) st = forOf body xs st ≫= forOf body ys.
Proof.
  revert st. induction xs as [|x xs IH]; intros st; simpl; [done|].
  destruct (body st x); simpl; [apply IH|done|done].
Qed.

Lemma drop_S_tail {A} (k : nat) (l : list A) : drop (S k) l = tail (drop k l).
Proof.
  revert l. induction k as [|k IH]; intros [|a l]; simpl; done.
Qed.

Lemma propertyOf_last {A} (l : list A) (a : A) :
  propertyOf (l ++ [a]) (Z.of_nat (length (l ++ [a])) - 1) = Return a.
Proof.
  apply propertyOf_lookup; [rewrite length_app; simpl; lia|].
  rewrite length_app; simpl.
  replace (Z.to_nat (Z.of_nat (length l + 1) - 1)) with (length l) by lia.
  by rewrite lookup_app_r, Nat.sub_diag by lia.
Qed.

Lemma propertyOf_before_last {A} (l : list A) (a b : A) :
  propertyOf (l ++ [a; b]) (Z.of_nat (length (l ++ [a; b])) - 2) = Return a.
Proof.
  apply propertyOf_lookup; [rewrite length_app; simpl; lia|].
  rewrite length_app; simpl.
  replace (Z.to_nat (Z.of_nat (length l + 2) - 2)) with (length l) by lia.
  by rewrite lookup_app_r, Nat.sub_diag by lia.
Qed.

(** X25.  The history kept by [updatePlayerTracking].  After any number of
    calls on a new enemy the call has returned (the two array reads of the
    prediction are always in range), the history holds the positions of the
    last five calls, oldest first, or of all the calls when there were
    fewer, and the predicted position is the last position after one call
    and the last position plus three times the last step after that. *)
Theorem updatePlayerTracking_history (positions : list Vector3) :
  ∃ s, forOf (λ s p, updatePlayerTracking p s) positions initial = Return s
       ∧ lastPlayerPositions s = drop (length positions - 5) positions
       ∧ (length (lastPlayerPositions s) ≤ 5)%nat
       ∧ predictedPlayerPosition s
         = match reverse positions with
           | [] => THREE.mkVector3 0%Q 0%Q 0%Q
           | [only] => only
           | recent :: prev :: _ =>
               THREE.add recent (THREE.multiplyScalar (THREE.sub recent prev) 3)
           end
       ∧ pathWaypoints s = [] ∧ currentWaypointIndex s = 0.
Proof.
  induction positions as [|p positions IH] using rev_ind.
  - exists initial. repeat split; simpl; lia.
  - destruct IH as (s & Hrun & Hhist & Hlen & _ & Hpath & Hindex).
    rewrite forOf_app, Hrun. simpl. unfold updatePlayerTracking. cbv zeta.
    rewrite Hhist, reverse_snoc.
    set (n := length positions) in *.
    assert (Hdrop : length (drop (n - 5) positions) = Nat.min n 5).
    { rewrite length_drop. unfold n. lia. }
    assert (Hshift :
      (if bool_decide (5 < length (drop (n - 5) positions ++ [p]))%nat
       then tail (drop (n - 5) positions ++ [p])
       else drop (n - 5) positions ++ [p])
      = drop (length (positions ++ [p]) - 5) (positions ++ [p])).
    { rewrite !length_app, Hdrop. simpl. fold n. case_bool_decide as Hfull.
      - replace (n + 1 - 5)%nat with (S (n - 5)) by lia.
        rewrite drop_app_le by (unfold n in *; lia).
        rewrite drop_S_tail.
        destruct (drop (n - 5) positions) as [|q qs] eqn:Hq; [simpl in Hdrop; lia|].
        done.
      - replace (n + 1 - 5)%nat with 0%nat by lia.
        replace (n - 5)%nat with 0%nat by lia. done. }
    rewrite Hshift.
    set (history := drop (length (positions ++ [p]) - 5) (positions ++ [p])).
    assert (Hlen' : (length history ≤ 5)%nat).
    { unfold history. rewrite length_drop. lia. }
    destruct (reverse positions) as [|prev older] eqn:Hrev.
    + apply (f_equal reverse) in Hrev. rewrite reverse_involutive in Hrev.
      subst positions. simpl in *.
      eexists. split; [done|]. by repeat split.
    + apply (f_equal reverse) in Hrev. rewrite reverse_involutive in Hrev.
      rewrite reverse_cons in Hrev.
      assert (Hhistory : ∃ front, history = front ++ [prev; p]).
      { unfold history. rewrite Hrev, <- app_assoc. simpl.
        rewrite !length_app. simpl.
        exists (drop (length (reverse older) + 2 - 5) (reverse older)).
        rewrite drop_app_le by lia. done. }
      destruct Hhistory as [front Hfront].
      rewrite bool_decide_eq_true_2
        by (rewrite Hfront, length_app; simpl; lia).
      rewrite Hfront.
      replace (front ++ [prev; p]) with ((front ++ [prev]) ++ [p])
        by (by rewrite <- app_assoc).
      rewrite propertyOf_last. simpl.
      replace ((front ++ [prev]) ++ [p]) with (front ++ [prev; p])
        by (by rewrite <- app_assoc).
      rewrite propertyOf_before_last. simpl.
      eexists. split; [done|]. simpl.
      split; [done|]. split; [by rewrite <- Hfront|]. by repeat split.
Qed.

End Tracking.

(** ** Path following *)

Section Following.
Import Steering.

(** X26.  A call of [updatePathfinding] on an enemy whose waypoint index
    lies between 0 and the number of its waypoints either runs out of loop
    iterations inside [findPath] or returns, never throwing: the index then
    still lies within the waypoints and has advanced by at most one, or has
    been reset to 0 or 1 by a new path; the position of the enemy is
    unchanged; the point returned is the target or one of the waypoints;
    and a new path, stamped with the time of the call, has one or two
    waypoints.  While the grid of the path finder has not been initialised
    the call always returns. *)
Theorem updatePathfinding_follows (fuel : nat) (grid : option PathFinder.Grid)
    (currentTime : Z) (targetPosition : Vector3) (e : Enemy.t) (s : t) :
  0 ≤ currentWaypointIndex s ≤ Z.of_nat (length (pathWaypoints s)) →
  (updatePathfinding fuel grid currentTime targetPosition (e, s) = OutOfFuel
   ∧ grid ≠ None)
  ∨ ∃ point e' s',
      updatePathfinding fuel grid currentTime targetPosition (e, s)
      = Return (point, (e', s'))
      ∧ 0 ≤ currentWaypointIndex s' ≤ Z.of_nat (length (pathWaypoints s'))
      ∧ Enemy.position e' = Enemy.position e
      ∧ (point = targetPosition ∨ point ∈ pathWaypoints s')
      ∧ ((pathWaypoints s' = pathWaypoints s
          ∧ lastPathUpdate s' = lastPathUpdate s
          ∧ currentWaypointIndex s ≤ currentWaypointIndex s'
            ≤ currentWaypointIndex s + 1)
         ∨ (lastPathUpdate s' = currentTime
            ∧ (1 ≤ length (pathWaypoints s') ≤ 2)%nat
            ∧ 0 ≤ currentWaypointIndex s' ≤ 1
            ∧ AIState.currentTarget (Enemy.aiState e') = Some targetPosition)).
Proof.
  intros Hindex. unfold updatePathfinding.
  assert (Hstep : ∀ (e1 : Enemy.t) (s1 : t),
    0 ≤ currentWaypointIndex s1 ≤ Z.of_nat (length (pathWaypoints s1)) →
    ∃ point s',
      (if bool_decide (currentWaypointIndex s1 < Z.of_nat (length (pathWaypoints s1)))
       then
         currentWaypoint ← propertyOf (pathWaypoints s1) (currentWaypointIndex s1);
         Return (currentWaypoint,
                 (e1, if THREE.distanceTo_lt (Enemy.position e1) currentWaypoint (3 # 2)
                      then mk (lastPlayerPositions s1) (predictedPlayerPosition s1)
                              (pathWaypoints s1) (currentWaypointIndex s1 + 1)
                              (lastPathUpdate s1)
                      else s1))
       else Return (targetPosition, (e1, s1)))
      = Return (point, (e1, s'))
      ∧ 0 ≤ currentWaypointIndex s' ≤ Z.of_nat (length (pathWaypoints s'))
      ∧ (point = targetPosition ∨ point ∈ pathWaypoints s')
      ∧ pathWaypoints s' = pathWaypoints s1
      ∧ lastPathUpdate s' = lastPathUpdate s1
      ∧ currentWaypointIndex s1 ≤ currentWaypointIndex s' ≤ currentWaypointIndex s1 + 1).
  { intros e1 s1 Hs1. case_bool_decide as Hin.
    - destruct (lookup_lt_is_Some_2 (pathWaypoints s1)
                  (Z.to_nat (currentWaypointIndex s1))) as [w Hw]; [lia|].
      rewrite (propertyOf_lookup _ _ w) by (lia || done). simpl.
      apply list_elem_of_lookup_2 in Hw as Hmem.
      destruct (THREE.distanceTo_lt (Enemy.position e1) w (3 # 2));
        eexists _, _; (split; [done|]); simpl; repeat split; try lia; by right.
    - eexists _, _. split; [done|]. repeat split; try lia. by left. }
  destruct (bool_decide (2000 < currentTime - lastPathUpdate s) || _) eqn:Hrefresh.
  - destruct (PathFinder.findPath fuel grid (Enemy.position e) targetPosition)
      as [path|err|] eqn:Hfind.
    + pose proof (findPath_shapes _ _ _ _ _ Hfind) as [_ Hlen].
      cbn [mbind completion_bind].
      destruct (Hstep (set_currentTarget (Some targetPosition) e)
                  (mk (lastPlayerPositions s) (predictedPlayerPosition s) path 0
                      currentTime))
        as (point & s' & Hrun & Hidx & Hpoint & Hpath & Hlast & Hadv);
        [simpl; lia|].
      right. exists point, (set_currentTarget (Some targetPosition) e), s'.
      split; [exact Hrun|]. split; [done|]. split; [done|]. split; [done|].
      right. simpl in *. rewrite Hpath, Hlast. repeat split; try done; lia.
    + by apply findPath_no_throw in Hfind.
    + left. split; [done|]. by destruct grid.
  - cbn [mbind completion_bind].
    destruct (Hstep e s Hindex) as (point & s' & Hrun & Hidx & Hpoint & Hpath & Hlast & Hadv).
    right. exists point, e, s'.
    split; [exact Hrun|]. split; [done|]. split; [done|]. split; [done|].
    left. done.
Qed.

Lemma updatePathfinding_follows_witness :
  ∃ point e' s',
    updatePathfinding 0 None 5000 (worldPoint 3 0 0)
      (sampleEnemy "enemy_a" (worldPoint 0 0 0) 0, initial)
    = Return (point, (e', s'))
    ∧ Enemy.position e' = worldPoint 0 0 0.
Proof.
  destruct (updatePathfinding_follows 0 None 5000 (worldPoint 3 0 0)
              (sampleEnemy "enemy_a" (worldPoint 0 0 0) 0) initial)
    as [[_ Hgrid]|(point & e' & s' & Hrun & _ & Hpos & _)];
    [simpl; lia|done|].
  by exists point, e', s'.
Defined.

End Following.

(** ** The priority queue *)

Section Heap.
Import PriorityQueue.
Context {T : Type}.
Implicit Types heap : PriorityQueue.t T.

Lemma parent_lt (i : nat) : (0 < i)%nat → ((i - 1) / 2 < i)%nat.
Proof.
  intros Hi. pose proof (Nat.div_mod_eq (i - 1) 2).
  pose proof (Nat.mod_upper_bound (i - 1) 2). lia.
Qed.

Lemma parent_children (c i : nat) :
  (0 < c)%nat → ((c - 1) / 2)%nat = i ↔ c = (2 * i + 1)%nat ∨ c = (2 * i + 2)%nat.
Proof.
  intros Hc. pose proof (Nat.div_mod_eq (c - 1) 2).
  pose proof (Nat.mod_upper_bound (c - 1) 2). lia.
Qed.

Lemma swap_length (a b : nat) heap : length (swap a b heap) = length heap.
Proof.
  unfold swap. destruct (heap !! a), (heap !! b); by rewrite ?length_insert.
Qed.

Lemma swap_perm (a b : nat) heap : swap a b heap ≡ₚ heap.
Proof.
  unfold swap. destruct (heap !! a) eqn:Ha, (heap !! b) eqn:Hb; try done.
  by apply Permutation_insert_swap.
Qed.

Lemma swap_lookup (a b k : nat) heap :
  (a < length heap)%nat → (b < length heap)%nat →
  swap a b heap !! k
  = if decide (k = b) then heap !! a else if decide (k = a) then heap !! b
    else heap !! k.
Proof.
  intros Ha Hb. unfold swap.
  destruct (lookup_lt_is_Some_2 heap a Ha) as [x Hx].
  destruct (lookup_lt_is_Some_2 heap b Hb) as [y Hy].
  rewrite Hx, Hy.
  destruct (decide (k = b)) as [->|Hkb].
  - by rewrite list_lookup_insert_eq by (rewrite length_insert; lia).
  - rewrite list_lookup_insert_ne by done.
    destruct (decide (k = a)) as [->|Hka].
    + by rewrite list_lookup_insert_eq by lia.
    + by rewrite list_lookup_insert_ne.
Qed.

Lemma swap_priorityAt (a b k : nat) heap :
  (a < length heap)%nat → (b < length heap)%nat →
  priorityAt (swap a b heap) k
  = if decide (k = b) then priorityAt heap a else if decide (k = a) then priorityAt heap b
    else priorityAt heap k.
Proof.
  intros Ha Hb. unfold priorityAt. rewrite swap_lookup by done.
  by repeat case_decide.
Qed.

Lemma priorityAt_lookup heap (i : nat) (x : entry T) :
  heap !! i = Some x → priorityAt heap i = Some (priority x).
Proof. unfold priorityAt. by intros ->. Qed.

Lemma bubbleUpLoop_heap (fuel i : nat) heap (x : entry T) :
  heap !! i = Some x → orderedButUp heap i → (i < fuel)%nat →
  ∃ heap', bubbleUpLoop fuel (Some x) i heap = Return heap'
           ∧ heapOrdered heap' ∧ heap' ≡ₚ heap.
Proof.
  revert i heap. induction fuel as [|fuel IH]; intros i heap Hx [Hup Hgrand] Hfuel;
    [lia|].
  cbn [bubbleUpLoop]. case_bool_decide as Hi.
  - pose proof (parent_lt i Hi) as Hparent.
    pose proof (lookup_lt_Some _ _ _ Hx) as Hlen.
    destruct (lookup_lt_is_Some_2 heap ((i - 1) / 2)) as [y Hy]; [lia|].
    rewrite Hy. simpl. case_bool_decide as Hle.
    + exists heap. split; [done|]. split; [|done].
      intros j Hj. destruct (decide (j = i)) as [->|Hji]; [|by apply Hup].
      intros p q Hp Hq.
      rewrite (priorityAt_lookup _ _ _ Hx) in Hp.
      rewrite (priorityAt_lookup _ _ _ Hy) in Hq. by simplify_eq.
    + set (up := ((i - 1) / 2)%nat) in *.
      destruct (IH up (swap i up heap)) as (heap' & Hrun & Hordered & Hperm).
      * rewrite swap_lookup by lia. by rewrite decide_True.
      * split.
        -- intros j Hj Hjup p q Hp Hq.
           rewrite swap_priorityAt in Hp, Hq by lia.
           rewrite (priorityAt_lookup _ _ _ Hx), (priorityAt_lookup _ _ _ Hy) in *.
           rewrite decide_False in Hp by done.
           destruct (decide (j = i)) as [->|Hji].
           ++ fold up in Hq. rewrite decide_True in Hq by done. simplify_eq. lia.
           ++ destruct (decide (((j - 1) / 2)%nat = up)) as [Hpu|Hpu].
              ** simplify_eq.
                 assert (priority y ≤ p); [|lia].
                 apply (Hup j Hj Hji p (priority y)); [done|].
                 rewrite Hpu. by apply priorityAt_lookup.
              ** destruct (decide (((j - 1) / 2)%nat = i)) as [Hpi|Hpi].
                 --- simplify_eq.
                     apply (Hgrand Hi j p (priority y)); try done.
                     by apply priorityAt_lookup.
                 --- by apply (Hup j Hj Hji).
        -- intros Hup0 c p q Hc Hcu Hp Hq.
           pose proof (parent_lt up Hup0) as Hpp.
           pose proof (parent_lt c Hc) as Hpc.
           rewrite swap_priorityAt in Hp, Hq by lia.
           rewrite (priorityAt_lookup _ _ _ Hx), (priorityAt_lookup _ _ _ Hy) in *.
           rewrite !decide_False in Hq by lia.
           rewrite decide_False in Hp by lia.
           assert (Hqy : q ≤ priority y).
           { apply (Hup up Hup0 ltac:(lia) (priority y) q); [|done].
             by apply priorityAt_lookup. }
           destruct (decide (c = i)) as [->|Hci]; [by simplify_eq|].
           assert (priority y ≤ p); [|lia].
           apply (Hup c Hc Hci p (priority y)); [done|].
           rewrite Hcu. by apply priorityAt_lookup.
      * lia.
      * exists heap'. split; [done|]. split; [done|].
        by rewrite Hperm, swap_perm.
  - exists heap. split; [done|]. split; [|done].
    intros j Hj. apply Hup; lia.
Qed.

(** After [push], only the new entry can be out of order. *)
Lemma push_orderedButUp heap (x : entry T) :
  heapOrdered heap → orderedButUp (heap ++ [x]) (length heap).
Proof.
  intros Hordered. split.
  - intros j Hj Hjn p q Hp Hq. unfold priorityAt in *.
    destruct (decide (j < length heap)%nat) as [Hlt|Hge].
    + pose proof (parent_lt j Hj).
      rewrite lookup_app_l in Hp, Hq by lia. by apply (Hordered j Hj).
    + rewrite lookup_ge_None_2 in Hp; [done|]. rewrite length_app; simpl. lia.
  - intros Hn c p q Hc Hcn Hp Hq. unfold priorityAt in Hp.
    pose proof (parent_lt c Hc).
    rewrite lookup_ge_None_2 in Hp; [done|]. rewrite length_app; simpl. lia.
Qed.

Lemma bind_assoc_Return {A B C} (m : completion A) (f : A → completion B)
    (g : B → completion C) (r : B) :
  m ≫= f = Return r → m ≫= (λ x, f x ≫= g) = g r.
Proof. destruct m as [a| |]; simpl; [|done..]. by intros ->. Qed.

(** The choice of [smallest] in [bubbleDown]. *)
Lemma smallest_choice (i : nat) heap :
  ∃ smallest,
    ((if bool_decide (2 * i + 1 < length heap)%nat then
        l ← defined (heap !! (2 * i + 1)%nat);
        s ← defined (heap !! i);
        Return (if bool_decide (priority l < priority s) then (2 * i + 1)%nat else i)
      else Return i) ≫= λ smallest,
     if bool_decide (2 * i + 2 < length heap)%nat then
       r ← defined (heap !! (2 * i + 2)%nat);
       s ← defined (heap !! smallest);
       Return (if bool_decide (priority r < priority s) then (2 * i + 2)%nat
               else smallest)
     else Return smallest)
    = Return smallest
    ∧ (smallest = i ∨ smallest = (2 * i + 1)%nat ∨ smallest = (2 * i + 2)%nat)
    ∧ (smallest ≠ i → (smallest < length heap)%nat)
    ∧ ∀ c p m, c = i ∨ c = (2 * i + 1)%nat ∨ c = (2 * i + 2)%nat →
        priorityAt heap c = Some p → priorityAt heap smallest = Some m →
        m ≤ p ∧ (smallest ≠ i → c = i → m < p).
Proof.
  assert (Hfinish : ∀ sm (x : entry T),
    heap !! sm = Some x →
    (sm = i ∨ sm = (2 * i + 1)%nat ∨ sm = (2 * i + 2)%nat) →
    (∀ c y, c = i ∨ c = (2 * i + 1)%nat ∨ c = (2 * i + 2)%nat →
       heap !! c = Some y →
       priority x ≤ priority y ∧ (sm ≠ i → c = i → priority x < priority y)) →
    (sm = i ∨ sm = (2 * i + 1)%nat ∨ sm = (2 * i + 2)%nat)
    ∧ (sm ≠ i → (sm < length heap)%nat)
    ∧ ∀ c p m, c = i ∨ c = (2 * i + 1)%nat ∨ c = (2 * i + 2)%nat →
        priorityAt heap c = Some p → priorityAt heap sm = Some m →
        m ≤ p ∧ (sm ≠ i → c = i → m < p)).
  { intros sm x Hx Hwhich Hmin. split; [done|].
    split; [intros _; by eapply lookup_lt_Some|].
    intros c p m Hc Hp Hm. unfold priorityAt in Hp, Hm. rewrite Hx in Hm.
    destruct (heap !! c) as [y|] eqn:Hy; [|done]. simplify_eq/=.
    by apply Hmin. }
  destruct (decide (2 * i + 1 < length heap)%nat) as [Hleft|Hleft].
  - rewrite (bool_decide_eq_true_2 (2 * i + 1 < length heap)%nat) by done.
    destruct (lookup_lt_is_Some_2 heap (2 * i + 1)) as [l Hl]; [lia|].
    destruct (lookup_lt_is_Some_2 heap i) as [s Hs]; [lia|].
    rewrite Hl, Hs. cbn [defined mbind completion_bind].
    destruct (decide (2 * i + 2 < length heap)%nat) as [Hright|Hright].
    + rewrite (bool_decide_eq_true_2 (2 * i + 2 < length heap)%nat) by done.
      destruct (lookup_lt_is_Some_2 heap (2 * i + 2)) as [r Hr]; [lia|].
      rewrite Hr. cbn [defined mbind completion_bind].
      destruct (decide (priority l < priority s)) as [Hls|Hls].
      * rewrite (bool_decide_eq_true_2 (priority l < priority s)) by done.
        rewrite Hl. cbn [defined mbind completion_bind].
        destruct (decide (priority r < priority l)) as [Hrl|Hrl].
        -- rewrite (bool_decide_eq_true_2 (priority r < priority l)) by done.
           eexists. split; [done|]. apply (Hfinish _ r); [done|auto|].
           intros c y [-> | [-> | ->]] Hy; simplify_eq; split; (lia || (intros; lia)).
        -- rewrite (bool_decide_eq_false_2 (priority r < priority l)) by done.
           eexists. split; [done|]. apply (Hfinish _ l); [done|auto|].
           intros c y [-> | [-> | ->]] Hy; simplify_eq; split; (lia || (intros; lia)).
      * rewrite (bool_decide_eq_false_2 (priority l < priority s)) by done.
        rewrite Hs. cbn [defined mbind completion_bind].
        destruct (decide (priority r < priority s)) as [Hrs|Hrs].
        -- rewrite (bool_decide_eq_true_2 (priority r < priority s)) by done.
           eexists. split; [done|]. apply (Hfinish _ r); [done|auto|].
           intros c y [-> | [-> | ->]] Hy; simplify_eq; split; (lia || (intros; lia)).
        -- rewrite (bool_decide_eq_false_2 (priority r < priority s)) by done.
           eexists. split; [done|]. apply (Hfinish _ s); [done|auto|].
           intros c y [-> | [-> | ->]] Hy; simplify_eq; split; (lia || (intros; lia)).
    + rewrite (bool_decide_eq_false_2 (2 * i + 2 < length heap)%nat) by done.
      assert (Hnone : heap !! (2 * i + 2)%nat = None) by (apply lookup_ge_None_2; lia).
      destruct (decide (priority l < priority s)) as [Hls|Hls].
      * rewrite (bool_decide_eq_true_2 (priority l < priority s)) by done.
        eexists. split; [done|]. apply (Hfinish _ l); [done|auto|].
        intros c y [-> | [-> | ->]] Hy; simplify_eq; split; (lia || (intros; lia)).
      * rewrite (bool_decide_eq_false_2 (priority l < priority s)) by done.
        eexists. split; [done|]. apply (Hfinish _ s); [done|auto|].
        intros c y [-> | [-> | ->]] Hy; simplify_eq; split; (lia || (intros; lia)).
  - rewrite (bool_decide_eq_false_2 (2 * i + 1 < length heap)%nat) by done.
    cbn [mbind completion_bind].
    rewrite (bool_decide_eq_false_2 (2 * i + 2 < length heap)%nat) by lia.
    exists i. split; [done|]. split; [auto|]. split; [done|].
    intros c p m Hc Hp Hm. unfold priorityAt in *.
    destruct Hc as [-> | [-> | ->]].
    + simplify_eq. split; [lia|done].
    + rewrite lookup_ge_None_2 in Hp; [done|lia].
    + rewrite lookup_ge_None_2 in Hp; [done|lia].
Qed.

Lemma bubbleDown_heap (fuel i : nat) heap :
  orderedButDown heap i → (0 < fuel)%nat → (length heap ≤ fuel + i)%nat →
  ∃ heap', bubbleDown fuel i heap = Return heap'
           ∧ heapOrdered heap' ∧ heap' ≡ₚ heap.
Proof.
  revert i heap. induction fuel as [|fuel IH]; intros i heap [Hdown Hgrand] Hfuel Hlen;
    [lia|].
  cbn [bubbleDown]. cbv zeta.
  destruct (smallest_choice i heap) as (sm & Hchoice & Hwhich & Hrange & Hmin).
  match goal with
  | |- ∃ heap', ?run = _ ∧ _ =>
      assert (Hrun0 : run = (if bool_decide (sm ≠ i)
                             then bubbleDown fuel sm (swap i sm heap)
                             else Return heap))
        by (apply (bind_assoc_Return _ _
                     (λ smallest, if bool_decide (smallest ≠ i)
                                  then bubbleDown fuel smallest (swap i smallest heap)
                                  else Return heap) _ Hchoice));
      rewrite Hrun0; clear Hrun0 Hchoice
  end.
  case_bool_decide as Hmoved.
  - specialize (Hrange Hmoved).
    assert (Hsmi : (i < sm)%nat) by lia.
    assert (Hparent : ((sm - 1) / 2)%nat = i) by (apply parent_children; lia).
    destruct (lookup_lt_is_Some_2 heap sm Hrange) as [m Hm].
    destruct (lookup_lt_is_Some_2 heap i) as [s Hs]; [lia|].
    pose proof (priorityAt_lookup _ _ _ Hm) as Hpm.
    pose proof (priorityAt_lookup _ _ _ Hs) as Hps.
    destruct (IH sm (swap i sm heap)) as (heap' & Hrun & Hordered & Hperm).
    + split.
      * intros j Hj Hjsm p q Hp Hq.
        pose proof (parent_lt j Hj) as Hpj.
        destruct (Nat.eq_dec j sm) as [->|Hjs].
        -- rewrite swap_priorityAt in Hp, Hq by lia.
           rewrite decide_True in Hp by done.
           rewrite decide_False in Hq by lia.
           rewrite decide_True in Hq by done.
           destruct (Hmin i p q) as [Hle _]; auto.
        -- destruct (Nat.eq_dec j i) as [->|Hji].
           ++ rewrite swap_priorityAt in Hp, Hq by lia.
              rewrite decide_False in Hp by done.
              rewrite decide_True in Hp by done.
              rewrite !decide_False in Hq by lia.
              apply (Hgrand Hj sm p q); try done. lia.
           ++ destruct (Nat.eq_dec ((j - 1) / 2)%nat i) as [Hpi|Hpi].
              ** rewrite swap_priorityAt in Hp, Hq by lia.
                 rewrite !decide_False in Hp by done.
                 rewrite decide_False in Hq by done.
                 rewrite decide_True in Hq by done.
                 apply parent_children in Hpi as Hchild; [|done].
                 destruct (Hmin j p q) as [Hle _]; auto.
              ** rewrite swap_priorityAt in Hp, Hq by lia.
                 rewrite !decide_False in Hp by done.
                 rewrite !decide_False in Hq by done.
                 by apply (Hdown j Hj Hpi).
      * intros Hsm0 c p q Hc Hcs Hp Hq.
        pose proof (parent_lt c Hc) as Hpc.
        rewrite swap_priorityAt in Hp, Hq by lia.
        rewrite decide_False in Hq by lia.
        rewrite decide_True in Hq by done.
        rewrite !decide_False in Hp by lia.
        apply (Hdown c Hc ltac:(lia) p q); [done|]. by rewrite Hcs.
    + lia.
    + rewrite swap_length. lia.
    + exists heap'. split; [done|]. split; [done|]. by rewrite Hperm, swap_perm.
  - subst sm.
    exists heap. split; [done|]. split; [|done].
    intros j Hj p q Hp Hq.
    destruct (decide (((j - 1) / 2)%nat = i)) as [Hpi|Hpi]; [|by apply (Hdown j Hj Hpi)].
    rewrite Hpi in Hq. apply parent_children in Hpi; [|done].
    destruct (Hmin j p q) as [Hle _]; auto.
Qed.

(** [pop] takes the last entry off. *)
Lemma pop_last {A} (l : list A) (x : A) :
  last l = Some x → l = removelast l ++ [x].
Proof.
  destruct l as [|y l _] using rev_ind; [done|].
  rewrite last_snoc. intros [= ->]. by rewrite removelast_last.
Qed.

(** In a heap the first entry has the least priority. *)
Lemma heapOrdered_root heap (top : entry T) :
  heapOrdered heap → heap !! 0%nat = Some top →
  ∀ j x, heap !! j = Some x → priority top ≤ priority x.
Proof.
  intros Hordered Htop j. induction j as [j IH] using lt_wf_ind. intros x Hx.
  destruct (decide (j = 0%nat)) as [->|Hj]; [simplify_eq; lia|].
  pose proof (parent_lt j ltac:(lia)) as Hparent.
  destruct (lookup_lt_is_Some_2 heap ((j - 1) / 2)) as [y Hy].
  { apply lookup_lt_Some in Hx. lia. }
  pose proof (IH _ Hparent y Hy).
  assert (priority y ≤ priority x); [|lia].
  apply (Hordered j ltac:(lia)); by apply priorityAt_lookup.
Qed.

(** X27.  [enqueue] keeps the heap a heap.  On a heap in heap order, with
    room for one round per level, it returns (the reads of the loop are
    always in range) a heap in heap order that holds the entries it held
    and the new one. *)
Theorem enqueue_heap (fuel : nat) (x : T) (p : Z) heap :
  heapOrdered heap → (length heap < fuel)%nat →
  ∃ heap', enqueue fuel x p heap = Return heap'
           ∧ heapOrdered heap'
           ∧ heap' ≡ₚ mkEntry x p :: heap.
Proof.
  intros Hordered Hfuel. unfold enqueue, bubbleUp. cbv zeta.
  replace (length (heap ++ [mkEntry x p]) - 1)%nat with (length heap)
    by (rewrite length_app; simpl; lia).
  rewrite lookup_app_r, Nat.sub_diag by lia. simpl.
  destruct (bubbleUpLoop_heap fuel (length heap) (heap ++ [mkEntry x p]) (mkEntry x p))
    as (heap' & Hrun & Hheap & Hperm).
  - by rewrite lookup_app_r, Nat.sub_diag by lia.
  - by apply push_orderedButUp.
  - done.
  - exists heap'. split; [done|]. split; [done|].
    rewrite Hperm. by rewrite Permutation_app_comm.
Qed.

(** X28.  [dequeue] hands out a least entry.  On the empty heap it returns
    [undefined] and leaves the heap empty.  On a heap in heap order that is
    not empty, with room for one round per level, it returns the element of
    an entry whose priority no entry of the heap is below, and leaves a
    heap in heap order that holds the other entries. *)
Theorem dequeue_min (fuel : nat) heap :
  heapOrdered heap → (length heap ≤ fuel)%nat →
  (heap = [] → dequeue fuel heap = Return (None, []))
  ∧ (heap ≠ [] →
     ∃ top heap',
       dequeue fuel heap = Return (Some (element top), heap')
       ∧ heap ≡ₚ top :: heap'
       ∧ heapOrdered heap'
       ∧ ∀ x, x ∈ heap → priority top ≤ priority x).
Proof.
  intros Hordered Hfuel. split; [by intros ->|]. intros Hne.
  unfold dequeue, isEmpty.
  assert (Hn : (0 < length heap)%nat) by (destruct heap; [done|simpl; lia]).
  rewrite bool_decide_eq_false_2 by lia. cbv zeta.
  destruct (lookup_lt_is_Some_2 heap 0) as [top Htop]; [lia|].
  set (n := length heap) in *.
  set (swapped := swap 0 (n - 1) heap).
  assert (Hlen : length swapped = n) by apply swap_length.
  assert (Hlast : last swapped = Some top).
  { rewrite last_lookup, Hlen. unfold swapped.
    rewrite swap_lookup by (fold n; lia).
    replace (Nat.pred n) with (n - 1)%nat by lia. by rewrite decide_True. }
  pose proof (pop_last _ _ Hlast) as Hsplit.
  set (rest := removelast swapped) in *.
  assert (Hrest : length rest = (n - 1)%nat).
  { apply (f_equal length) in Hsplit. rewrite length_app in Hsplit.
    simpl in Hsplit. lia. }
  destruct (bubbleDown_heap fuel 0 rest) as (heap' & Hrun & Hheap & Hperm).
  - split; [|intros ?; lia].
    intros j Hj Hpj p q Hp Hq.
    pose proof (parent_lt j Hj) as Hparent.
    assert (Hjn : (j < n - 1)%nat).
    { unfold priorityAt in Hp. destruct (rest !! j) eqn:Hrj; [|done].
      apply lookup_lt_Some in Hrj. lia. }
    assert (Hsame : ∀ k, (0 < k)%nat → (k < n - 1)%nat →
              priorityAt rest k = priorityAt heap k).
    { intros k Hk0 Hkn. unfold priorityAt.
      replace (rest !! k) with (swapped !! k)
        by (rewrite Hsplit, lookup_app_l by lia; done).
      unfold swapped. rewrite swap_lookup by (fold n; lia).
      by rewrite !decide_False by lia. }
    rewrite Hsame in Hp, Hq by lia. by apply (Hordered j Hj).
  - lia.
  - lia.
  - rewrite Hrun. cbn [mbind completion_bind]. rewrite Hlast. simpl.
    exists top, heap'. split; [done|]. split; [|split; [done|]].
    + rewrite Hperm. rewrite <- (swap_perm 0 (n - 1) heap). fold swapped.
      rewrite Hsplit at 1. by rewrite Permutation_app_comm.
    + intros x [j Hx]%list_elem_of_lookup.
      exact (heapOrdered_root heap top Hordered Htop j x Hx).
Qed.

End Heap.

Section HeapSamples.
Import PriorityQueue.

Lemma sampleHeap_ordered : heapOrdered sampleHeap.
Proof.
  intros i Hi p q Hp Hq. unfold priorityAt in *.
  destruct i as [|[|[|i]]]; simpl in *; simplify_eq; lia.
Qed.

Lemma enqueue_heap_witness :
  ∃ heap', enqueue 4 (24, 25) 0 sampleHeap = Return heap'
           ∧ heapOrdered heap'
           ∧ heap' ≡ₚ mkEntry (24, 25) 0 :: sampleHeap.
Proof.
  apply (enqueue_heap 4 (24, 25) 0 sampleHeap sampleHeap_ordered). simpl. lia.
Defined.

Lemma dequeue_min_witness :
  ∃ top heap',
    dequeue 3 sampleHeap = Return (Some (element top), heap')
    ∧ sampleHeap ≡ₚ top :: heap'
    ∧ heapOrdered heap'
    ∧ ∀ x, x ∈ sampleHeap → priority top ≤ priority x.
Proof.
  apply (dequeue_min 3 sampleHeap sampleHeap_ordered); [simpl; lia|done].
Defined.

End HeapSamples.

(** ** The alert level of a constructed enemy *)

Section AlertLevelFacts.
Import AlertLevel.

Lemma assign_NaN (v : field) (a : Assignment) :
  toNumber v = NaN → toNumber (assign v a) = NaN.
Proof. intros Hv. destruct a; simpl; by rewrite Hv. Qed.

Lemma assigns_NaN (assignments : list Assignment) (v : field) :
  toNumber v = NaN → toNumber (foldl assign v assignments) = NaN.
Proof.
  revert v. induction assignments as [|a assignments IH]; intros v Hv; [done|].
  simpl. by apply IH, assign_NaN.
Qed.

Lemma leader_last (group : list (string * field)) (first : string * field) :
  (∀ m, m ∈ group → toNumber m.2 = NaN) →
  foldl pickLeader first group = default first (last group).
Proof.
  revert first. induction group as [|m group IH]; intros first Hgroup; [done|].
  simpl. unfold pickLeader at 2.
  rewrite (Hgroup m) by (by left).
  replace (gt (toNumber first.2) NaN) with false by (by destruct (toNumber first.2)).
  rewrite IH by (intros m' Hm'; apply Hgroup; by right).
  destruct group as [|g gs]; [done|].
  change (last (m :: g :: gs)) with (last (g :: gs)).
  destruct (last (g :: gs)) eqn:Hlast; [done|]. by apply last_None in Hlast.
Qed.

(** X30.  The alert level of an enemy built by the constructor is never a
    number.  The constructor leaves the field undefined and every
    assignment to it computes from its old value, so after any sequence of
    alerts, sightings, losses of sight and hits the field holds [NaN]: the
    test [alertLevel > 50] that guards the alert of the squad fails, no
    comparison with another level succeeds, and in a group of such enemies
    the leader chosen by [reduce] is the last member. *)
Theorem alertLevel_never_a_number (assignments : list Assignment)
    (other : number) (group : list (string * list Assignment))
    (lastId : string) (lastAssignments : list Assignment) :
  let level := foldl assign constructed assignments in
  toNumber level = NaN
  ∧ spreadsAlert level = false
  ∧ gt (toNumber level) other = false
  ∧ gt other (toNumber level) = false
  ∧ leader ((λ m, (m.1, foldl assign constructed m.2))
              <$> (group ++ [(lastId, lastAssignments)]))
    = Some (lastId, foldl assign constructed lastAssignments).
Proof.
  cbv zeta.
  assert (Hnan : ∀ l, toNumber (foldl assign constructed l) = NaN)
    by (intros l; by apply assigns_NaN).
  split; [done|]. unfold spreadsAlert. rewrite Hnan.
  split; [done|]. split; [done|]. split; [by destruct other|].
  rewrite fmap_app. simpl.
  destruct (_ <$> group) as [|first rest] eqn:Hgroup; [done|].
  simpl. f_equal.
  rewrite leader_last.
  - by rewrite last_snoc.
  - intros m [Hm|Hm]%elem_of_app.
    + assert (Hin : m ∈ first :: rest) by (by right).
      rewrite <- Hgroup in Hin.
      apply list_elem_of_fmap in Hin as (m0 & -> & _). apply Hnan.
    + apply list_elem_of_singleton in Hm as ->. apply Hnan.
Qed.

End AlertLevelFacts.

(** ** Threat that stays *)

Section ThreatRatchet.
Import AICoordinator.

Lemma calls_iter (action : ThreatAction) (n : nat) (c : t) :
  0 ≤ playerThreatLevel c ≤ 100 →
  let c' := foldl threatStep c (replicate n (Call action)) in
  playerThreatLevel c'
  = Z.min 100 (playerThreatLevel c + threatDelta action * Z.of_nat n)
  ∧ pendingDecays c' = (pendingDecays c + n)%nat.
Proof.
  assert (Hdelta : 0 ≤ threatDelta action) by (destruct action; simpl; lia).
  revert c. induction n as [|n IH]; intros c Hc; cbv zeta.
  - simpl. split; lia.
  - cbn [replicate foldl threatStep].
    destruct (IH (updatePlayerThreatLevel action c)) as [Hlevel Hpending].
    { unfold updatePlayerThreatLevel; cbn [playerThreatLevel]. lia. }
    cbv zeta in Hlevel, Hpending. rewrite Hlevel, Hpending.
    unfold updatePlayerThreatLevel; cbn [playerThreatLevel pendingDecays].
    split; nia.
Qed.

Lemma timers_iter (n : nat) (c : t) :
  (n ≤ pendingDecays c)%nat → 0 ≤ playerThreatLevel c →
  let c' := foldl threatStep c (replicate n TimerFires) in
  playerThreatLevel c' = Z.max 0 (playerThreatLevel c - 5 * Z.of_nat n)
  ∧ pendingDecays c' = (pendingDecays c - n)%nat.
Proof.
  revert c. induction n as [|n IH]; intros c Hn Hc; cbv zeta.
  - simpl. split; lia.
  - cbn [replicate foldl threatStep].
    destruct (pendingDecays c) as [|k] eqn:Hk; [lia|].
    match goal with
    | |- context [foldl threatStep ?c1 _] =>
        destruct (IH c1) as [Hlevel Hpending];
          [simpl; lia|unfold decayCallback; cbn [playerThreatLevel]; lia|]
    end.
    cbv zeta in Hlevel, Hpending. rewrite Hlevel, Hpending.
    unfold decayCallback; cbn [playerThreatLevel pendingDecays]. split; lia.
Qed.

(** X29.  The decay does not undo what the player did.  From a new
    coordinator, after [n] calls of [updatePlayerThreatLevel] with one
    action and after the [n] callbacks they handed to [setTimeout] have
    run, no callback is pending and the threat level is
    max(0, min(100, d n) - 5 n) with d the points of the action: nothing
    for damage, and 10 n for up to six kills, which the coordinator never
    takes back.  With kills alone the level is then at most 65: it is above
    the mark of 70 that makes every formation scatter, as it is from five
    kills on, only while callbacks are pending. *)
Theorem threat_after_decay (action : ThreatAction) (n : nat) :
  let c := foldl threatStep new
             (replicate n (Call action) ++ replicate n TimerFires) in
  playerThreatLevel c
  = Z.max 0 (Z.min 100 (threatDelta action * Z.of_nat n) - 5 * Z.of_nat n)
  ∧ pendingDecays c = 0%nat
  ∧ (action = Damage → playerThreatLevel c = 0)
  ∧ (action = Kill → (n ≤ 6)%nat → playerThreatLevel c = 10 * Z.of_nat n)
  ∧ (action = Kill → playerThreatLevel c ≤ 65)
  ∧ (action = Kill → (5 ≤ n)%nat →
     ∀ (groupSize : nat) (playerPos : Vector3) (group : list Enemy.t),
       selectFormationType groupSize playerPos group
         (foldl threatStep new (replicate n (Call action)))
       = Scatter).
Proof.
  cbv zeta. rewrite foldl_app.
  destruct (calls_iter action n new) as [Hlevel Hpending]; [simpl; lia|].
  cbv zeta in Hlevel, Hpending.
  destruct (timers_iter n (foldl threatStep new (replicate n (Call action))))
    as [Hlevel' Hpending']; [lia|rewrite Hlevel; destruct action; simpl; lia|].
  cbv zeta in Hlevel', Hpending'.
  rewrite Hlevel', Hpending', Hlevel, Hpending. simpl playerThreatLevel.
  simpl pendingDecays.
  split; [f_equal; f_equal; lia|]. split; [lia|]. split; [|split; [|split]].
  - intros ->. simpl. lia.
  - intros -> Hn. simpl. lia.
  - intros ->. simpl. lia.
  - intros -> Hn groupSize playerPos group. unfold selectFormationType.
    rewrite Hlevel. simpl. rewrite bool_decide_eq_true_2; [done|lia].
Qed.

End ThreatRatchet.
